(** * chrono-server: session aggregation, boundary decisions, context extraction

    A shallow embedding of
      - [services/sessions.ts]         (SessionsService.aggregateToSessions, finalizeSession),
      - [services/sessionBoundary.ts]  (SessionBoundaryService),
      - [utils/contextExtractor.ts]    (extractContext, extractDomain, areUrlsRelated,
                                        deduplicateContexts),
    together with the properties of the session engine stated in the specification.

    Conventions of the embedding.
      - A JavaScript [Date] is its [getTime()] value: an integer number of
        milliseconds ([Z]).  [toISOString] is injective on valid dates, so the
        [start]/[end] strings of a session are represented by the instants they render.
      - Strings are byte strings; [toLowerCase], [trim], [length] and the
        case-insensitive regular expressions are modelled on ASCII text, where
        a byte is a character and a UTF-16 code unit.  Statements about the
        characters, the case or the white space of a string are made for
        ASCII text ([ascii_text]).
      - A confidence is a rational number ([Q]); every literal of the source
        (1.0, 0.9, 0.85, 0.75, 0.7, 0.6, 0.5) is a short decimal, on which the
        comparison of doubles and the comparison of rationals agree.
      - Platform services and external collaborators are fields of [Env]:
        the WHATWG URL parser, the AI classifier, [crypto.randomUUID], and the
        regular-expression based title extractors.
      - The module-level mutable state is threaded explicitly as a [World].
      - The aggregator runs in an error monad: reading a field of [undefined]
        raises, and the results below show that no run does.  An exception
        the engine does not catch (a stored pattern that [new RegExp]
        rejects) ends the run without a result; the embedding covers the
        runs that return. *)

From Stdlib Require Import ZArith QArith Ascii String List Bool Lia.
From stdpp Require Import base option list gmap strings pretty.

Local Open Scope Z_scope.

(** ** JavaScript strings *)

Module JsString.

(** The string is ASCII text: every byte is below 128. *)
Definition ascii_text (s : string) : bool :=
  forallb (fun c => (nat_of_ascii c <? 128)%nat) (list_ascii_of_string s).

Definition lower_ascii (c : ascii) : ascii :=
  let n := nat_of_ascii c in
  if ((65 <=? n)%nat && (n <=? 90)%nat)%bool then ascii_of_nat (n + 32) else c.

(** [String.prototype.toLowerCase], on ASCII text. *)
Fixpoint toLowerCase (s : string) : string :=
  match s with
  | EmptyString => EmptyString
  | String c s' => String (lower_ascii c) (toLowerCase s')
  end.

(** [String.prototype.includes]. *)
Fixpoint includes (s sub : string) : bool :=
  String.prefix sub s ||
  match s with
  | EmptyString => false
  | String _ s' => includes s' sub
  end.

Definition is_space (c : ascii) : bool :=
  let n := nat_of_ascii c in
  ((n =? 32)%nat || ((9 <=? n)%nat && (n <=? 13)%nat))%bool.

Fixpoint trimStart (s : string) : string :=
  match s with
  | EmptyString => EmptyString
  | String c s' => if is_space c then trimStart s' else s
  end.

(** The string without its trailing white space. *)
Fixpoint trimEnd (s : string) : string :=
  match s with
  | EmptyString => EmptyString
  | String c s' =>
      match trimEnd s' with
      | EmptyString => if is_space c then EmptyString else String c EmptyString
      | t => String c t
      end
  end.

(** [String.prototype.trim]. *)
Definition trim (s : string) : string := trimEnd (trimStart s).

(** Truthiness of a string value: the empty string is falsy. *)
Definition truthy (s : string) : bool := negb (String.eqb s "").

(** Truthiness of [string | null | undefined]. *)
Definition truthy_opt (o : option string) : bool :=
  match o with
  | Some s => truthy s
  | None => false
  end.

(** [s.substring(0, n)]. *)
Definition substring0 (n : nat) (s : string) : string := String.substring 0 n s.

(** [s.replace(/^www\./, "")]. *)
Definition strip_www (s : string) : string :=
  if String.prefix "www." s then String.substring 4 (String.length s - 4) s else s.

(** [haystack] contains one of the [alts], ignoring case: the test of a
    regular expression [/a1|a2|.../i] whose alternatives are plain words. *)
Definition test_alternatives_i (alts : list string) (haystack : string) : bool :=
  existsb (fun a => includes (toLowerCase haystack) (toLowerCase a)) alts.

End JsString.

Import JsString.

(** ** Data model *)

(** A row of the [events] table, with the columns the session engine reads. *)
Record Event := mkEvent {
  timestamp : Z;                      (* Date.getTime(), milliseconds *)
  appName : string;
  windowTitle : string;
  bundleIdentifier : option string;
  documentPath : option string;
  url : option string;
  isIdle : bool;
  duration : option Z                 (* seconds; the column is nullable *)
}.

(** [event.duration ?? 5] *)
Definition durationOr5 (e : Event) : Z := default 5 (duration e).

Inductive ContextType := CtxFile | CtxUrl | CtxCommand | CtxDocument | CtxProject | CtxOther.

Record ExtractedContext := mkContext {
  ctx_type : ContextType;
  ctx_value : string;
  ctx_details : option string
}.

Record BoundaryDecision := mkDecision {
  shouldMerge : bool;
  confidence : Q;
  reason : string;
  suggestedCategory : option string
}.

(** The category snapshot built by [categoriesService.getCategoryLookupMaps]. *)
Record CategoryLookup := mkLookup {
  apps : gmap string string;
  bundles : gmap string string;
  domains : gmap string string;
  domainPatterns : list (string * string)     (* (pattern, category), in order *)
}.

(** The JSON object answered by the classifier, as [askAIForBoundary] reads it:
    [sameSession === true], [confidence] when it is a number, [reason],
    [suggestedCategory]. *)
Record AiReply := mkAiReply {
  reply_sameSession : bool;
  reply_confidence : option Q;
  reply_reason : option string;
  reply_suggestedCategory : option string
}.

(** The title extractors of [contextExtractor.ts], one per entry of the four
    pattern tables. *)
Inductive Extractor :=
  | ExVSCode | ExCursor | ExXcode | ExJetBrains | ExSublime | ExVim
  | ExTerminal
  | ExFigma | ExSketch | ExAdobe
  | ExSlack | ExDiscord | ExTeams.

(** What the engine takes from its platform and its collaborators.  None of
    these is changed by an aggregation run. *)
Record Env := mkEnv {
  (** [new URL(u).hostname]; [None] when the constructor throws. *)
  url_hostname : string -> option string;
  (** [this.categoryLookup] of the boundary service; [None] before the first refresh. *)
  categoryLookup : option CategoryLookup;
  (** [aiService.isModelAvailable("claude-3-5-haiku")]. *)
  ai_available : bool;
  (** The classifier's parsed answer to the prompt built from the two event
      descriptions, at the n-th call of the process; [None] when the call or
      [JSON.parse] throws. *)
  classify : nat -> string -> string -> option AiReply;
  (** The n-th value drawn from [crypto.randomUUID]. *)
  randomUUID : nat -> string;
  (** The [extractor] closures of the pattern tables: regular expressions over
      the window title.  They and [extractBrowserContext] feed the [contexts]
      of a session only; they are left open, and every result below holds
      whatever they answer. *)
  title_extractor : Extractor -> string -> option string;
  (** [extractBrowserContext(title, url)]. *)
  extractBrowserContext : string -> option string -> option ExtractedContext;
  (** [new RegExp(source, "i").test(s)] for a source outside the fragment
      interpreted by [JsRegExp] below.  A source the constructor rejects
      raises a [SyntaxError]; that is outside the model. *)
  regexp_test_i : string -> string -> bool;
  (** Whether the database statements of the n-th call of
      [categoriesService.createOrUpdateSuggestion] go through; [false] when
      one of them throws. *)
  suggestion_stored : nat -> bool
}.

Inductive SuggestionKind := SuggestApp | SuggestDomain.

(** The state an aggregation run can change: the module-level
    [aiDecisionCache], the calls made to the classifier, the UUIDs drawn, and
    the rows handed to [categoriesService.createOrUpdateSuggestion], one for
    each call, whether the database took the row or threw. *)
Record World := mkWorld {
  aiDecisionCache : gmap string BoundaryDecision;
  ai_calls : nat;
  uuid_draws : nat;
  suggestions : list (SuggestionKind * string * string * Q)
}.

(** A small state monad over [World]. *)
Definition M (A : Type) : Type := World -> A * World.

Definition ret {A} (a : A) : M A := fun w => (a, w).

Definition bind {A B} (m : M A) (k : A -> M B) : M B :=
  fun w => let (a, w') := m w in k a w'.

Notation "x <- m ;; k" := (bind m (fun x => k))
  (at level 100, m at next level, right associativity).

(** ** Regular expressions of [matchesDomainPattern] *)

Module JsRegExp.

(** The fragment of regular-expression syntax interpreted here: literal
    characters, the escaped dot, [.] and [.*], the assertions [^] and [$],
    and alternation.  It contains the image of every pattern under the two
    [replace] calls of [matchesDomainPattern], unless the pattern carries a
    backslash, a quantifier [+ ?], or a bracket. *)
Inductive Term :=
  | TBegin                      (* ^ *)
  | TEnd                        (* $ *)
  | TChar (c : ascii)           (* a literal character *)
  | TAny                        (* .  *)
  | TAnyStar.                   (* .* *)

Definition Alternatives : Type := list Term * list (list Term).

Definition unsupported (c : ascii) : bool :=
  existsb (Ascii.eqb c)
    ["\"; "+"; "?"; "*"; "("; ")"; "["; "]"; "{"; "}"]%char.

Definition add_term (t : Term) (r : option Alternatives) : option Alternatives :=
  match r with
  | Some (a, alts) => Some (t :: a, alts)
  | None => None
  end.

Fixpoint parse (src : string) : option Alternatives :=
  match src with
  | EmptyString => Some ([], [])
  | String c rest =>
      if Ascii.eqb c "|" then
        match parse rest with
        | Some (a, alts) => Some ([], a :: alts)
        | None => None
        end
      else if Ascii.eqb c "^" then add_term TBegin (parse rest)
      else if Ascii.eqb c "$" then add_term TEnd (parse rest)
      else if Ascii.eqb c "\" then
        match rest with
        | String d rest' =>
            if Ascii.eqb d "." then add_term (TChar ".") (parse rest') else None
        | EmptyString => None
        end
      else if Ascii.eqb c "." then
        match rest with
        | String d rest' =>
            if Ascii.eqb d "*" then add_term TAnyStar (parse rest')
            else add_term TAny (parse rest)
        | EmptyString => add_term TAny (parse rest)
        end
      else if unsupported c then None
      else add_term (TChar c) (parse rest)
  end.

(** Line terminators are the characters [.] does not match. *)
Definition line_terminator (c : ascii) : bool :=
  let n := nat_of_ascii c in ((n =? 10)%nat || (n =? 13)%nat)%bool.

(** Equality of characters under the [i] flag. *)
Definition eq_i (a b : ascii) : bool := Ascii.eqb (lower_ascii a) (lower_ascii b).

(** Does the sequence of terms match a prefix of [s]?  [at0] tells whether
    [s] is the whole input (the position is 0). *)
Fixpoint match_here (ts : list Term) (at0 : bool) (s : string) {struct ts} : bool :=
  match ts with
  | [] => true
  | TBegin :: ts' => at0 && match_here ts' at0 s
  | TEnd :: ts' =>
      match s with
      | EmptyString => match_here ts' at0 s
      | String _ _ => false
      end
  | TChar c :: ts' =>
      match s with
      | String a s' => eq_i a c && match_here ts' false s'
      | EmptyString => false
      end
  | TAny :: ts' =>
      match s with
      | String a s' => negb (line_terminator a) && match_here ts' false s'
      | EmptyString => false
      end
  | TAnyStar :: ts' =>
      (fix star (at0 : bool) (s : string) {struct s} : bool :=
         match_here ts' at0 s ||
         match s with
         | String a s' => negb (line_terminator a) && star false s'
         | EmptyString => false
         end) at0 s
  end.

(** [regex.test(s)]: some alternative matches at some position. *)
Fixpoint search (alts : list (list Term)) (at0 : bool) (s : string) : bool :=
  existsb (fun a => match_here a at0 s) alts ||
  match s with
  | String _ s' => search alts false s'
  | EmptyString => false
  end.

(** [new RegExp(source, "i").test(s)]. *)
Definition test_i (env : Env) (source s : string) : bool :=
  match parse source with
  | Some (a, alts) => search (a :: alts) true s
  | None => regexp_test_i env source s
  end.

(** [s.replace(/\./g, "\\.")] *)
Fixpoint escape_dots (s : string) : string :=
  match s with
  | EmptyString => EmptyString
  | String c s' =>
      if Ascii.eqb c "." then String "\" (String "." (escape_dots s'))
      else String c (escape_dots s')
  end.

(** [s.replace(/\*/g, ".*")] *)
Fixpoint expand_stars (s : string) : string :=
  match s with
  | EmptyString => EmptyString
  | String c s' =>
      if Ascii.eqb c "*" then String "." (String "*" (expand_stars s'))
      else String c (expand_stars s')
  end.

End JsRegExp.

(** ** utils/contextExtractor.ts *)

Section ContextExtractor.

Variable env : Env.

(** [extractDomain(url)]: the host name without a leading [www.], [None]
    for a missing or empty URL and for one the URL parser rejects. *)
Definition extractDomain (u : option string) : option string :=
  match u with
  | Some s =>
      if truthy s then
        match url_hostname env s with
        | Some h => Some (strip_www h)
        | None => None
        end
      else None
  | None => None
  end.

Definition relatedGroups : list (list string) :=
  [ ["github.com"; "githubusercontent.com"; "github.io"; "gist.github.com"];
    ["google.com"; "googleapis.com"; "googleusercontent.com"];
    ["stackoverflow.com"; "stackexchange.com"; "askubuntu.com"; "serverfault.com"];
    ["amazon.com"; "aws.amazon.com"; "console.aws.amazon.com"];
    ["microsoft.com"; "azure.com"; "live.com"; "office.com"] ].

Definition areUrlsRelated (url1 url2 : option string) : bool :=
  if negb (truthy_opt url1) || negb (truthy_opt url2) then false
  else
    match extractDomain url1, extractDomain url2 with
    | Some domain1, Some domain2 =>
        if negb (truthy domain1) || negb (truthy domain2) then false
        else if String.eqb domain1 domain2 then true
        else
          existsb
            (fun group =>
               existsb (fun g => includes domain1 g || includes g domain1) group &&
               existsb (fun g => includes domain2 g || includes g domain2) group)
            relatedGroups
    | _, _ => false
    end.

(** The [appName] expressions of the pattern tables: each is a
    case-insensitive alternation of plain words. *)
Definition IDE_PATTERNS : list (list string * Extractor) :=
  [ (["Visual Studio Code"; "Code"; "VSCode"], ExVSCode);
    (["Cursor"], ExCursor);
    (["Xcode"], ExXcode);
    (["IntelliJ"; "WebStorm"; "PyCharm"; "PhpStorm"; "Rider"; "GoLand"; "CLion";
      "RubyMine"], ExJetBrains);
    (["Sublime Text"], ExSublime);
    (["nvim"; "vim"], ExVim) ].

Definition TERMINAL_PATTERNS : list (list string * Extractor) :=
  [ (["iTerm"; "Terminal"; "Ghostty"; "Alacritty"; "Hyper"; "Warp"; "Kitty"],
     ExTerminal) ].

Definition DESIGN_APP_PATTERNS : list (list string * Extractor) :=
  [ (["Figma"], ExFigma);
    (["Sketch"], ExSketch);
    (["Photoshop"; "Illustrator"; "InDesign"; "XD"; "Premiere"; "After Effects"],
     ExAdobe) ].

Definition COMMUNICATION_PATTERNS : list (list string * Extractor) :=
  [ (["Slack"], ExSlack); (["Discord"], ExDiscord); (["Teams"], ExTeams) ].

Definition BROWSER_NAMES : list string :=
  ["Firefox"; "Chrome"; "Safari"; "Edge"; "Brave"; "Arc"].

(** One [for (const pattern of TABLE)] loop of [extractContext]: the first
    entry whose expression matches the application name and whose extractor
    yields a non-empty string. *)
Fixpoint first_extracted (table : list (list string * Extractor))
    (app title : string) : option string :=
  match table with
  | [] => None
  | (alts, ex) :: table' =>
      if test_alternatives_i alts app then
        match title_extractor env ex title with
        | Some extracted =>
            if truthy extracted then Some extracted
            else first_extracted table' app title
        | None => first_extracted table' app title
        end
      else first_extracted table' app title
  end.

Definition genericTitles : list string :=
  ["untitled"; "new document"; "new file"; "document"; "window"; ""].

Definition in_list (s : string) (l : list string) : bool := existsb (String.eqb s) l.

Definition extractContext (app title : string) (u docPath : option string)
    : option ExtractedContext :=
  if negb (truthy title) || (String.length (trim title) =? 0)%nat then None
  else if match docPath with
          | Some p => truthy p && truthy (trim p)
          | None => false
          end
  then Some (mkContext CtxFile (default "" docPath) None)
  else
    match first_extracted IDE_PATTERNS app title with
    | Some extracted => Some (mkContext CtxFile extracted None)
    | None =>
    match first_extracted TERMINAL_PATTERNS app title with
    | Some extracted => Some (mkContext CtxCommand extracted None)
    | None =>
    match first_extracted DESIGN_APP_PATTERNS app title with
    | Some extracted => Some (mkContext CtxDocument extracted None)
    | None =>
    match first_extracted COMMUNICATION_PATTERNS app title with
    | Some extracted => Some (mkContext CtxOther extracted None)
    | None =>
        if test_alternatives_i BROWSER_NAMES app
        then extractBrowserContext env title u
        else
          let normalizedTitle := trim (toLowerCase title) in
          if negb (in_list normalizedTitle genericTitles)
             && (String.length title <? 100)%nat
          then Some (mkContext CtxOther (substring0 80 title) None)
          else None
    end end end end.

(** [deduplicateContexts]: values in order of first occurrence, compared
    after lower-casing and trimming; empty values are dropped. *)
Fixpoint dedup_loop (contexts : list ExtractedContext) (seen result : list string)
    : list string :=
  match contexts with
  | [] => result
  | ctx :: rest =>
      let normalized := trim (toLowerCase (ctx_value ctx)) in
      if negb (in_list normalized seen) && (0 <? String.length (ctx_value ctx))%nat
      then dedup_loop rest (seen ++ [normalized]) (result ++ [ctx_value ctx])
      else dedup_loop rest seen result
  end.

Definition deduplicateContexts (contexts : list ExtractedContext) : list string :=
  dedup_loop contexts [] [].

End ContextExtractor.

(** ** services/sessionBoundary.ts *)

Definition RELATED_APP_GROUPS : list (list string) :=
  [ ["Visual Studio Code"; "Code"; "Cursor"; "Xcode"; "IntelliJ IDEA"; "WebStorm"; "PyCharm"];
    ["Ghostty"; "Terminal"; "iTerm2"; "Alacritty"; "Hyper"; "Warp"; "Kitty"];
    ["Bruno"; "Postman"; "Insomnia"];
    ["Figma"; "Sketch"; "Adobe XD"];
    ["Photoshop"; "Illustrator"; "InDesign"];
    ["Slack"; "Discord"; "Teams"; "Zoom"];
    ["Firefox"; "Chrome"; "Safari"; "Edge"; "Brave"; "Arc"] ].

Definition IDLE_THRESHOLD : Z := 120.
Definition MAX_SESSION_GAP : Z := 300.

(** The merge threshold of the aggregator and the suggestion threshold. *)
Definition MERGE_CONFIDENCE : Q := 0.7.
Definition SUGGESTION_CONFIDENCE : Q := 0.6.

Definition dquote : string := String "034"%char EmptyString.

(** [Math.round(n / d)] for integers [n] and a positive [d]: the quotient
    rounded to the nearest integer, halves upwards. *)
Definition round_div (n d : Z) : Z := (2 * n + d) / (2 * d).

Section SessionBoundaryService.

Variable env : Env.

(** [matchesDomainPattern(domain, pattern)] *)
Definition matchesDomainPattern (domain pattern : string) : bool :=
  let regexPattern := JsRegExp.expand_stars (JsRegExp.escape_dots pattern) in
  JsRegExp.test_i env ("^" +:+ regexPattern +:+ "$") domain.

(** A map lookup whose result is used only when truthy ([if (byApp) ...]). *)
Definition get_truthy (m : gmap string string) (k : string) : option string :=
  match m !! k with
  | Some c => if truthy c then Some c else None
  | None => None
  end.

(** The [for (const {pattern, category} of domainPatterns)] loop. *)
Fixpoint first_pattern (pats : list (string * string)) (domain : string)
    : option string :=
  match pats with
  | [] => None
  | (pattern, category) :: pats' =>
      if matchesDomainPattern domain pattern then Some category
      else first_pattern pats' domain
  end.

Definition getCategoryForEvent (event : Event) : option string :=
  match categoryLookup env with
  | None => None
  | Some lk =>
      let byBundle :=
        match bundleIdentifier event with
        | Some b => if truthy b then get_truthy (bundles lk) b else None
        | None => None
        end in
      match byBundle with
      | Some c => Some c
      | None =>
      match get_truthy (apps lk) (appName event) with
      | Some c => Some c
      | None =>
          if truthy_opt (url event) then
            match extractDomain env (url event) with
            | Some domain =>
                if truthy domain then
                  match get_truthy (domains lk) domain with
                  | Some c => Some c
                  | None => first_pattern (domainPatterns lk) domain
                  end
                else None
            | None => None
            end
          else None
      end end
  end.

Definition in_group (app : string) (group : list string) : bool :=
  existsb
    (fun g => includes (toLowerCase app) (toLowerCase g)
              || includes (toLowerCase g) (toLowerCase app))
    group.

Definition areAppsRelated (app1 app2 : string) : bool :=
  existsb (fun group => in_group app1 group && in_group app2 group)
    RELATED_APP_GROUPS.

Definition isBrowser (app : string) : bool :=
  existsb (fun b => includes (toLowerCase app) (toLowerCase b))
    ["Firefox"; "Chrome"; "Safari"; "Edge"; "Brave"; "Arc"].

Definition getUncategorizedValue (event : Event) : string :=
  if isBrowser (appName event) && truthy_opt (url event)
  then default (appName event) (extractDomain env (url event))
  else appName event.

Definition cacheKeyPart (event : Event) : string :=
  if isBrowser (appName event)
  then default (appName event) (extractDomain env (Some (default "" (url event))))
  else appName event.

Definition buildCacheKey (prev curr : Event) : string :=
  cacheKeyPart prev +:+ "|" +:+ cacheKeyPart curr.

Definition describeEvent (event : Event) : string :=
  let desc := appName event in
  let desc :=
    if truthy_opt (url event) then
      match extractDomain env (url event) with
      | Some domain => if truthy domain then desc +:+ " (" +:+ domain +:+ ")" else desc
      | None => desc
      end
    else desc in
  if truthy (windowTitle event) && (String.length (windowTitle event) <? 60)%nat
  then desc +:+ ": " +:+ dquote +:+ windowTitle event +:+ dquote
  else desc.

(** [askAIForBoundary]: one call of the classifier; every failure inside
    the function yields the parse-error decision. *)
Definition askAIForBoundary (prev curr : Event) : M BoundaryDecision :=
  fun w =>
    let prevDesc := describeEvent prev in
    let currDesc := describeEvent curr in
    let w' := mkWorld (aiDecisionCache w) (S (ai_calls w)) (uuid_draws w)
                (suggestions w) in
    match classify env (ai_calls w) prevDesc currDesc with
    | Some parsed =>
        (mkDecision (reply_sameSession parsed)
           (default 0.6%Q (reply_confidence parsed))
           (if truthy_opt (reply_reason parsed)
            then default "" (reply_reason parsed) else "AI classification")
           (reply_suggestedCategory parsed), w')
    | None =>
        (mkDecision false 0.5 "AI parse error - conservative split" None, w')
    end.

Definition cache_set (key : string) (d : BoundaryDecision) : M unit :=
  fun w => (tt, mkWorld (<[key := d]> (aiDecisionCache w)) (ai_calls w)
                  (uuid_draws w) (suggestions w)).

(** [categoriesService.createOrUpdateSuggestion], recorded as the row it
    receives.  The answer is [true] when its database statements go through
    and [false] when one of them throws: the exception reaches the [catch] of
    [decideByCategory]. *)
Definition createOrUpdateSuggestion (k : SuggestionKind) (value category : string)
    (conf : Q) : M bool :=
  fun w => (suggestion_stored env (length (suggestions w)),
            mkWorld (aiDecisionCache w) (ai_calls w) (uuid_draws w)
              (suggestions w ++ [(k, value, category, conf)])).

(** The conservative fallback of [decideByCategory]. *)
Definition conservativeSplit : BoundaryDecision :=
  mkDecision false 0.5 "Uncategorized - conservative split" None.

Definition decideByCategory (prev curr : Event) : M BoundaryDecision :=
  let prevCat := getCategoryForEvent prev in
  let currCat := getCategoryForEvent curr in
  if truthy_opt prevCat && truthy_opt currCat then
    let p := default "" prevCat in
    let c := default "" currCat in
    if String.eqb p c
    then ret (mkDecision true 0.85 ("Same category (" +:+ p +:+ ")") None)
    else ret (mkDecision false 0.9
                ("Different categories (" +:+ p +:+ " â†’ " +:+ c +:+ ")") None)
  else
    let uncategorized := if negb (truthy_opt currCat) then curr else prev in
    let kind := if isBrowser (appName uncategorized) then SuggestDomain else SuggestApp in
    let value := getUncategorizedValue uncategorized in
    let cacheKey := buildCacheKey prev curr in
    fun w =>
      match aiDecisionCache w !! cacheKey with
      | Some cached => (cached, w)
      | None =>
          if ai_available env then
            (* try { ... return aiDecision } catch { } and the fallback *)
            (aiDecision <- askAIForBoundary prev curr ;;
             _ <- cache_set cacheKey aiDecision ;;
             stored <- (if truthy_opt (suggestedCategory aiDecision)
                           && Qle_bool SUGGESTION_CONFIDENCE (confidence aiDecision)
                        then createOrUpdateSuggestion kind value
                               (default "" (suggestedCategory aiDecision))
                               (confidence aiDecision)
                        else ret true) ;;
             if stored then ret aiDecision else ret conservativeSplit) w
          else (conservativeSplit, w)
      end.

(** [shouldMergeEvents(prev, curr)] *)
Definition shouldMergeEvents (prev curr : Event) : M BoundaryDecision :=
  let gap_ms := timestamp curr - timestamp prev in
  if MAX_SESSION_GAP * 1000 <? gap_ms then
    ret (mkDecision false 1.0
           ("Large time gap (" +:+ pretty (round_div gap_ms 60000) +:+ "min)") None)
  else if isIdle prev && (IDLE_THRESHOLD <? durationOr5 prev) then
    ret (mkDecision false 1.0 "Extended idle period" None)
  else if String.eqb (appName prev) (appName curr) then
    if isBrowser (appName prev) && truthy_opt (url prev) && truthy_opt (url curr) then
      let prevDomain := extractDomain env (url prev) in
      let currDomain := extractDomain env (url curr) in
      if bool_decide (prevDomain = currDomain) then
        ret (mkDecision true 1.0 "Same app and domain" None)
      else if areUrlsRelated env (url prev) (url curr) then
        ret (mkDecision true 0.9 "Related domains (same service ecosystem)" None)
      else decideByCategory prev curr
    else ret (mkDecision true 1.0 "Same application" None)
  else if areAppsRelated (appName prev) (appName curr) then
    let prevCat := getCategoryForEvent prev in
    let currCat := getCategoryForEvent curr in
    if truthy_opt prevCat && truthy_opt currCat
       && String.eqb (default "" prevCat) (default "" currCat)
    then ret (mkDecision true 0.9
                ("Related apps in same category (" +:+ default "" prevCat +:+ ")") None)
    else ret (mkDecision true 0.75 "Related application group" None)
  else decideByCategory prev curr.

End SessionBoundaryService.

(** ** services/sessions.ts *)

Inductive SessionType := Active | Idle.

Global Instance SessionType_eq_dec : EqDecision SessionType.
Proof. solve_decision. Defined.

(** [ActivitySession]; the optional fields are absent ([None]) where the code
    does not write them. *)
Record ActivitySession := mkSession {
  s_id : string;
  s_start : Z;
  s_end : Z;
  s_duration : Z;
  s_type : SessionType;
  s_category : option string;
  s_apps : option (list string);
  s_contexts : option (list string);
  s_contextSwitches : option Z;
  s_precedingCategory : option string
}.

(** The accumulator [currentSession] of [aggregateToSessions]. *)
Record Accumulator := mkAcc {
  acc_events : list Event;
  acc_contexts : list ExtractedContext;
  acc_apps : list string;            (* a [Set], in insertion order *)
  acc_contextSwitches : Z;
  acc_category : option string
}.

Definition VALID_CATEGORIES : list string :=
  ["development"; "design"; "communication"; "research"; "distraction"; "other"].

Definition toActivityCategory (cat : option string) : string :=
  match cat with
  | Some c => if truthy c && in_list c VALID_CATEGORIES then c else "other"
  | None => "other"
  end.

(** [Set.prototype.add] *)
Definition set_add (x : string) (s : list string) : list string :=
  if in_list x s then s else s ++ [x].

(** Computations of the aggregator: state over [World], and [None] for a
    [TypeError] raised by reading a field of [undefined]. *)
Definition MX (A : Type) : Type := World -> option (A * World).

Definition retX {A} (a : A) : MX A := fun w => Some (a, w).

Definition bindX {A B} (m : MX A) (k : A -> MX B) : MX B :=
  fun w => match m w with
           | Some (a, w') => k a w'
           | None => None
           end.

Definition liftX {A} (m : M A) : MX A := fun w => Some (m w).

Definition throwX {A} : MX A := fun _ => None.

Notation "x <~ m ;; k" := (bindX m (fun x => k))
  (at level 100, m at next level, right associativity).

Section SessionsService.

Variable env : Env.

(** [randomUUID()] *)
Definition freshUUID : MX string :=
  fun w => Some (randomUUID env (uuid_draws w),
                 mkWorld (aiDecisionCache w) (ai_calls w) (S (uuid_draws w))
                   (suggestions w)).

(** [finalizeSession(session)] *)
Definition finalizeSession (session : Accumulator) : MX ActivitySession :=
  match head (acc_events session), last (acc_events session) with
  | Some firstEvent, Some lastEvent =>
      let start := timestamp firstEvent in
      let end_ := timestamp lastEvent + durationOr5 lastEvent * 1000 in
      let duration := round_div (end_ - start) 1000 in
      id <~ freshUUID ;;
      retX (mkSession id start end_ duration Active
              (Some (toActivityCategory (acc_category session)))
              (Some (acc_apps session))
              (Some (take 10 (deduplicateContexts (acc_contexts session))))
              (Some (acc_contextSwitches session))
              None)
  | _, _ => throwX
  end.

(** The accumulator opened by an active event. *)
Definition openSession (event : Event) : Accumulator :=
  mkAcc [event]
    (match extractContext env (appName event) (windowTitle event) (url event)
             (documentPath event) with
     | Some ctx => [ctx]
     | None => []
     end)
    [appName event]
    0
    (getCategoryForEvent env event).

(** The merge branch: the event joins the open session. *)
Definition mergeEvent (cur : Accumulator) (prevEvent event : Event) : Accumulator :=
  mkAcc
    (acc_events cur ++ [event])
    (match extractContext env (appName event) (windowTitle event) (url event)
             (documentPath event) with
     | Some ctx => acc_contexts cur ++ [ctx]
     | None => acc_contexts cur
     end)
    (set_add (appName event) (acc_apps cur))
    (if negb (String.eqb (appName prevEvent) (appName event))
     then acc_contextSwitches cur + 1
     else if truthy_opt (url event) && truthy_opt (url prevEvent)
     then if bool_decide (extractDomain env (url prevEvent) = extractDomain env (url event))
          then acc_contextSwitches cur
          else acc_contextSwitches cur + 1
     else acc_contextSwitches cur)
    (if truthy_opt (acc_category cur) then acc_category cur
     else getCategoryForEvent env event).

(** The test of line 180: [decision.shouldMerge && decision.confidence >= 0.7]. *)
Definition mergeAccepted (decision : BoundaryDecision) : bool :=
  shouldMerge decision && Qle_bool MERGE_CONFIDENCE (confidence decision).

(** The variables of the loop: the [sessions] array and [currentSession]. *)
Record LoopState := mkLoop {
  sessions : list ActivitySession;
  currentSession : option Accumulator
}.

(** [if (currentSession && currentSession.events.length > 0) { push; null }] *)
Definition closeCurrent (st : LoopState) : MX LoopState :=
  match currentSession st with
  | Some cur =>
      if (0 <? length (acc_events cur))%nat then
        s <~ finalizeSession cur ;;
        retX (mkLoop (sessions st ++ [s]) None)
      else retX st
  | None => retX st
  end.

(** The extension of the trailing idle session, written through the alias
    [lastSession] into the array. *)
Definition extendIdle (lastSession : ActivitySession) (event : Event) : ActivitySession :=
  mkSession (s_id lastSession) (s_start lastSession)
    (timestamp event)
    (s_duration lastSession + durationOr5 event)
    (s_type lastSession) (s_category lastSession) (s_apps lastSession)
    (s_contexts lastSession) (s_contextSwitches lastSession)
    (s_precedingCategory lastSession).

Definition newIdleSession (id : string) (event : Event) (precedingCat : option string)
    : ActivitySession :=
  mkSession id (timestamp event)
    (timestamp event + durationOr5 event * 1000)
    (durationOr5 event) Idle None None None None precedingCat.

(** The idle branch of the loop body. *)
Definition idleEvent (event : Event) (st : LoopState) : MX LoopState :=
  st1 <~ closeCurrent st ;;
  match last (sessions st1) with
  | Some lastSession =>
      if bool_decide (s_type lastSession = Idle) then
        retX (mkLoop (removelast (sessions st1) ++ [extendIdle lastSession event])
                (currentSession st1))
      else
        id <~ freshUUID ;;
        retX (mkLoop (sessions st1 ++ [newIdleSession id event (s_category lastSession)])
                (currentSession st1))
  | None =>
      id <~ freshUUID ;;
      retX (mkLoop (sessions st1 ++ [newIdleSession id event None])
              (currentSession st1))
  end.

(** The active branch of the loop body. *)
Definition activeEvent (event : Event) (st : LoopState) : MX LoopState :=
  match currentSession st with
  | None => retX (mkLoop (sessions st) (Some (openSession event)))
  | Some cur =>
      match last (acc_events cur) with
      | None => throwX
      | Some prevEvent =>
          decision <~ liftX (shouldMergeEvents env prevEvent event) ;;
          if mergeAccepted decision then
            retX (mkLoop (sessions st) (Some (mergeEvent cur prevEvent event)))
          else
            s <~ finalizeSession cur ;;
            retX (mkLoop (sessions st ++ [s]) (Some (openSession event)))
      end
  end.

(** One iteration of the [for] loop. *)
Definition step (event : Event) (st : LoopState) : MX LoopState :=
  if isIdle event then idleEvent event st else activeEvent event st.

Fixpoint loop (rawEvents : list Event) (st : LoopState) : MX LoopState :=
  match rawEvents with
  | [] => retX st
  | event :: rest => st' <~ step event st ;; loop rest st'
  end.

(** [aggregateToSessions(rawEvents)] *)
Definition aggregateToSessions (rawEvents : list Event) : MX (list ActivitySession) :=
  match rawEvents with
  | [] => retX []
  | _ =>
      st <~ loop rawEvents (mkLoop [] None) ;;
      st' <~ closeCurrent st ;;
      retX (sessions st')
  end.

End SessionsService.

(** ** services/categories.ts: the category snapshot *)

(** The columns of [app_categories] and [domain_categories] read by
    [getCategoryLookupMaps]. *)
Record AppCategory := mkAppCategory {
  ac_appName : string;
  ac_bundleId : option string;
  ac_category : string
}.

Record DomainCategory := mkDomainCategory {
  dc_domain : string;
  dc_pattern : option string;
  dc_category : string
}.

(** [getCategoryLookupMaps], from the rows answered by [getAllAppCategories]
    and [getAllDomainCategories]. *)
Definition getCategoryLookupMaps (allApps : list AppCategory)
    (allDomains : list DomainCategory) : CategoryLookup :=
  let appMaps :=
    fold_left
      (fun (maps : gmap string string * gmap string string) app =>
         (<[ac_appName app := ac_category app]> maps.1,
          match ac_bundleId app with
          | Some b => if truthy b then <[b := ac_category app]> maps.2 else maps.2
          | None => maps.2
          end))
      allApps (∅, ∅) in
  let domainMaps :=
    fold_left
      (fun (maps : gmap string string * list (string * string)) domain =>
         (<[dc_domain domain := dc_category domain]> maps.1,
          match dc_pattern domain with
          | Some p => if truthy p then maps.2 ++ [(p, dc_category domain)] else maps.2
          | None => maps.2
          end))
      allDomains (∅, []) in
  mkLookup appMaps.1 appMaps.2 domainMaps.1 domainMaps.2.

(** [refreshCategoryLookup]: the environment whose snapshot is rebuilt from
    the rows. *)
Definition refreshCategoryLookup (env : Env) (allApps : list AppCategory)
    (allDomains : list DomainCategory) : Env :=
  mkEnv (url_hostname env) (Some (getCategoryLookupMaps allApps allDomains))
    (ai_available env) (classify env) (randomUUID env) (title_extractor env)
    (extractBrowserContext env) (regexp_test_i env) (suggestion_stored env).

(** ** services/sessions.ts: totals, breakdown and patterns *)

Definition activeSessions (sessions : list ActivitySession) : list ActivitySession :=
  List.filter (fun s => bool_decide (s_type s = Active)) sessions.

Definition idleSessions (sessions : list ActivitySession) : list ActivitySession :=
  List.filter (fun s => bool_decide (s_type s = Idle)) sessions.

(** [totalActive] and [totalIdle] of [getDailySessions]. *)
Definition totalActive (sessions : list ActivitySession) : Z :=
  fold_left (fun sum s => sum + s_duration s) (activeSessions sessions) 0.

Definition totalIdle (sessions : list ActivitySession) : Z :=
  fold_left (fun sum s => sum + s_duration s) (idleSessions sessions) 0.

Record CategoryTotals := mkTotals {
  ct_duration : Z;
  ct_sessions : Z
}.

(** [computeCategoryBreakdown].  The keys of the record are the categories of
    the sessions, values of the type [ActivityCategory]. *)
Definition computeCategoryBreakdown (sessions : list ActivitySession)
    : gmap string CategoryTotals :=
  fold_left
    (fun breakdown session =>
       if bool_decide (s_type session = Idle) then breakdown
       else
         let category := default "other" (s_category session) in
         let entry := default (mkTotals 0 0) (breakdown !! category) in
         <[category := mkTotals (ct_duration entry + s_duration session)
                         (ct_sessions entry + 1)]> breakdown)
    sessions ∅.

Record LongestFocus := mkLongestFocus {
  lf_category : string;
  lf_duration : Z;
  lf_start : Z
}.

(** The sessions [computePatterns] takes for focus sessions: active, with a
    category other than "distraction". *)
Definition focusSessions (sessions : list ActivitySession) : list ActivitySession :=
  List.filter
    (fun s => truthy_opt (s_category s)
              && negb (String.eqb (default "" (s_category s)) "distraction"))
    (activeSessions sessions).

Definition focusOf (s : ActivitySession) : LongestFocus :=
  mkLongestFocus
    (if truthy_opt (s_category s) then default "" (s_category s) else "other")
    (s_duration s) (s_start s).

(** [longestFocus] of [computePatterns]: the [reduce] over the focus sessions. *)
Definition longestFocus (sessions : list ActivitySession) : option LongestFocus :=
  fold_left
    (fun longest s =>
       match longest with
       | None => Some (focusOf s)
       | Some l => if lf_duration l <? s_duration s then Some (focusOf s) else longest
       end)
    (focusSessions sessions) None.

Definition pad2 (n : Z) : string :=
  if n <? 10 then "0" +:+ pretty n else pretty n.

(** [new Date(start).toISOString().split("T")[1].substring(0, 5)]: the UTC
    time of day, as hours and minutes. *)
Definition timeOfDay (ms : Z) : string :=
  pad2 ((ms / 3600000) mod 24) +:+ ":" +:+ pad2 ((ms / 60000) mod 60).

Record IdlePeriod := mkIdlePeriod {
  ip_start : string;
  ip_duration : Z;
  ip_after : string
}.

(** [idlePeriods] of [computePatterns], with its [slice(0, 10)]. *)
Definition idlePeriods (sessions : list ActivitySession) : list IdlePeriod :=
  take 10
    (map (fun s =>
            mkIdlePeriod (timeOfDay (s_start s)) (s_duration s)
              (if truthy_opt (s_precedingCategory s)
               then default "" (s_precedingCategory s)
               else "unknown activity"))
       (idleSessions sessions)).

Record DistractionBlock := mkDistractionBlock {
  db_start : string;
  db_duration : Z;
  db_trigger : string
}.

(** The trigger text of a distraction block, from the session that precedes
    it in the full list. *)
Definition triggerOf (preceding : option ActivitySession) : string :=
  match preceding with
  | Some p =>
      if truthy_opt (s_category p) then "after " +:+ default "" (s_category p)
      else "start of tracking"
  | None => "start of tracking"
  end.

(** [distractionBlocks] of [computePatterns], with its [slice(0, 10)].  A
    session is an object of the array, and [sessions.indexOf(s)] its position:
    the sessions are enumerated with their positions. *)
Definition distractionBlocks (sessions : list ActivitySession) : list DistractionBlock :=
  take 10
    (map (fun entry : nat * ActivitySession =>
            let sessionIdx := entry.1 in
            let preceding :=
              if (0 <? sessionIdx)%nat then sessions !! (sessionIdx - 1)%nat else None in
            mkDistractionBlock (timeOfDay (s_start entry.2)) (s_duration entry.2)
              (triggerOf preceding))
       (List.filter
          (fun entry : nat * ActivitySession =>
             bool_decide (s_type entry.2 = Active)
             && bool_decide (s_category entry.2 = Some "distraction"))
          (imap pair sessions))).

(** [Map.prototype.get] and [set] on a map kept in insertion order. *)
Fixpoint hour_get (hour : Z) (m : list (Z * Z)) : option Z :=
  match m with
  | [] => None
  | (h, d) :: m' => if h =? hour then Some d else hour_get hour m'
  end.

Fixpoint hour_set (hour value : Z) (m : list (Z * Z)) : list (Z * Z) :=
  match m with
  | [] => [(hour, value)]
  | (h, d) :: m' => if h =? hour then (h, value) :: m' else (h, d) :: hour_set hour value m'
  end.

(** [new Date(start).getUTCHours()] *)
Definition utcHour (ms : Z) : Z := (ms / 3600000) mod 24.

(** [hourlyProductive] of [computePatterns]. *)
Definition hourlyProductive (sessions : list ActivitySession) : list (Z * Z) :=
  fold_left
    (fun m s =>
       if bool_decide (s_category s = Some "distraction") then m
       else
         let hour := utcHour (s_start s) in
         hour_set hour (default 0 (hour_get hour m) + s_duration s) m)
    (activeSessions sessions) [].

(** [peakProductivityHour] of [computePatterns]: the loop over the entries of
    the map, with [peakDuration] starting at 0. *)
Definition peakProductivityHour (sessions : list ActivitySession) : option Z :=
  (fold_left
     (fun (peak : option Z * Z) (entry : Z * Z) =>
        if peak.2 <? entry.2 then (Some entry.1, entry.2) else peak)
     (hourlyProductive sessions) (None, 0)).1.

(** * Properties *)

(** ** Vocabulary *)

(** [R] holds between every element and its successor. *)
Fixpoint chain {A : Type} (R : A -> A -> Prop) (l : list A) : Prop :=
  match l with
  | a :: t => match t with
              | b :: _ => R a b /\ chain R t
              | [] => True
              end
  | [] => True
  end.

(** The input is sorted ascending by timestamp. *)
Definition events_sorted (evs : list Event) : Prop :=
  chain (fun a b => timestamp a <= timestamp b) evs.

(** No event lasts beyond the timestamp of the next one. *)
Definition events_disjoint (evs : list Event) : Prop :=
  chain (fun a b => timestamp a + durationOr5 a * 1000 <= timestamp b) evs.

Definition time_ordered (ss : list ActivitySession) : Prop :=
  chain (fun a b => s_start a <= s_start b) ss.

Definition non_overlapping (ss : list ActivitySession) : Prop :=
  chain (fun a b => s_end a <= s_start b) ss.

Definition is_idle_session (s : ActivitySession) : bool := bool_decide (s_type s = Idle).

(** Start, end and duration of a session. *)
Definition timing (s : ActivitySession) : Z * Z * Z := (s_start s, s_end s, s_duration s).

Definition sum_durations (run : list Event) : Z :=
  foldr (fun e acc => durationOr5 e + acc) 0 run.

(** The run that has been read, if it holds an event. *)
Definition close_run (run : list Event) : list (list Event) :=
  match run with
  | [] => []
  | _ => [run]
  end.

(** The maximal runs of consecutive idle events of a sequence, from left to
    right: an idle event extends the run being read, [run]; an active event
    closes it. *)
Fixpoint idle_runs_from (run : list Event) (evs : list Event) : list (list Event) :=
  match evs with
  | [] => close_run run
  | e :: rest =>
      if isIdle e then idle_runs_from (run ++ [e]) rest
      else close_run run ++ idle_runs_from [] rest
  end.

Definition idle_runs (evs : list Event) : list (list Event) := idle_runs_from [] evs.

(** The idle session of a run: it starts at the first event, lasts the sum of
    the durations, and ends at the last event's timestamp, or, for a run of a
    single event, at that event's timestamp plus its duration. *)
Definition run_timing (run : list Event) : Z * Z * Z :=
  match run with
  | [] => (0, 0, 0)
  | e :: rest =>
      (timestamp e,
       match last rest with
       | Some l => timestamp l
       | None => timestamp e + durationOr5 e * 1000
       end,
       sum_durations run)
  end.

(** A session with its identifier blanked. *)
Definition erase_id (s : ActivitySession) : ActivitySession :=
  mkSession "" (s_start s) (s_end s) (s_duration s) (s_type s) (s_category s)
    (s_apps s) (s_contexts s) (s_contextSwitches s) (s_precedingCategory s).

(** The wildcard reading of a domain pattern: [*] stands for any run of
    characters, every other character for itself up to case, and the pattern
    has to account for the whole domain. *)
Fixpoint wildcard_match (pattern domain : string) {struct pattern} : bool :=
  match pattern with
  | EmptyString =>
      match domain with
      | EmptyString => true
      | String _ _ => false
      end
  | String c pattern' =>
      if Ascii.eqb c "*" then
        (fix any_run (domain : string) : bool :=
           wildcard_match pattern' domain ||
           match domain with
           | String _ domain' => any_run domain'
           | EmptyString => false
           end) domain
      else
        match domain with
        | String a domain' => JsRegExp.eq_i a c && wildcard_match pattern' domain'
        | EmptyString => false
        end
  end.

(** A pattern written with literal characters, [.] and [*] only. *)
Definition plain_char (c : ascii) : bool :=
  negb (existsb (Ascii.eqb c)
          ["\"; "^"; "$"; "|"; "+"; "?"; "("; ")"; "["; "]"; "{"; "}"]%char).

Definition plain_pattern (pattern : string) : bool :=
  forallb plain_char (list_ascii_of_string pattern).

Definition no_line_terminator (s : string) : bool :=
  forallb (fun c => negb (JsRegExp.line_terminator c)) (list_ascii_of_string s).


(** The session [finalizeSession] builds from an accumulator whose first and
    last events are given. *)
Definition finalized (id : string) (session : Accumulator) (firstEvent lastEvent : Event)
    : ActivitySession :=
  mkSession id (timestamp firstEvent)
    (timestamp lastEvent + durationOr5 lastEvent * 1000)
    (round_div (timestamp lastEvent + durationOr5 lastEvent * 1000 - timestamp firstEvent)
       1000)
    Active
    (Some (toActivityCategory (acc_category session)))
    (Some (acc_apps session))
    (Some (take 10 (deduplicateContexts (acc_contexts session))))
    (Some (acc_contextSwitches session))
    None.

Definition Finalized (cur : Accumulator) (s : ActivitySession) : Prop :=
  exists id firstEvent lastEvent,
    head (acc_events cur) = Some firstEvent /\
    last (acc_events cur) = Some lastEvent /\
    s = finalized id cur firstEvent lastEvent.

(** Every open accumulator holds at least one event. *)
Definition open_ok (st : LoopState) : Prop :=
  forall cur, currentSession st = Some cur -> acc_events cur <> [].

(** The sessions once the open accumulator, if any, is finalized. *)
Inductive Closed (st : LoopState) : list ActivitySession -> Prop :=
  | Closed_none :
      currentSession st = None -> Closed st (sessions st)
  | Closed_some cur s :
      currentSession st = Some cur -> Finalized cur s ->
      Closed st (sessions st ++ [s]).

(** The five ways one iteration of the loop changes its variables. *)
Inductive Step (env : Env) (e : Event) (st : LoopState) : LoopState -> Prop :=
  | Step_idle_extend ss lastSession :
      isIdle e = true -> Closed st ss ->
      last ss = Some lastSession -> s_type lastSession = Idle ->
      Step env e st (mkLoop (removelast ss ++ [extendIdle lastSession e]) None)
  | Step_idle_new ss id :
      isIdle e = true -> Closed st ss ->
      (forall lastSession, last ss = Some lastSession -> s_type lastSession = Active) ->
      Step env e st
        (mkLoop (ss ++ [newIdleSession id e (last ss ≫= s_category)]) None)
  | Step_open :
      isIdle e = false -> currentSession st = None ->
      Step env e st (mkLoop (sessions st) (Some (openSession env e)))
  | Step_merge cur prevEvent :
      isIdle e = false -> currentSession st = Some cur ->
      last (acc_events cur) = Some prevEvent ->
      Step env e st (mkLoop (sessions st) (Some (mergeEvent env cur prevEvent e)))
  | Step_split cur s :
      isIdle e = false -> currentSession st = Some cur -> Finalized cur s ->
      Step env e st (mkLoop (sessions st ++ [s]) (Some (openSession env e))).

(** The time ranges held by the loop variables: one per session, and one for
    the open accumulator. *)
Definition open_range (cur : Accumulator) : list (Z * Z) :=
  match head (acc_events cur), last (acc_events cur) with
  | Some f, Some l => [(timestamp f, timestamp l + durationOr5 l * 1000)]
  | _, _ => []
  end.

Definition ranges (st : LoopState) : list (Z * Z) :=
  map (fun s => (s_start s, s_end s)) (sessions st)
  ++ match currentSession st with
     | Some cur => open_range cur
     | None => []
     end.

(** How an event changes the ranges: it adds its own, or moves the end of
    the last one to its timestamp or to the end of its duration. *)
Inductive Grow (e : Event) (I : list (Z * Z)) : list (Z * Z) -> Prop :=
  | Grow_new :
      Grow e I (I ++ [(timestamp e, timestamp e + durationOr5 e * 1000)])
  | Grow_last I0 s en x :
      I = I0 ++ [(s, en)] ->
      x = timestamp e \/ x = timestamp e + durationOr5 e * 1000 ->
      Grow e I (I0 ++ [(s, x)]).

(** What an output session carries as category: an active session the image
    under [toActivityCategory] of a category resolution (that of one of the
    input events, or none), an idle session nothing but [precedingCategory]. *)
Definition category_ok (env : Env) (evs : list Event) (s : ActivitySession) : Prop :=
  match s_type s with
  | Active =>
      exists cat,
        (cat = None \/ exists e, In e evs /\ cat = getCategoryForEvent env e) /\
        s_category s = Some (toActivityCategory cat) /\
        In (toActivityCategory cat) VALID_CATEGORIES
  | Idle =>
      s_category s = None /\ s_apps s = None /\ s_contexts s = None /\
      s_contextSwitches s = None
  end.

(** The seconds an event lasts: its [duration], and 5 where it has none. *)
Definition seconds_of (e : Event) : Z :=
  match duration e with
  | Some d => d
  | None => 5
  end.

Definition seconds_total (events : list Event) : Z :=
  foldr (fun e acc => seconds_of e + acc) 0 events.

(** [d] is [ms] milliseconds in seconds, rounded to the nearest integer,
    halves upwards, as [Math.round(ms / 1000)]. *)
Definition nearest_second (ms d : Z) : Prop :=
  ms - 500 < 1000 * d <= ms + 500.

(** A session of the output and the input events it holds.  An active
    session is what [finalizeSession] makes of an accumulator whose [events]
    are these members: it starts at the first member, ends where the last
    member ends, and its duration is that span in seconds, rounded.  An idle
    session starts at the first of its events and its duration is the sum of
    their durations. *)
Definition built_from (s : ActivitySession) (members : list Event) : Prop :=
  match s_type s with
  | Active =>
      exists firstEvent lastEvent,
        head members = Some firstEvent /\ last members = Some lastEvent /\
        Forall (fun e => isIdle e = false) members /\
        (exists cur, acc_events cur = members /\ Finalized cur s) /\
        s_start s = timestamp firstEvent /\
        s_end s = timestamp lastEvent + seconds_of lastEvent * 1000 /\
        nearest_second (s_end s - s_start s) (s_duration s) /\
        (forall k, s_end s - s_start s = 1000 * k -> s_duration s = k)
  | Idle =>
      exists firstEvent,
        head members = Some firstEvent /\
        Forall (fun e => isIdle e = true) members /\
        s_start s = timestamp firstEvent /\
        s_duration s = seconds_total members /\
        (length members = 1%nat -> s_end s - s_start s = 1000 * s_duration s)
  end.

(** The idle session the loop makes of a run of consecutive idle events: it
    starts at the first event and lasts the sum of the durations; a run of a
    single event ends where that event ends, a longer run at the timestamp
    of its last event. *)
Definition run_session (run : list Event) : Z * Z * Z :=
  match run with
  | [] => (0, 0, 0)
  | e :: rest =>
      (timestamp e,
       match last rest with
       | Some l => timestamp l
       | None => timestamp e + seconds_of e * 1000
       end,
       seconds_total run)
  end.

(** The time range of the session holds every event of the run, from its
    timestamp to the end of its duration. *)
Definition spans (s : ActivitySession) (run : list Event) : Prop :=
  Forall (fun e => s_start s <= timestamp e /\
                   timestamp e + seconds_of e * 1000 <= s_end s) run.

(** The group begins with an event at the session's start. *)
Definition starts_with (s : ActivitySession) (members : list Event) : Prop :=
  exists firstEvent, head members = Some firstEvent /\ s_start s = timestamp firstEvent.

(** The events the open accumulator holds. *)
Definition pending_events (st : LoopState) : list Event :=
  match currentSession st with
  | Some cur => acc_events cur
  | None => []
  end.

(** The loop variables after the events [seen]: the sessions pushed so far
    hold, group by group and in order, the events seen, up to those the open
    accumulator holds. *)
Definition Grouped (seen : list Event) (st : LoopState) : Prop :=
  exists groups,
    Forall2 built_from (sessions st) groups /\
    concat groups ++ pending_events st = seen /\
    Forall (fun e => isIdle e = false) (pending_events st).

(** Start, end and duration of the idle sessions of a list, in order. *)
Definition idle_timings (ss : list ActivitySession) : list (Z * Z * Z) :=
  map timing (List.filter is_idle_session ss).

(** The loop variables while the run [run] is being read: either no run is
    open, and [closed] are the idle sessions so far; or the trailing session
    is the idle session of [run], and [closed] are the idle sessions before it. *)
Definition Pending (run : list Event) (st : LoopState) (closed : list (Z * Z * Z)) : Prop :=
  (run = [] /\ closed = idle_timings (sessions st) /\
   (currentSession st = None -> sessions st = []))
  \/
  (run <> [] /\ currentSession st = None /\
   exists ss s, sessions st = ss ++ [s] /\ s_type s = Idle /\
                timing s = run_timing run /\ closed = idle_timings ss).

(** The event joined the open session: no session was pushed, and the
    accumulator holds the events it held, followed by the event. *)
Definition merged_into (before : list ActivitySession) (cur : Accumulator)
    (event : Event) (st' : LoopState) : Prop :=
  sessions st' = before /\
  exists cur', currentSession st' = Some cur' /\
               acc_events cur' = acc_events cur ++ [event].

(** Two runs compared: worlds with the same decision cache, session lists
    equal up to the identifiers, loop variables equal up to the identifiers. *)
Definition same_cache (w1 w2 : World) : Prop :=
  aiDecisionCache w1 = aiDecisionCache w2.

Definition same_up_to_ids (ss1 ss2 : list ActivitySession) : Prop :=
  map erase_id ss1 = map erase_id ss2.

Definition states_agree (st1 st2 : LoopState) : Prop :=
  same_up_to_ids (sessions st1) (sessions st2) /\
  currentSession st1 = currentSession st2.

Definition outcomes_agree {A : Type} (R : A -> A -> Prop)
    (r1 r2 : option (A * World)) : Prop :=
  match r1, r2 with
  | Some (a, wa), Some (b, wb) => R a b /\ same_cache wa wb
  | None, None => True
  | _, _ => False
  end.

(** The classifier answers equal descriptions equally, whenever it is asked. *)
Definition deterministic_classifier (env : Env) : Prop :=
  forall n m a b, classify env n a b = classify env m a b.

(** The suggestion store takes every write or refuses every write. *)
Definition steady_store (env : Env) : Prop :=
  forall n m, suggestion_stored env n = suggestion_stored env m.

(** The value of a computation depends on the world through the decision
    cache only, and so does the cache it leaves. *)
Definition cache_determined {A : Type} (m : M A) : Prop :=
  forall w1 w2, same_cache w1 w2 ->
    (m w1).1 = (m w2).1 /\ same_cache (m w1).2 (m w2).2.

(** The terms a plain pattern stands for. *)
Fixpoint pattern_terms (pattern : string) : list JsRegExp.Term :=
  match pattern with
  | EmptyString => []
  | String c pattern' =>
      (if Ascii.eqb c "*" then JsRegExp.TAnyStar else JsRegExp.TChar c)
      :: pattern_terms pattern'
  end.

(** The resolution order in the words of the specification: the first hit
    among the bundle id, the application name, the domain of the URL, and the
    wildcard patterns in their order. *)
Definition first_hit (candidates : list (option string)) : option string :=
  foldr (fun c rest => match c with Some x => Some x | None => rest end) None candidates.

Definition event_domain (env : Env) (event : Event) : option string :=
  match extractDomain env (url event) with
  | Some domain => if truthy domain then Some domain else None
  | None => None
  end.

Definition first_wildcard (pats : list (string * string)) (domain : string)
    : option string :=
  option_map snd (List.find (fun pc => wildcard_match (fst pc) domain) pats).

Definition categoryFor (env : Env) (lk : CategoryLookup) (event : Event) : option string :=
  first_hit
    [ match bundleIdentifier event with
      | Some b => if truthy b then get_truthy (bundles lk) b else None
      | None => None
      end;
      get_truthy (apps lk) (appName event);
      match event_domain env event with
      | Some domain => get_truthy (domains lk) domain
      | None => None
      end;
      match event_domain env event with
      | Some domain => first_wildcard (domainPatterns lk) domain
      | None => None
      end ].

(** How a session sits after its predecessor [a] in the output: an idle
    session follows an active one and records its category; an active session
    records nothing. *)
Definition follows (a b : ActivitySession) : Prop :=
  match s_type b with
  | Idle => s_type a = Active /\ s_precedingCategory b = s_category a
  | Active => s_precedingCategory b = None
  end.

Definition first_records_nothing (ss : list ActivitySession) : Prop :=
  match ss with
  | s :: _ => s_precedingCategory s = None
  | [] => True
  end.

(** The form under which [deduplicateContexts] compares values. *)
Definition normalized (value : string) : string := trim (toLowerCase value).

(** The application list, context list and switch count of an active
    session of the output. *)
Definition active_fields_ok (evs : list Event) (s : ActivitySession) : Prop :=
  s_type s = Active ->
  exists apps contexts switches,
    s_apps s = Some apps /\ s_contexts s = Some contexts /\
    s_contextSwitches s = Some switches /\
    apps <> [] /\ List.NoDup apps /\
    Forall (fun a => exists e, In e evs /\ isIdle e = false /\ appName e = a) apps /\
    Z.of_nat (length apps) <= switches + 1 /\
    (length contexts <= 10)%nat /\
    List.NoDup contexts /\ Forall (fun c => c <> "") contexts.

(** The world after one more UUID has been drawn. *)
Definition drawn (w : World) : World :=
  mkWorld (aiDecisionCache w) (ai_calls w) (S (uuid_draws w)) (suggestions w).

(** The identifiers of the sessions are the values drawn from [n0] on, in
    order, and the draws stand at [n0] plus the number of sessions. *)
Definition ids_in_order (env : Env) (n0 : nat) (ss : list ActivitySession) (w : World)
    : Prop :=
  map s_id ss = map (randomUUID env) (seq n0 (length ss)) /\
  uuid_draws w = (n0 + length ss)%nat.

(** Two consecutive events at the same place: at most five minutes apart, in
    the same application and, for a browser showing a URL in both, on the
    same domain. *)
Definition same_place (env : Env) (prev curr : Event) : Prop :=
  timestamp curr - timestamp prev <= MAX_SESSION_GAP * 1000 /\
  appName prev = appName curr /\
  (isBrowser (appName prev) && truthy_opt (url prev) && truthy_opt (url curr) = true ->
   extractDomain env (url prev) = extractDomain env (url curr)).

(** Two consecutive events more than five minutes apart. *)
Definition far_apart (prev curr : Event) : Prop :=
  MAX_SESSION_GAP * 1000 < timestamp curr - timestamp prev.

(** What the output shows of a session made of one event. *)
Definition alone (e : Event) : SessionType * Z * Z * option (list string) :=
  (Active, timestamp e, timestamp e + durationOr5 e * 1000, Some [appName e]).

Definition outline (s : ActivitySession) : SessionType * Z * Z * option (list string) :=
  (s_type s, s_start s, s_end s, s_apps s).

(** The category of the last row for an application name, a bundle
    identifier, a domain; the pattern rows in their order. *)
Definition app_row_category (allApps : list AppCategory) (name : string) : option string :=
  ac_category <$> last (List.filter (fun r => String.eqb (ac_appName r) name) allApps).

Definition bundle_row_category (allApps : list AppCategory) (b : string) : option string :=
  ac_category <$> last (List.filter (fun r => bool_decide (ac_bundleId r = Some b)) allApps).

Definition domain_row_category (allDomains : list DomainCategory) (d : string)
    : option string :=
  dc_category <$> last (List.filter (fun r => String.eqb (dc_domain r) d) allDomains).

Definition pattern_rows (allDomains : list DomainCategory) : list (string * string) :=
  flat_map
    (fun r => match dc_pattern r with
              | Some p => if truthy p then [(p, dc_category r)] else []
              | None => []
              end)
    allDomains.

Definition keep_truthy (o : option string) : option string :=
  match o with
  | Some c => if truthy c then Some c else None
  | None => None
  end.

(** The sum of a quantity over a list. *)
Definition sum_of {A : Type} (f : A -> Z) (l : list A) : Z :=
  foldr (fun a acc => f a + acc) 0 l.

(** The active sessions filed under a category by [computeCategoryBreakdown]. *)
Definition sessions_in (category : string) (ss : list ActivitySession)
    : list ActivitySession :=
  List.filter
    (fun s => bool_decide (s_type s = Active)
              && String.eqb (default "other" (s_category s)) category)
    ss.

(** The entry of a category, or zeros when the category has none. *)
Definition totals_of (b : gmap string CategoryTotals) (category : string) : CategoryTotals :=
  default (mkTotals 0 0) (b !! category).

(** The active sessions [computePatterns] counts as productive, and the
    productive time that started in a given hour of the day. *)
Definition productiveSessions (ss : list ActivitySession) : list ActivitySession :=
  List.filter (fun s => negb (bool_decide (s_category s = Some "distraction")))
    (activeSessions ss).

Definition hour_total (hour : Z) (ss : list ActivitySession) : Z :=
  sum_of s_duration
    (List.filter (fun s => utcHour (s_start s) =? hour) (productiveSessions ss)).

(** The sessions [computePatterns] reports as distraction blocks. *)
Definition is_distraction (s : ActivitySession) : bool :=
  bool_decide (s_type s = Active) && bool_decide (s_category s = Some "distraction").

(** The distraction blocks of a list, read from left to right with the
    session seen just before. *)
Fixpoint blocks_after (preceding : option ActivitySession)
    (ss : list ActivitySession) : list DistractionBlock :=
  match ss with
  | [] => []
  | s :: rest =>
      (if is_distraction s
       then [mkDistractionBlock (timeOfDay (s_start s)) (s_duration s)
               (triggerOf preceding)]
       else [])
      ++ blocks_after (Some s) rest
  end.

(** What a session of the aggregator says about categories: an active
    session has one of the valid categories; an idle session has none, and
    the category it records as preceding it, if any, is valid. *)
Definition names_valid (o : option string) : Prop :=
  exists c, o = Some c /\ In c VALID_CATEGORIES.

Definition session_shape (s : ActivitySession) : Prop :=
  match s_type s with
  | Active => names_valid (s_category s)
  | Idle =>
      s_category s = None /\
      (s_precedingCategory s = None \/ names_valid (s_precedingCategory s))
  end.

Definition trigger_ok (b : DistractionBlock) : Prop :=
  db_trigger b = "start of tracking" \/
  exists c, In c VALID_CATEGORIES /\ db_trigger b = "after " +:+ c.

Definition after_ok (p : IdlePeriod) : Prop :=
  ip_after p = "unknown activity" \/ In (ip_after p) VALID_CATEGORIES.

(** ** Fixtures for the concrete instances *)

Module Fixtures.

Definition uuidOfNat (n : nat) : string := "00000000-0000-4000-8000-" +:+ pretty n.

(** An environment without classifier, whose URL parser rejects everything. *)
Definition plainEnv (lk : option CategoryLookup) : Env :=
  mkEnv (fun _ => None) lk false (fun _ _ _ => None) uuidOfNat
    (fun _ _ => None) (fun _ _ => None) (fun _ _ => false) (fun _ => true).

(** The same, with a URL parser that knows one address. *)
Definition hostEnv (address host : string) (lk : option CategoryLookup) : Env :=
  mkEnv (fun u => if String.eqb u address then Some host else None)
    lk false (fun _ _ _ => None) uuidOfNat
    (fun _ _ => None) (fun _ _ => None) (fun _ _ => false) (fun _ => true).

(** An environment whose classifier is available and gives one answer to
    every question; [stored] tells which suggestion writes go through. *)
Definition classifierEnv (stored : nat -> bool) : Env :=
  mkEnv (fun _ => None) None true
    (fun _ _ _ => Some (mkAiReply true (Some 0.9%Q) (Some "same task")
                          (Some "development")))
    uuidOfNat (fun _ _ => None) (fun _ _ => None) (fun _ _ => false) stored.

Definition emptyWorld : World := mkWorld ∅ 0 0 [].

Definition activeAt (t : Z) (app : string) (d : Z) : Event :=
  mkEvent t app "inbox" None None None false (Some d).

Definition idleAt (t : Z) (d : Z) : Event :=
  mkEvent t "loginwindow" "" None None None true (Some d).

Definition devLookup : CategoryLookup :=
  mkLookup (<["Cursor" := "development"]> (<["Ghostty" := "development"]> ∅)) ∅ ∅ [].

(** The snapshot built from the single row
    [{domain: "github.com", pattern: "github.com|gitlab.com", category: "development"}]. *)
Definition wildLookup : CategoryLookup :=
  mkLookup ∅ ∅ {[ "github.com" := "development" ]}
    [("github.com|gitlab.com", "development")].

Definition browsing (t : Z) (address : string) : Event :=
  mkEvent t "Firefox" "Home" None None (Some address) false (Some 5).

Definition cachedWorld (key : string) (d : BoundaryDecision) : World :=
  mkWorld {[ key := d ]} 0 0 [].


End Fixtures.

(** The iterations of the loop over a list of events. *)
Inductive Steps (env : Env) : list Event -> LoopState -> LoopState -> Prop :=
  | Steps_nil st : Steps env [] st st
  | Steps_cons e rest st st1 st2 :
      open_ok st -> Step env e st st1 -> Steps env rest st1 st2 ->
      Steps env (e :: rest) st st2.

Definition initial : LoopState := mkLoop [] None.

(** ** The loop and its relational description *)

Section LoopFacts.

Variable env : Env.

Lemma finalizeSession_Some cur w :
  acc_events cur <> [] ->
  exists s w', finalizeSession env cur w = Some (s, w') /\ Finalized cur s.
Proof.
  intros Hne. unfold finalizeSession.
  destruct (head (acc_events cur)) as [f|] eqn:Hf.
  2: { apply head_None in Hf. contradiction. }
  destruct (last (acc_events cur)) as [l|] eqn:Hl.
  2: { apply last_None in Hl. contradiction. }
  unfold bindX, freshUUID, retX. eexists _, _. split; [reflexivity|].
  exists (randomUUID env (uuid_draws w)), f, l. auto.
Qed.

Lemma closeCurrent_spec st w :
  open_ok st ->
  exists ss w', closeCurrent env st w = Some (mkLoop ss None, w') /\ Closed st ss.
Proof.
  intros Hok. unfold closeCurrent.
  destruct st as [ss [cur|]]; simpl in *.
  - assert (Hne : acc_events cur <> []) by (apply Hok; reflexivity).
    destruct (acc_events cur) as [|e l] eqn:Hev; [contradiction|]. simpl.
    destruct (finalizeSession_Some cur w) as (s & w' & Hfin & HF);
      [rewrite Hev; discriminate|].
    unfold bindX. rewrite Hfin. unfold retX. eexists _, _. split; [reflexivity|].
    apply (Closed_some (mkLoop ss (Some cur)) cur s); auto.
  - unfold retX. eexists _, _. split; [reflexivity|].
    apply (Closed_none (mkLoop ss None)). reflexivity.
Qed.

Lemma step_sound e st w :
  open_ok st ->
  exists st' w', step env e st w = Some (st', w') /\ Step env e st st'.
Proof.
  intros Hok. unfold step. destruct (isIdle e) eqn:Hidle.
  - unfold idleEvent, bindX.
    destruct (closeCurrent_spec st w Hok) as (ss & w1 & Hclose & HC).
    rewrite Hclose. simpl.
    destruct (last ss) as [ls|] eqn:Hlast.
    + destruct (bool_decide (s_type ls = Idle)) eqn:Hty.
      * apply bool_decide_eq_true in Hty. unfold retX.
        eexists _, _. split; [reflexivity|].
        eapply Step_idle_extend; eauto.
      * apply bool_decide_eq_false in Hty. unfold freshUUID, retX.
        eexists _, _. split; [reflexivity|].
        replace (s_category ls) with (last ss ≫= s_category) by (rewrite Hlast; reflexivity).
        apply Step_idle_new; auto.
        intros ls' Hls'. rewrite Hlast in Hls'. injection Hls' as <-.
        destruct (s_type ls); congruence.
    + unfold freshUUID, retX. eexists _, _. split; [reflexivity|].
      replace (@None string) with (last ss ≫= s_category) by (rewrite Hlast; reflexivity).
      apply Step_idle_new; auto.
      intros ls' Hls'. rewrite Hlast in Hls'. discriminate.
  - unfold activeEvent. destruct (currentSession st) as [cur|] eqn:Hcur.
    + assert (Hne : acc_events cur <> []) by (apply Hok; assumption).
      destruct (last (acc_events cur)) as [prev|] eqn:Hlast.
      2: { apply last_None in Hlast. contradiction. }
      unfold bindX, liftX.
      destruct (shouldMergeEvents env prev e w) as [d w1].
      destruct (mergeAccepted d).
      * unfold retX. eexists _, _. split; [reflexivity|].
        eapply Step_merge; eauto.
      * destruct (finalizeSession_Some cur w1 Hne) as (s & w2 & Hfin & HF).
        rewrite Hfin. unfold retX. eexists _, _. split; [reflexivity|].
        eapply Step_split; eauto.
    + unfold retX. eexists _, _. split; [reflexivity|].
      apply Step_open; auto.
Qed.

Lemma Step_open_ok e st st' : Step env e st st' -> open_ok st'.
Proof.
  intros HS cur Hcur. destruct HS; simpl in Hcur; try discriminate;
    injection Hcur as <-; simpl; try discriminate.
  destruct (acc_events cur0); discriminate.
Qed.

Lemma loop_Steps evs : forall st w,
  open_ok st ->
  exists st' w', loop env evs st w = Some (st', w') /\ Steps env evs st st' /\ open_ok st'.
Proof.
  induction evs as [|e rest IH]; intros st w Hok; simpl.
  - unfold retX. eexists _, _. split; [reflexivity|]. split; [constructor|assumption].
  - destruct (step_sound e st w Hok) as (st1 & w1 & Hstep & HS).
    unfold bindX. rewrite Hstep.
    destruct (IH st1 w1 (Step_open_ok _ _ _ HS)) as (st2 & w2 & Hloop & HSs & Hok2).
    exists st2, w2. split; [assumption|]. split; [|assumption].
    econstructor; eauto.
Qed.

(** [aggregateToSessions] returns: no path of the loop reads a field of
    [undefined].  Its result is the array left by the iterations, with the
    open accumulator finalized. *)
Lemma aggregate_Steps evs w :
  exists ss w' st,
    aggregateToSessions env evs w = Some (ss, w') /\
    Steps env evs initial st /\ open_ok st /\ Closed st ss.
Proof.
  assert (Hinit : open_ok initial) by (intros cur H; discriminate).
  destruct evs as [|e rest].
  - exists [], w, initial. split; [reflexivity|]. split; [constructor|].
    split; [assumption|]. apply (Closed_none initial). reflexivity.
  - destruct (loop_Steps (e :: rest) initial w Hinit) as (st & w1 & Hloop & HSs & Hok).
    destruct (closeCurrent_spec st w1 Hok) as (ss & w2 & Hclose & HC).
    exists ss, w2, st. split; [|auto].
    unfold aggregateToSessions, bindX. fold initial. rewrite Hloop, Hclose. reflexivity.
Qed.

End LoopFacts.

(** ** Chains *)

Lemma chain_snoc {A} (R : A -> A -> Prop) (l : list A) (x : A) :
  chain R (l ++ [x]) <-> chain R l /\ (forall y, last l = Some y -> R y x).
Proof.
  induction l as [|a l IH]; simpl.
  - split; [intros _; split; [exact I|discriminate]|auto].
  - destruct l as [|b l]; simpl in *.
    + split.
      * intros [H _]. split; [exact I|]. intros y Hy. injection Hy as <-. exact H.
      * intros [_ H]. split; [apply H; reflexivity|exact I].
    + rewrite IH. split.
      * intros (H1 & H2 & H3). auto.
      * intros ((H1 & H2) & H3). auto.
Qed.

Lemma chain_map {A B} (f : A -> B) (R : B -> B -> Prop) (l : list A) :
  chain R (map f l) <-> chain (fun a b => R (f a) (f b)) l.
Proof.
  induction l as [|a l IH]; simpl; [tauto|].
  destruct l as [|b l]; simpl in *; [tauto|]. rewrite IH. tauto.
Qed.

Lemma chain_tail {A} (R : A -> A -> Prop) (a : A) (l : list A) :
  chain R (a :: l) -> chain R l.
Proof. simpl. destruct l; [auto|tauto]. Qed.

(** ** Time ranges of the sessions *)

Section Ranges.

Variable env : Env.

Lemma Closed_ranges st ss :
  Closed st ss -> map (fun s => (s_start s, s_end s)) ss = ranges st.
Proof.
  intros HC. destruct HC as [Hcur|cur s Hcur (id & f & l & Hf & Hl & ->)];
    unfold ranges; rewrite Hcur.
  - rewrite app_nil_r. reflexivity.
  - rewrite map_app. unfold open_range. rewrite Hf, Hl. reflexivity.
Qed.

Lemma Step_Grow e st st' :
  open_ok st -> Step env e st st' -> Grow e (ranges st) (ranges st').
Proof.
  intros Hok HS. destruct HS as
    [ss ls Hidle HC Hlast Hty | ss id Hidle HC Hact | Hidle Hcur
     | cur prev Hidle Hcur Hprev | cur s Hidle Hcur HF].
  - rewrite <- (Closed_ranges _ _ HC).
    apply last_Some in Hlast as [ss0 ->].
    rewrite removelast_last. unfold ranges; simpl.
    rewrite app_nil_r, !map_app. simpl.
    eapply Grow_last; [reflexivity|]. left. reflexivity.
  - rewrite <- (Closed_ranges _ _ HC). unfold ranges; simpl.
    rewrite app_nil_r, map_app. simpl. apply Grow_new.
  - unfold ranges. rewrite Hcur. simpl. rewrite app_nil_r. apply Grow_new.
  - unfold ranges. rewrite Hcur. simpl. unfold open_range; simpl.
    rewrite Hprev, last_snoc.
    destruct (acc_events cur) as [|f evs] eqn:Hev; [discriminate|]. simpl.
    eapply Grow_last; [reflexivity|]. right. reflexivity.
  - assert (HC : Closed st (sessions st ++ [s])) by (eapply Closed_some; eauto).
    rewrite <- (Closed_ranges _ _ HC). unfold ranges; simpl.
    rewrite (map_app _ (sessions st) [s]).
    unfold open_range; simpl. apply Grow_new.
Qed.

Lemma Grow_starts e I I' :
  Grow e I I' ->
  chain (fun a b : Z * Z => a.1 <= b.1) I ->
  (forall x, last I = Some x -> x.1 <= timestamp e) ->
  chain (fun a b : Z * Z => a.1 <= b.1) I' /\
  (forall x, last I' = Some x -> x.1 <= timestamp e).
Proof.
  intros HG Hch Hb. destruct HG as [|I0 s en x -> Hx].
  - split.
    + apply chain_snoc. split; [assumption|]. intros y Hy. simpl. auto.
    + intros x. rewrite last_snoc. intros [= <-]. simpl. lia.
  - apply chain_snoc in Hch as [Hch Hl]. split.
    + apply chain_snoc. split; [assumption|]. intros y Hy. apply (Hl y Hy).
    + intros y. rewrite last_snoc. intros [= <-]. simpl.
      apply (Hb (s, en)). apply last_snoc.
Qed.

Lemma Grow_disjoint e I I' hi :
  Grow e I I' ->
  chain (fun a b : Z * Z => a.2 <= b.1) I ->
  (forall x, last I = Some x -> x.2 <= timestamp e) ->
  timestamp e <= hi -> timestamp e + durationOr5 e * 1000 <= hi ->
  chain (fun a b : Z * Z => a.2 <= b.1) I' /\
  (forall x, last I' = Some x -> x.2 <= hi).
Proof.
  intros HG Hch Hb Hhi1 Hhi2. destruct HG as [|I0 s en x -> Hx].
  - split.
    + apply chain_snoc. split; [assumption|]. intros y Hy. simpl. auto.
    + intros x. rewrite last_snoc. intros [= <-]. simpl. lia.
  - apply chain_snoc in Hch as [Hch Hl]. split.
    + apply chain_snoc. split; [assumption|]. intros y Hy. apply (Hl y Hy).
    + intros y. rewrite last_snoc. intros [= <-]. simpl. lia.
Qed.

Lemma Steps_starts evs st st' :
  Steps env evs st st' ->
  events_sorted evs ->
  chain (fun a b : Z * Z => a.1 <= b.1) (ranges st) ->
  (forall x e, last (ranges st) = Some x -> head evs = Some e -> x.1 <= timestamp e) ->
  chain (fun a b : Z * Z => a.1 <= b.1) (ranges st').
Proof.
  induction 1 as [st|e rest st st1 st2 Hok HS HSs IH]; intros Hsorted Hch Hb.
  - assumption.
  - destruct (Grow_starts e _ _ (Step_Grow e st st1 Hok HS) Hch) as [Hch1 Hb1].
    { intros x Hx. apply (Hb x e Hx). reflexivity. }
    apply IH.
    + apply (chain_tail _ _ _ Hsorted).
    + assumption.
    + intros x e' Hx He'. destruct rest as [|e2 rest]; [discriminate|].
      injection He' as <-. destruct Hsorted as [Hle _].
      specialize (Hb1 x Hx). lia.
Qed.

Lemma Steps_disjoint evs st st' :
  Steps env evs st st' ->
  events_sorted evs -> events_disjoint evs ->
  chain (fun a b : Z * Z => a.2 <= b.1) (ranges st) ->
  (forall x e, last (ranges st) = Some x -> head evs = Some e -> x.2 <= timestamp e) ->
  chain (fun a b : Z * Z => a.2 <= b.1) (ranges st').
Proof.
  induction 1 as [st|e rest st st1 st2 Hok HS HSs IH]; intros Hsorted Hdis Hch Hb.
  - assumption.
  - destruct rest as [|e2 rest].
    + inversion HSs; subst.
      apply (Grow_disjoint e _ _
               (Z.max (timestamp e) (timestamp e + durationOr5 e * 1000))
               (Step_Grow e st st2 Hok HS) Hch); try lia.
      intros x Hx. apply (Hb x e Hx). reflexivity.
    + destruct Hsorted as [Hle Hsorted]. destruct Hdis as [Hd Hdis].
      destruct (Grow_disjoint e _ _ (timestamp e2)
                  (Step_Grow e st st1 Hok HS) Hch) as [Hch1 Hb1]; try lia.
      { intros x Hx. apply (Hb x e Hx). reflexivity. }
      apply IH; auto.
      intros x e' Hx [= <-]. apply (Hb1 x Hx).
Qed.

End Ranges.

(** ** Ordering of the sessions *)

(** C1, as amended.  For every input sorted ascending by timestamp,
    [aggregateToSessions] returns a list of sessions ordered by start time:
    each session starts no later than the next one.  Each session moreover
    ends no later than the next one starts whenever no input event lasts
    beyond the timestamp of the event that follows it. *)
Theorem sessions_time_ordered (env : Env) (evs : list Event) (w : World) :
  events_sorted evs ->
  exists ss w',
    aggregateToSessions env evs w = Some (ss, w') /\
    time_ordered ss /\
    (events_disjoint evs -> non_overlapping ss).
Proof.
  intros Hsorted.
  destruct (aggregate_Steps env evs w) as (ss & w' & st & Hagg & HSs & Hok & HC).
  exists ss, w'. split; [assumption|].
  pose proof (Closed_ranges st ss HC) as Hr. split.
  - unfold time_ordered.
    apply (chain_map (fun s => (s_start s, s_end s)) (fun a b : Z * Z => a.1 <= b.1)).
    rewrite Hr. apply (Steps_starts env evs initial st HSs Hsorted).
    + exact I.
    + intros x e Hx. discriminate.
  - intros Hdis. unfold non_overlapping.
    apply (chain_map (fun s => (s_start s, s_end s)) (fun a b : Z * Z => a.2 <= b.1)).
    rewrite Hr. apply (Steps_disjoint env evs initial st HSs Hsorted Hdis).
    + exact I.
    + intros x e Hx. discriminate.
Qed.

Lemma sessions_time_ordered_witness :
  exists ss w',
    aggregateToSessions (Fixtures.plainEnv None)
      [Fixtures.activeAt 0 "Mail" 5; Fixtures.idleAt 5000 5; Fixtures.idleAt 10000 5;
       Fixtures.activeAt 15000 "Spotify" 5]
      Fixtures.emptyWorld = Some (ss, w') /\
    time_ordered ss /\
    (events_disjoint
       [Fixtures.activeAt 0 "Mail" 5; Fixtures.idleAt 5000 5; Fixtures.idleAt 10000 5;
        Fixtures.activeAt 15000 "Spotify" 5] -> non_overlapping ss).
Proof.
  apply (sessions_time_ordered (Fixtures.plainEnv None)).
  unfold events_sorted, Fixtures.activeAt, Fixtures.idleAt. simpl. lia.
Defined.

(** C1 as stated fails: two active events two seconds apart, each lasting
    five seconds, in unrelated applications, give two sessions of which the
    first ends three seconds after the second starts. *)
Lemma sessions_overlap_counterexample :
  events_sorted [Fixtures.activeAt 0 "Mail" 5; Fixtures.activeAt 2000 "Spotify" 5] /\
  exists ss w',
    aggregateToSessions (Fixtures.plainEnv None)
      [Fixtures.activeAt 0 "Mail" 5; Fixtures.activeAt 2000 "Spotify" 5]
      Fixtures.emptyWorld = Some (ss, w') /\
    map (fun s => (s_start s, s_end s)) ss = [(0, 5000); (2000, 7000)] /\
    ~ non_overlapping ss.
Proof.
  split.
  - unfold events_sorted. simpl. lia.
  - eexists _, _. split; [vm_compute; reflexivity|]. split; [reflexivity|].
    unfold non_overlapping. simpl. lia.
Qed.

(** ** Properties kept session by session *)

Section SessionWise.

Variable env : Env.
Variable P : ActivitySession -> Prop.
Variable Q : Accumulator -> Prop.
Variable E : Event -> Prop.

Hypothesis P_final : forall cur s, Q cur -> Finalized cur s -> P s.
Hypothesis P_idle : forall id e pc, E e -> isIdle e = true -> P (newIdleSession id e pc).
Hypothesis P_extend : forall ls e,
  E e -> isIdle e = true -> P ls -> s_type ls = Idle -> P (extendIdle ls e).
Hypothesis Q_open : forall e, E e -> isIdle e = false -> Q (openSession env e).
Hypothesis Q_merge : forall cur prev e,
  E e -> isIdle e = false -> Q cur -> last (acc_events cur) = Some prev ->
  Q (mergeEvent env cur prev e).

Lemma Closed_Forall st ss :
  Forall P (sessions st) -> (forall cur, currentSession st = Some cur -> Q cur) ->
  Closed st ss -> Forall P ss.
Proof.
  intros HP HQ HC. destruct HC as [Hcur|cur s Hcur HF]; [assumption|].
  apply Forall_app. split; [assumption|]. constructor; [|constructor].
  eapply P_final; eauto.
Qed.

Lemma Step_sessionwise e st st' :
  E e -> Step env e st st' ->
  Forall P (sessions st) -> (forall cur, currentSession st = Some cur -> Q cur) ->
  Forall P (sessions st') /\ (forall cur, currentSession st' = Some cur -> Q cur).
Proof.
  intros HE HS HP HQ. destruct HS as
    [ss ls Hidle HC Hlast Hty | ss id Hidle HC Hact | Hidle Hcur
     | cur prev Hidle Hcur Hprev | cur s Hidle Hcur HF]; simpl.
  - pose proof (Closed_Forall st ss HP HQ HC) as Hss.
    apply last_Some in Hlast as [ss0 ->]. rewrite removelast_last.
    apply Forall_app in Hss as [Hss0 Hls]. inversion Hls; subst.
    split; [|discriminate]. apply Forall_app. split; [assumption|].
    constructor; [|constructor]. apply P_extend; auto.
  - pose proof (Closed_Forall st ss HP HQ HC) as Hss.
    split; [|discriminate]. apply Forall_app. split; [assumption|].
    constructor; [|constructor]. apply P_idle; auto.
  - split; [assumption|]. intros c [= <-]. apply Q_open; auto.
  - split; [assumption|]. intros c [= <-]. apply Q_merge; auto.
  - split.
    + apply Forall_app. split; [assumption|]. constructor; [|constructor].
      eapply P_final; eauto.
    + intros c [= <-]. apply Q_open; auto.
Qed.

Lemma Steps_sessionwise evs st st' :
  Steps env evs st st' -> Forall E evs ->
  Forall P (sessions st) -> (forall cur, currentSession st = Some cur -> Q cur) ->
  Forall P (sessions st') /\ (forall cur, currentSession st' = Some cur -> Q cur).
Proof.
  induction 1 as [st|e rest st st1 st2 Hok HS HSs IH]; intros HE HP HQ; [auto|].
  inversion HE; subst.
  destruct (Step_sessionwise e st st1) as [HP1 HQ1]; auto.
Qed.

Lemma aggregate_sessionwise evs w :
  Forall E evs ->
  exists ss w', aggregateToSessions env evs w = Some (ss, w') /\ Forall P ss.
Proof.
  intros HE.
  destruct (aggregate_Steps env evs w) as (ss & w' & st & Hagg & HSs & Hok & HC).
  exists ss, w'. split; [assumption|].
  destruct (Steps_sessionwise evs initial st HSs HE) as [HP HQ].
  - constructor.
  - intros cur H. discriminate.
  - eapply Closed_Forall; eauto.
Qed.

End SessionWise.

(** ** Categories of the sessions *)

Lemma in_list_In (s : string) (l : list string) : in_list s l = true -> In s l.
Proof.
  unfold in_list. intros H. apply existsb_exists in H as (x & Hx & Heq).
  apply String.eqb_eq in Heq. subst. assumption.
Qed.

Lemma In_in_list (s : string) (l : list string) : In s l -> in_list s l = true.
Proof.
  intros H. unfold in_list. apply existsb_exists. exists s. split; [assumption|].
  apply String.eqb_refl.
Qed.

Lemma toActivityCategory_valid (cat : option string) :
  In (toActivityCategory cat) VALID_CATEGORIES.
Proof.
  unfold toActivityCategory. destruct cat as [c|].
  - destruct (truthy c && in_list c VALID_CATEGORIES) eqn:H.
    + apply andb_true_iff in H as [_ H]. apply in_list_In. assumption.
    + simpl. tauto.
  - simpl. tauto.
Qed.

Lemma toActivityCategory_unrecognized (c : string) :
  ~ In c VALID_CATEGORIES -> toActivityCategory (Some c) = "other".
Proof.
  intros Hnot. unfold toActivityCategory.
  destruct (in_list c VALID_CATEGORIES) eqn:H.
  - exfalso. apply Hnot. apply in_list_In. assumption.
  - rewrite andb_false_r. reflexivity.
Qed.

(** C10.  For every input event sequence, [aggregateToSessions] returns, and
    every active session of the output carries a category of the closed set
    of six: the image under [toActivityCategory] of the session's category
    resolution, which sends a null and an unrecognized resolution to "other".
    An idle session carries no category, application list, context list or
    switch count, only the optional [precedingCategory]. *)
Theorem active_sessions_categorised (env : Env) (evs : list Event) (w : World) :
  (exists ss w',
     aggregateToSessions env evs w = Some (ss, w') /\
     Forall (category_ok env evs) ss) /\
  length VALID_CATEGORIES = 6%nat /\
  (forall cat, In (toActivityCategory cat) VALID_CATEGORIES) /\
  toActivityCategory None = "other" /\
  (forall c, ~ In c VALID_CATEGORIES -> toActivityCategory (Some c) = "other").
Proof.
  split; [|split; [reflexivity|split; [exact toActivityCategory_valid|
           split; [reflexivity|exact toActivityCategory_unrecognized]]]].
  apply (aggregate_sessionwise env (category_ok env evs)
           (fun cur => acc_category cur = None \/
                       exists e, In e evs /\ acc_category cur = getCategoryForEvent env e)
           (fun e => In e evs)).
  - intros cur s HQ (id & f & l & Hf & Hl & ->). unfold category_ok; simpl.
    exists (acc_category cur). split; [assumption|]. split; [reflexivity|].
    apply toActivityCategory_valid.
  - intros id e pc _ _. unfold category_ok; simpl. auto.
  - intros ls e _ _ HP Hty. unfold category_ok in *. simpl. rewrite Hty in *. exact HP.
  - intros e HE _. right. exists e. split; [assumption|reflexivity].
  - intros cur prev e HE _ HQ _. simpl.
    destruct (truthy_opt (acc_category cur)); [assumption|].
    right. exists e. split; [assumption|reflexivity].
  - apply List.Forall_forall. auto.
Qed.

(** ** Durations of the sessions *)

Lemma round_div_exact (k : Z) : round_div (1000 * k) 1000 = k.
Proof.
  unfold round_div. symmetry. apply (Z.div_unique _ _ k 1000); lia.
Qed.

Lemma sum_durations_snoc (run : list Event) (e : Event) :
  sum_durations (run ++ [e]) = sum_durations run + durationOr5 e.
Proof.
  unfold sum_durations. induction run as [|a run IH]; simpl; [lia|].
  rewrite IH. lia.
Qed.

Lemma nearest_second_round (ms : Z) : nearest_second ms (round_div ms 1000).
Proof.
  unfold nearest_second, round_div.
  pose proof (Z.div_mod (2 * ms + 1000) (2 * 1000) ltac:(lia)) as Hdiv.
  pose proof (Z.mod_pos_bound (2 * ms + 1000) (2 * 1000) ltac:(lia)) as Hmod.
  lia.
Qed.

Lemma seconds_total_snoc (run : list Event) (e : Event) :
  seconds_total (run ++ [e]) = seconds_total run + seconds_of e.
Proof. unfold seconds_total. induction run as [|a run IH]; simpl; lia. Qed.

Lemma Finalized_built (cur : Accumulator) (s : ActivitySession) :
  Finalized cur s ->
  Forall (fun e => isIdle e = false) (acc_events cur) ->
  built_from s (acc_events cur).
Proof.
  intros HF Hact. pose proof HF as (id & f & l & Hf & Hl & ->).
  unfold built_from. simpl. exists f, l.
  split; [assumption|]. split; [assumption|]. split; [assumption|].
  split; [exists cur; auto|]. split; [reflexivity|]. split; [reflexivity|].
  split; [apply nearest_second_round|].
  intros k Hk. unfold durationOr5 in Hk. unfold durationOr5. rewrite Hk.
  apply round_div_exact.
Qed.

Lemma Closed_grouped (seen : list Event) (st : LoopState) (ss : list ActivitySession) :
  Grouped seen st -> Closed st ss ->
  exists groups, Forall2 built_from ss groups /\ concat groups = seen.
Proof.
  intros (groups & Hall & Hcat & Hact) HC. unfold pending_events in *.
  destruct HC as [Hcur|cur s Hcur HF].
  - rewrite Hcur in Hcat. rewrite app_nil_r in Hcat. exists groups. auto.
  - rewrite Hcur in Hcat, Hact. exists (groups ++ [acc_events cur]). split.
    + apply Forall2_app; [assumption|]. constructor; [|constructor].
      apply Finalized_built; assumption.
    + rewrite concat_app. simpl. rewrite app_nil_r. assumption.
Qed.

Lemma built_from_extend (ls : ActivitySession) (run : list Event) (e : Event) :
  s_type ls = Idle -> isIdle e = true -> built_from ls run ->
  built_from (extendIdle ls e) (run ++ [e]).
Proof.
  unfold built_from. simpl. intros Hty Hidle. rewrite Hty.
  intros (f & Hf & Hrun & Hstart & Hdur & _). exists f.
  destruct run as [|a run]; [discriminate|].
  split; [assumption|]. split.
  { apply Forall_app. split; [assumption|]. constructor; [assumption|constructor]. }
  split; [assumption|]. split.
  { rewrite seconds_total_snoc, Hdur. reflexivity. }
  intros Hlen. rewrite length_app in Hlen. simpl in Hlen. lia.
Qed.

Lemma built_from_idle (id : string) (e : Event) (pc : option string) :
  isIdle e = true -> built_from (newIdleSession id e pc) [e].
Proof.
  intros Hidle. unfold built_from. simpl. exists e.
  split; [reflexivity|]. split; [constructor; [assumption|constructor]|].
  split; [reflexivity|]. split.
  { unfold seconds_total, seconds_of, durationOr5. simpl.
    destruct (duration e); simpl; lia. }
  intros _. lia.
Qed.

Lemma Step_grouped (env : Env) (e : Event) (st st' : LoopState) (seen : list Event) :
  Step env e st st' -> Grouped seen st -> Grouped (seen ++ [e]) st'.
Proof.
  intros HS HG.
  destruct HS as [ss ls Hidle HC Hlast Hty|ss id Hidle HC Hact|Hidle Hcur
                 |cur prev Hidle Hcur Hprev|cur s Hidle Hcur HF].
  - destruct (Closed_grouped seen st ss HG HC) as (groups & Hall & Hcat).
    apply last_Some in Hlast as [ss0 ->]. rewrite removelast_last.
    apply Forall2_app_inv_l in Hall as (gs0 & gs1 & Hall0 & Hall1 & ->).
    inversion Hall1 as [|? run ? ? Hbuilt Hnil]; subst. inversion Hnil; subst.
    exists (gs0 ++ [run ++ [e]]). simpl. split; [|split].
    + apply Forall2_app; [assumption|]. constructor; [|constructor].
      apply built_from_extend; assumption.
    + rewrite app_nil_r, !concat_app. simpl. rewrite !app_nil_r.
      rewrite app_assoc. reflexivity.
    + constructor.
  - destruct (Closed_grouped seen st ss HG HC) as (groups & Hall & Hcat).
    exists (groups ++ [[e]]). simpl. split; [|split].
    + apply Forall2_app; [assumption|]. constructor; [|constructor].
      apply built_from_idle. assumption.
    + rewrite app_nil_r, concat_app. simpl. rewrite Hcat. reflexivity.
    + constructor.
  - destruct HG as (groups & Hall & Hcat & _). unfold pending_events in Hcat.
    rewrite Hcur, app_nil_r in Hcat.
    exists groups. unfold pending_events. simpl. split; [assumption|].
    split; [rewrite Hcat; reflexivity|]. constructor; [assumption|constructor].
  - destruct HG as (groups & Hall & Hcat & Hact). unfold pending_events in *.
    rewrite Hcur in Hcat, Hact.
    exists groups. unfold pending_events. simpl. split; [assumption|]. split.
    + rewrite app_assoc, Hcat. reflexivity.
    + apply Forall_app. split; [assumption|]. constructor; [assumption|constructor].
  - destruct HG as (groups & Hall & Hcat & Hact). unfold pending_events in *.
    rewrite Hcur in Hcat, Hact.
    exists (groups ++ [acc_events cur]). unfold pending_events. simpl. split; [|split].
    + apply Forall2_app; [assumption|]. constructor; [|constructor].
      apply Finalized_built; assumption.
    + rewrite concat_app. simpl. rewrite app_nil_r, Hcat. reflexivity.
    + constructor; [assumption|constructor].
Qed.

Lemma Steps_grouped (env : Env) (evs : list Event) (st st' : LoopState) :
  Steps env evs st st' ->
  forall seen, Grouped seen st -> Grouped (seen ++ evs) st'.
Proof.
  induction 1 as [st|e rest st st1 st2 Hok HS HSs IH]; intros seen HG.
  - rewrite app_nil_r. assumption.
  - replace (seen ++ e :: rest) with ((seen ++ [e]) ++ rest)
      by (rewrite <- app_assoc; reflexivity).
    apply IH. eapply Step_grouped; eauto.
Qed.

Lemma built_from_starts (s : ActivitySession) (members : list Event) :
  built_from s members -> starts_with s members.
Proof.
  unfold built_from, starts_with. destruct (s_type s).
  - intros (f & l & Hf & _ & _ & _ & Hstart & _). exists f. auto.
  - intros (f & Hf & _ & Hstart & _). exists f. auto.
Qed.

Lemma repeated_timestamp (a b c : list Event) (x y : Event) :
  timestamp x = timestamp y ->
  ~ List.NoDup (map timestamp (a ++ x :: b ++ y :: c)).
Proof.
  intros Hxy Hnd. rewrite map_app in Hnd. apply List.NoDup_app_remove_l in Hnd.
  simpl in Hnd. inversion Hnd as [|? ? Hnot _]; subst. apply Hnot.
  rewrite map_app. apply in_or_app. right. left. symmetry. exact Hxy.
Qed.

Lemma starts_with_concat (s : ActivitySession) (ss : list ActivitySession)
    (g : list Event) (gs : list (list Event)) :
  starts_with s g -> exists f rest, concat (g :: gs) = f :: rest /\ s_start s = timestamp f.
Proof.
  intros (f & Hf & Hstart). destruct g as [|f' g]; [discriminate|].
  injection Hf as ->. exists f, (g ++ concat gs). auto.
Qed.

Lemma overlong_group (ss : list ActivitySession) (gs gs' : list (list Event))
    (g : list Event) (x : Event) (l : list Event) :
  Forall2 starts_with ss gs -> Forall2 starts_with ss gs' ->
  concat gs' = (x :: l) ++ concat gs ->
  ~ List.NoDup (map timestamp (g ++ (x :: l) ++ concat gs)).
Proof.
  intros H1 H2 Hcat.
  destruct H2 as [|s2 g2' ss2 gs2' Hg2' Hrest']; [discriminate|].
  inversion H1 as [|? g2 ? gs2 Hg2 Hrest]; subst.
  destruct (starts_with_concat s2 ss2 g2' gs2' Hg2') as (f' & r' & Hc' & Hs').
  destruct (starts_with_concat s2 ss2 g2 gs2 Hg2) as (f & r & Hc & Hs).
  rewrite Hc' in Hcat. rewrite Hc. injection Hcat as <- _.
  simpl. apply repeated_timestamp. congruence.
Qed.

Lemma groups_determined (ss : list ActivitySession) :
  forall gs gs',
    Forall2 starts_with ss gs -> Forall2 starts_with ss gs' ->
    concat gs = concat gs' ->
    List.NoDup (map timestamp (concat gs)) ->
    gs = gs'.
Proof.
  induction ss as [|s ss IH]; intros gs gs' H1 H2 Hcat Hnd.
  - inversion H1; inversion H2; reflexivity.
  - inversion H1 as [|? g ? gs1 Hg Hgs1]; subst.
    inversion H2 as [|? g' ? gs1' Hg' Hgs1']; subst.
    simpl in Hcat, Hnd.
    assert (Heq : g = g').
    { apply app_eq_app in Hcat as [l [[Hl HX] | [Hl HX]]].
      - destruct l as [|x l]; [rewrite app_nil_r in Hl; assumption|].
        exfalso. subst g. rewrite <- app_assoc in Hnd.
        exact (overlong_group ss gs1 gs1' g' x l Hgs1 Hgs1' HX Hnd).
      - destruct l as [|x l]; [rewrite app_nil_r in Hl; auto|].
        exfalso. rewrite HX in Hnd.
        exact (overlong_group ss gs1' gs1 g x l Hgs1' Hgs1 HX Hnd). }
    subst g'. apply app_inv_head in Hcat. f_equal.
    apply IH; [assumption|assumption|assumption|].
    rewrite map_app in Hnd. apply List.NoDup_app_remove_l in Hnd. assumption.
Qed.

(** C3, as amended.  For every input, [aggregateToSessions] returns, and the
    input splits, in order, into one group of consecutive events for each
    session of the output, the events the session holds.  An active session
    is what [finalizeSession] makes of the accumulator holding its group: it
    starts at the timestamp of the first event of the group, its end is the
    last member event's timestamp plus that event's duration (5 seconds
    where absent), and its duration is end minus start in seconds rounded to
    the nearest integer, hence that difference itself when it is a whole
    number of seconds.  The duration of an idle session is the sum of the
    durations of the idle events of its group; it equals end minus start
    when the group is a single event.  When no two events share a timestamp
    the groups are determined by the output: no other split of the input
    into consecutive groups begins each group at the start of its session. *)
Theorem session_durations (env : Env) (evs : list Event) (w : World) :
  exists ss w' groups,
    aggregateToSessions env evs w = Some (ss, w') /\
    concat groups = evs /\
    Forall2 built_from ss groups /\
    (List.NoDup (map timestamp evs) ->
     forall groups', concat groups' = evs -> Forall2 starts_with ss groups' ->
                     groups' = groups).
Proof.
  destruct (aggregate_Steps env evs w) as (ss & w' & st & Hagg & HSs & Hok & HC).
  assert (Hinit : Grouped [] initial).
  { exists []. split; [constructor|]. split; [reflexivity|constructor]. }
  pose proof (Steps_grouped env evs initial st HSs [] Hinit) as HG.
  destruct (Closed_grouped _ st ss HG HC) as (groups & Hall & Hcat).
  exists ss, w', groups. split; [assumption|]. split; [assumption|].
  split; [assumption|].
  intros Hnd groups' Hcat' Hall'. simpl in Hcat.
  apply (groups_determined ss); [assumption| | |].
  - eapply Forall2_impl; [exact Hall|]. apply built_from_starts.
  - congruence.
  - rewrite Hcat'. assumption.
Qed.

(** C3 as stated fails on idle sessions: two idle events a minute apart,
    five seconds each, are coalesced into one session that starts at 0 and
    has duration 10, the sum of the two durations.  That is neither its end
    minus its start (60 s) nor the time from its start to the end of its
    last event (65 s). *)
Lemma idle_duration_counterexample :
  exists ss w',
    aggregateToSessions (Fixtures.plainEnv None)
      [Fixtures.idleAt 0 5; Fixtures.idleAt 60000 5] Fixtures.emptyWorld = Some (ss, w') /\
    map (fun s => (s_type s, timing s)) ss = [(Idle, (0, 60000, 10))] /\
    ~ Forall (fun s => 1000 * s_duration s = s_end s - s_start s) ss /\
    ~ Forall (fun s => 1000 * s_duration s = 60000 + 5 * 1000 - s_start s) ss.
Proof.
  eexists _, _. split; [vm_compute; reflexivity|]. split; [reflexivity|].
  split; intros H; inversion H as [|s l Hs Hl]; subst; simpl in Hs; lia.
Qed.

(** ** Idle runs *)

Lemma idle_runs_from_concat (evs : list Event) : forall run,
  concat (idle_runs_from run evs) = run ++ List.filter isIdle evs.
Proof.
  induction evs as [|e rest IH]; intros run; simpl.
  - destruct run; simpl; [reflexivity|]. rewrite !app_nil_r. reflexivity.
  - destruct (isIdle e).
    + rewrite IH, <- app_assoc. reflexivity.
    + rewrite concat_app, IH. destruct run; simpl; [reflexivity|].
      rewrite !app_nil_r. reflexivity.
Qed.

Example idle_runs_sample :
  idle_runs [Fixtures.activeAt 0 "Mail" 5; Fixtures.idleAt 5000 5; Fixtures.idleAt 10000 7;
             Fixtures.activeAt 17000 "Mail" 5; Fixtures.idleAt 22000 5]
  = [[Fixtures.idleAt 5000 5; Fixtures.idleAt 10000 7]; [Fixtures.idleAt 22000 5]].
Proof. reflexivity. Qed.

(** The runs are made of the idle events of the input, in order. *)
Lemma idle_runs_concat (evs : list Event) :
  concat (idle_runs evs) = List.filter isIdle evs.
Proof. apply (idle_runs_from_concat evs []). Qed.

Lemma idle_runs_from_nonempty (evs : list Event) : forall run,
  Forall (fun r => r <> []) (idle_runs_from run evs).
Proof.
  induction evs as [|e rest IH]; intros run; simpl.
  - destruct run; simpl; [constructor|]. constructor; [discriminate|constructor].
  - destruct (isIdle e); [apply IH|].
    apply Forall_app. split; [|apply IH].
    destruct run; simpl; [constructor|]. constructor; [discriminate|constructor].
Qed.

Lemma idle_timings_app (a b : list ActivitySession) :
  idle_timings (a ++ b) = idle_timings a ++ idle_timings b.
Proof. unfold idle_timings. rewrite List.filter_app, map_app. reflexivity. Qed.

Lemma Closed_idle_timings st ss :
  Closed st ss -> idle_timings ss = idle_timings (sessions st).
Proof.
  intros HC. destruct HC as [Hcur|cur s Hcur (id & f & l & Hf & Hl & ->)]; [reflexivity|].
  rewrite idle_timings_app. unfold idle_timings at 2. simpl. apply app_nil_r.
Qed.

Lemma Closed_last_idle st ss ls :
  Closed st ss -> last ss = Some ls -> s_type ls = Idle ->
  currentSession st = None /\ ss = sessions st.
Proof.
  intros HC Hlast Hty. destruct HC as [Hcur|cur s Hcur (id & f & l & Hf & Hl & ->)];
    [auto|].
  rewrite last_snoc in Hlast. injection Hlast as <-. discriminate.
Qed.

Lemma run_timing_snoc (run : list Event) (e : Event) (s : ActivitySession) :
  run <> [] -> timing s = run_timing run ->
  timing (extendIdle s e) = run_timing (run ++ [e]).
Proof.
  intros Hne Ht. destruct run as [|a r]; [contradiction|].
  unfold timing in *. simpl in *. rewrite last_snoc.
  injection Ht as Hs He Hd. rewrite Hs, Hd.
  fold (sum_durations r). fold (sum_durations (r ++ [e])).
  rewrite sum_durations_snoc. f_equal. lia.
Qed.

Section IdleRuns.

Variable env : Env.

Lemma Step_idle_pending e st st1 run closed :
  isIdle e = true -> Step env e st st1 -> Pending run st closed ->
  Pending (run ++ [e]) st1 closed.
Proof.
  intros Hidle HS HP. right.
  destruct HS as
    [ss ls _ HC Hlast Hty | ss id _ HC Hact | Hidle' Hcur
     | cur prev Hidle' Hcur Hprev | cur s Hidle' Hcur HF]; try congruence; simpl.
  - destruct (Closed_last_idle st ss ls HC Hlast Hty) as [Hcur ->].
    destruct HP as [(-> & Hclosed & Hempty) | (Hne & _ & ss0 & s & Hss & Hs & Ht & Hclosed)].
    + rewrite (Hempty Hcur) in Hlast. discriminate.
    + rewrite Hss in Hlast. rewrite last_snoc in Hlast. injection Hlast as <-.
      split; [destruct run; discriminate|]. split; [reflexivity|].
      exists ss0, (extendIdle s e). rewrite Hss, removelast_last.
      repeat split; auto. apply run_timing_snoc; assumption.
  - destruct HP as [(-> & Hclosed & Hempty) | (Hne & Hcur & ss0 & s & Hss & Hs & Ht & Hclosed)].
    + split; [discriminate|]. split; [reflexivity|].
      exists ss, (newIdleSession id e (last ss ≫= s_category)).
      repeat split.
      * unfold timing, sum_durations. simpl. f_equal. lia.
      * rewrite Hclosed. symmetry. apply Closed_idle_timings. assumption.
    + exfalso. inversion HC as [Hc Heq|cur s' Hc HF Heq]; [|congruence].
      specialize (Hact s). rewrite <- Heq, Hss, last_snoc in Hact.
      specialize (Hact eq_refl). congruence.
Qed.

Lemma Step_active_pending e st st1 run closed :
  isIdle e = false -> Step env e st st1 -> Pending run st closed ->
  Pending [] st1 (closed ++ map run_timing (close_run run)).
Proof.
  intros Hidle HS HP. left. split; [reflexivity|].
  destruct HS as
    [ss ls Hidle' HC Hlast Hty | ss id Hidle' HC Hact | _ Hcur
     | cur prev _ Hcur Hprev | cur s _ Hcur HF]; try congruence; simpl.
  - split; [|discriminate].
    destruct HP as [(-> & Hclosed & Hempty) | (Hne & _ & ss0 & s & Hss & Hs & Ht & Hclosed)].
    + simpl. rewrite app_nil_r. assumption.
    + destruct run as [|a r]; [contradiction|]. simpl.
      rewrite Hss, idle_timings_app, Hclosed. f_equal.
      unfold idle_timings. simpl. unfold is_idle_session.
      rewrite bool_decide_eq_true_2 by assumption. simpl. rewrite Ht. reflexivity.
  - split; [|discriminate].
    destruct HP as [(-> & Hclosed & Hempty) | (Hne & Hcur' & _)]; [|congruence].
    simpl. rewrite app_nil_r. assumption.
  - split; [|discriminate].
    destruct HP as [(-> & Hclosed & Hempty) | (Hne & Hcur' & _)]; [|congruence].
    simpl. rewrite app_nil_r, Hclosed. symmetry.
    apply (Closed_idle_timings st). eapply Closed_some; eauto.
Qed.

Lemma Steps_idle_runs evs st st' :
  Steps env evs st st' ->
  forall run closed, Pending run st closed ->
  idle_timings (sessions st') = closed ++ map run_timing (idle_runs_from run evs).
Proof.
  induction 1 as [st|e rest st st1 st2 Hok HS HSs IH]; intros run closed HP; simpl.
  - destruct HP as [(-> & Hclosed & Hempty) | (Hne & _ & ss0 & s & Hss & Hs & Ht & Hclosed)].
    + simpl. rewrite app_nil_r. auto.
    + destruct run as [|a r]; [contradiction|]. simpl.
      rewrite Hss, idle_timings_app, Hclosed. f_equal.
      unfold idle_timings. simpl. unfold is_idle_session.
      rewrite bool_decide_eq_true_2 by assumption. simpl. rewrite Ht. reflexivity.
  - destruct (isIdle e) eqn:Hidle.
    + apply IH. eapply Step_idle_pending; eauto.
    + rewrite map_app, app_assoc. apply IH. eapply Step_active_pending; eauto.
Qed.

End IdleRuns.

Lemma seconds_total_sum (run : list Event) : seconds_total run = sum_durations run.
Proof.
  unfold seconds_total, sum_durations.
  induction run as [|e run IH]; simpl; [reflexivity|].
  rewrite IH. unfold seconds_of, durationOr5. destruct (duration e); reflexivity.
Qed.

Lemma run_session_timing (run : list Event) : run_session run = run_timing run.
Proof.
  destruct run as [|e rest]; [reflexivity|].
  unfold run_session, run_timing. rewrite seconds_total_sum. reflexivity.
Qed.

(** C4, on the code.  For every input, [aggregateToSessions] returns, and
    the idle sessions of its output are, in order, one for each maximal run
    of consecutive idle events of the input: the session starts at the run's
    first event and its duration is the sum of the run's event durations,
    each 5 seconds when absent.  The session does not cover its run.  The
    branch that creates an idle session ends it where its event ends, but
    the branch that extends it sets the end to the timestamp of the added
    event: the run of an idle event at 0 s lasting 5 s and one at 5 s
    without duration gives one session from 0 s to 5 s with duration 10,
    and the second event, which lasts until 10 s, lies outside it. *)
Theorem idle_runs_coalesced (env : Env) :
  (forall evs w, exists ss w',
      aggregateToSessions env evs w = Some (ss, w') /\
      map timing (List.filter is_idle_session ss) = map run_session (idle_runs evs)) /\
  (let run := [mkEvent 0 "loginwindow" "" None None None true (Some 5);
               mkEvent 5000 "loginwindow" "" None None None true None] in
   exists s w',
     idle_runs run = [run] /\
     aggregateToSessions (Fixtures.plainEnv None) run Fixtures.emptyWorld
     = Some ([s], w') /\
     s_type s = Idle /\ timing s = (0, 5000, 10) /\
     ~ spans s run).
Proof.
  split.
  - intros evs w.
    destruct (aggregate_Steps env evs w) as (ss & w' & st & Hagg & HSs & Hok & HC).
    exists ss, w'. split; [assumption|].
    change (idle_timings ss = map run_session (idle_runs evs)).
    rewrite (Closed_idle_timings st ss HC).
    rewrite (Steps_idle_runs env evs initial st HSs [] []); [|left; auto].
    simpl. apply map_ext. intros run. symmetry. apply run_session_timing.
  - eexists _, _. split; [reflexivity|]. split; [vm_compute; reflexivity|].
    split; [reflexivity|]. split; [reflexivity|].
    unfold spans. intros H. inversion H as [|e1 l1 _ H1]; subst.
    inversion H1 as [|e2 l2 [_ H2] _]; subst.
    vm_compute in H2. apply H2. reflexivity.
Qed.

(** ** The merge threshold *)

(** C5.  In the loop body, an active event arriving while a session is open
    joins that session if and only if the decision of [shouldMergeEvents] on
    the session's last event and the event has [shouldMerge] true and a
    confidence of at least 0.7.  A merge-recommending decision of confidence
    0.70 merges; a decision of confidence 0.69999 does not. *)
Theorem merge_iff_threshold (env : Env) (before : list ActivitySession)
    (cur : Accumulator) (prevEvent event : Event) (w : World) :
  isIdle event = false ->
  last (acc_events cur) = Some prevEvent ->
  exists st' w',
    step env event (mkLoop before (Some cur)) w = Some (st', w') /\
    let decision := (shouldMergeEvents env prevEvent event w).1 in
    (merged_into before cur event st' <->
       shouldMerge decision = true /\ (0.7 <= confidence decision)%Q) /\
    (shouldMerge decision = true -> (confidence decision == 0.70)%Q ->
       merged_into before cur event st') /\
    ((confidence decision == 0.69999)%Q -> ~ merged_into before cur event st').
Proof.
  intros Hidle Hlast.
  assert (Hne : acc_events cur <> []).
  { intros H. rewrite H in Hlast. discriminate. }
  unfold step, activeEvent. rewrite Hidle. simpl. rewrite Hlast.
  unfold bindX, liftX.
  destruct (shouldMergeEvents env prevEvent event w) as [d w1] eqn:Hd. simpl.
  unfold mergeAccepted, MERGE_CONFIDENCE.
  destruct (shouldMerge d) eqn:Hsm; simpl.
  - destruct (Qle_bool 0.7 (confidence d)) eqn:Hq.
    + apply Qle_bool_iff in Hq. unfold retX.
      assert (Hm : merged_into before cur event
                     (mkLoop before (Some (mergeEvent env cur prevEvent event)))).
      { split; [reflexivity|]. eexists. split; reflexivity. }
      eexists _, _. split; [reflexivity|]. split; [|split].
      * split; auto.
      * auto.
      * intros Heq. exfalso. rewrite Heq in Hq. revert Hq. apply Qlt_not_le. reflexivity.
    + assert (Hnq : ~ (0.7 <= confidence d)%Q).
      { intros H. apply Qle_bool_iff in H. congruence. }
      destruct (finalizeSession_Some env cur w1 Hne) as (s & w2 & Hfin & HF).
      rewrite Hfin. unfold retX.
      assert (Hm : ~ merged_into before cur event
                     (mkLoop (before ++ [s]) (Some (openSession env event)))).
      { intros [Hs _]. simpl in Hs. apply (f_equal length) in Hs.
        rewrite length_app in Hs. simpl in Hs. lia. }
      eexists _, _. split; [reflexivity|]. split; [|split].
      * split; [intros H; contradiction|intros [_ H]; contradiction].
      * intros _ Heq. exfalso. apply Hnq. rewrite Heq. discriminate.
      * auto.
  - destruct (finalizeSession_Some env cur w1 Hne) as (s & w2 & Hfin & HF).
    rewrite Hfin. unfold retX.
    assert (Hm : ~ merged_into before cur event
                   (mkLoop (before ++ [s]) (Some (openSession env event)))).
    { intros [Hs _]. simpl in Hs. apply (f_equal length) in Hs.
      rewrite length_app in Hs. simpl in Hs. lia. }
    eexists _, _. split; [reflexivity|]. split; [|split].
    + split; [intros H; contradiction|intros [H _]; discriminate].
    + intros H; discriminate.
    + auto.
Qed.

Lemma merge_iff_threshold_witness :
  exists st' w',
    step (Fixtures.plainEnv None) (Fixtures.activeAt 2000 "Spotify" 5)
      (mkLoop [] (Some (openSession (Fixtures.plainEnv None) (Fixtures.activeAt 0 "Mail" 5))))
      (Fixtures.cachedWorld "Mail|Spotify" (mkDecision true 0.7 "cached" None))
    = Some (st', w') /\
    let decision :=
      (shouldMergeEvents (Fixtures.plainEnv None) (Fixtures.activeAt 0 "Mail" 5)
         (Fixtures.activeAt 2000 "Spotify" 5)
         (Fixtures.cachedWorld "Mail|Spotify" (mkDecision true 0.7 "cached" None))).1 in
    (merged_into [] (openSession (Fixtures.plainEnv None) (Fixtures.activeAt 0 "Mail" 5))
       (Fixtures.activeAt 2000 "Spotify" 5) st' <->
       shouldMerge decision = true /\ (0.7 <= confidence decision)%Q) /\
    (shouldMerge decision = true -> (confidence decision == 0.70)%Q ->
       merged_into [] (openSession (Fixtures.plainEnv None) (Fixtures.activeAt 0 "Mail" 5))
         (Fixtures.activeAt 2000 "Spotify" 5) st') /\
    ((confidence decision == 0.69999)%Q ->
       ~ merged_into [] (openSession (Fixtures.plainEnv None) (Fixtures.activeAt 0 "Mail" 5))
           (Fixtures.activeAt 2000 "Spotify" 5) st').
Proof.
  apply (merge_iff_threshold (Fixtures.plainEnv None) []
           (openSession (Fixtures.plainEnv None) (Fixtures.activeAt 0 "Mail" 5))
           (Fixtures.activeAt 0 "Mail" 5)); reflexivity.
Defined.

(** A cached decision of confidence 0.70 merges the two events into one
    session; the same decision with confidence 0.69999 splits them. *)
Lemma threshold_boundary_runs :
  (aggregateToSessions (Fixtures.plainEnv None)
     [Fixtures.activeAt 0 "Mail" 5; Fixtures.activeAt 2000 "Spotify" 5]
     (Fixtures.cachedWorld "Mail|Spotify" (mkDecision true 0.70 "cached" None))
   ≫= fun r => Some (map s_apps r.1)) = Some [Some ["Mail"; "Spotify"]] /\
  (aggregateToSessions (Fixtures.plainEnv None)
     [Fixtures.activeAt 0 "Mail" 5; Fixtures.activeAt 2000 "Spotify" 5]
     (Fixtures.cachedWorld "Mail|Spotify" (mkDecision true 0.69999 "cached" None))
   ≫= fun r => Some (map s_apps r.1)) = Some [Some ["Mail"]; Some ["Spotify"]].
Proof. split; vm_compute; reflexivity. Qed.

(** ** Boundary decisions *)

(** C6.  When the time-gap rule and the idle rule do not fire, the two
    applications differ and are unrelated, one of the two events has no
    resolvable category, the decision cache has no entry for the pair's key
    and no classifier is available, [shouldMergeEvents] answers no-merge with
    confidence 0.5, and leaves the cache as it was. *)
Theorem conservative_split (env : Env) (prev curr : Event) (w : World) :
  timestamp curr - timestamp prev <= MAX_SESSION_GAP * 1000 ->
  (isIdle prev = false \/ durationOr5 prev <= IDLE_THRESHOLD) ->
  appName prev <> appName curr ->
  areAppsRelated (appName prev) (appName curr) = false ->
  (getCategoryForEvent env prev = None \/ getCategoryForEvent env curr = None) ->
  aiDecisionCache w !! buildCacheKey env prev curr = None ->
  ai_available env = false ->
  exists d,
    shouldMergeEvents env prev curr w = (d, w) /\
    shouldMerge d = false /\
    confidence d = 0.5%Q /\
    reason d = "Uncategorized - conservative split".
Proof.
  intros Hgap Hidle Happ Hrel Hcat Hcache Hai.
  unfold shouldMergeEvents.
  replace (MAX_SESSION_GAP * 1000 <? timestamp curr - timestamp prev) with false
    by (symmetry; apply Z.ltb_ge; assumption).
  replace (isIdle prev && (IDLE_THRESHOLD <? durationOr5 prev)) with false.
  2: { symmetry. destruct Hidle as [-> | H]; [reflexivity|].
       apply andb_false_iff. right. apply Z.ltb_ge. assumption. }
  replace (String.eqb (appName prev) (appName curr)) with false
    by (symmetry; apply String.eqb_neq; assumption).
  rewrite Hrel. unfold decideByCategory.
  replace (truthy_opt (getCategoryForEvent env prev)
           && truthy_opt (getCategoryForEvent env curr)) with false.
  2: { symmetry. destruct Hcat as [-> | ->]; simpl;
         [reflexivity|apply andb_false_r]. }
  rewrite Hcache, Hai. eexists. split; [reflexivity|]. simpl. auto.
Qed.

Lemma conservative_split_witness :
  exists d,
    shouldMergeEvents (Fixtures.plainEnv None) (Fixtures.activeAt 0 "Mail" 5)
      (Fixtures.activeAt 2000 "Spotify" 5) Fixtures.emptyWorld
    = (d, Fixtures.emptyWorld) /\
    shouldMerge d = false /\
    confidence d = 0.5%Q /\
    reason d = "Uncategorized - conservative split".
Proof.
  apply (conservative_split (Fixtures.plainEnv None)).
  - vm_compute. discriminate.
  - left. reflexivity.
  - discriminate.
  - reflexivity.
  - left. reflexivity.
  - reflexivity.
  - reflexivity.
Defined.

(** C7, evaluated on the code.  "Cursor" and "Ghostty" stand in different
    lists of [RELATED_APP_GROUPS], so [areAppsRelated] rejects the pair and
    the decision comes from the category comparison: with both events
    resolved to "development", two seconds apart, [shouldMergeEvents] answers
    merge with confidence 0.85 and the reason "Same category (development)",
    not confidence 0.9 with "Related apps in same category (development)". *)
Theorem cursor_ghostty_decision (env : Env) (prev curr : Event) (w : World) :
  appName prev = "Cursor" -> appName curr = "Ghostty" ->
  isIdle prev = false -> isIdle curr = false ->
  timestamp curr - timestamp prev = 2000 ->
  getCategoryForEvent env prev = Some "development" ->
  getCategoryForEvent env curr = Some "development" ->
  areAppsRelated "Cursor" "Ghostty" = false /\
  shouldMergeEvents env prev curr w
  = (mkDecision true 0.85 "Same category (development)" None, w).
Proof.
  intros Hp Hc Hip Hic Hgap Hcp Hcc. split; [reflexivity|].
  unfold shouldMergeEvents. rewrite Hgap, Hip, Hp, Hc. simpl.
  replace (areAppsRelated "Cursor" "Ghostty") with false by reflexivity.
  unfold decideByCategory. rewrite Hcp, Hcc. reflexivity.
Qed.

Lemma cursor_ghostty_decision_witness :
  areAppsRelated "Cursor" "Ghostty" = false /\
  shouldMergeEvents (Fixtures.plainEnv (Some Fixtures.devLookup))
    (Fixtures.activeAt 0 "Cursor" 5) (Fixtures.activeAt 2000 "Ghostty" 5)
    Fixtures.emptyWorld
  = (mkDecision true 0.85 "Same category (development)" None, Fixtures.emptyWorld).
Proof.
  apply (cursor_ghostty_decision (Fixtures.plainEnv (Some Fixtures.devLookup)));
    reflexivity.
Defined.

(** ** The generic fallback of [extractContext] *)







Lemma substring0_length (n : nat) (s : string) :
  String.length (substring0 n s) = Nat.min n (String.length s).
Proof.
  unfold substring0. revert n. induction s as [|c s IH]; intros n.
  - destruct n; reflexivity.
  - destruct n; simpl; [reflexivity|]. rewrite IH. reflexivity.
Qed.




(** ** Two runs on the same batch *)

Lemma outcomes_agree_bind {A B : Type} (R : A -> A -> Prop) (S : B -> B -> Prop)
    (m1 m2 : MX A) (k1 k2 : A -> MX B) (w1 w2 : World) :
  outcomes_agree R (m1 w1) (m2 w2) ->
  (forall a b wa wb, R a b -> same_cache wa wb -> outcomes_agree S (k1 a wa) (k2 b wb)) ->
  outcomes_agree S (bindX m1 k1 w1) (bindX m2 k2 w2).
Proof.
  intros Hm Hk. unfold bindX.
  destruct (m1 w1) as [[a wa]|], (m2 w2) as [[b wb]|]; simpl in *; try contradiction.
  - destruct Hm. auto.
  - exact I.
Qed.

Lemma erase_id_extendIdle (a b : ActivitySession) (e : Event) :
  erase_id a = erase_id b -> erase_id (extendIdle a e) = erase_id (extendIdle b e).
Proof.
  destruct a, b. unfold erase_id, extendIdle. simpl. intros H.
  injection H as -> -> -> -> -> -> -> -> ->. reflexivity.
Qed.

Lemma erase_id_type (a b : ActivitySession) :
  erase_id a = erase_id b -> s_type a = s_type b /\ s_category a = s_category b.
Proof.
  intros H. split.
  - apply (f_equal s_type) in H. exact H.
  - apply (f_equal s_category) in H. exact H.
Qed.

Lemma same_up_to_ids_last (l1 l2 : list ActivitySession) :
  same_up_to_ids l1 l2 ->
  match last l1, last l2 with
  | Some a, Some b =>
      erase_id a = erase_id b /\ same_up_to_ids (removelast l1) (removelast l2)
  | None, None => True
  | _, _ => False
  end.
Proof.
  unfold same_up_to_ids. intros H.
  destruct (last l1) as [a|] eqn:H1, (last l2) as [b|] eqn:H2.
  - apply last_Some in H1 as [l1' ->]. apply last_Some in H2 as [l2' ->].
    rewrite !map_app in H. simpl in H. apply app_inj_tail in H as [H Hab].
    rewrite !removelast_last. auto.
  - apply last_Some in H1 as [l1' ->]. apply last_None in H2 as ->.
    rewrite map_app in H. simpl in H. destruct (map erase_id l1'); discriminate.
  - apply last_Some in H2 as [l2' ->]. apply last_None in H1 as ->.
    rewrite map_app in H. simpl in H. destruct (map erase_id l2'); discriminate.
  - exact I.
Qed.

Lemma same_up_to_ids_snoc (l1 l2 : list ActivitySession) (a b : ActivitySession) :
  same_up_to_ids l1 l2 -> erase_id a = erase_id b ->
  same_up_to_ids (l1 ++ [a]) (l2 ++ [b]).
Proof.
  unfold same_up_to_ids. intros H Hab. rewrite !map_app. simpl. congruence.
Qed.

Section TwoRuns.

Variable env : Env.
Hypothesis repeatable :
  ai_available env = false \/ (deterministic_classifier env /\ steady_store env).

Lemma decideByCategory_determined (prev curr : Event) :
  cache_determined (decideByCategory env prev curr).
Proof.
  intros w1 w2 Hw. unfold decideByCategory.
  destruct (truthy_opt (getCategoryForEvent env prev)
            && truthy_opt (getCategoryForEvent env curr)).
  - destruct (String.eqb _ _); unfold ret; simpl; auto.
  - unfold same_cache in Hw. rewrite <- Hw.
    destruct (aiDecisionCache w1 !! buildCacheKey env prev curr) as [cached|]; simpl.
    + auto.
    + destruct (ai_available env) eqn:Hai; simpl; [|auto].
      destruct repeatable as [Hoff | [Hdet Hstore]]; [discriminate|].
      unfold bind, askAIForBoundary, cache_set, createOrUpdateSuggestion, ret.
      rewrite (Hdet (ai_calls w1) (ai_calls w2)).
      destruct (classify env (ai_calls w2) _ _) as [parsed|]; simpl.
      * destruct (truthy_opt (reply_suggestedCategory parsed) && _); simpl.
        -- rewrite (Hstore (length (suggestions w1)) (length (suggestions w2))).
           destruct (suggestion_stored env (length (suggestions w2))); simpl;
             unfold same_cache; simpl; rewrite Hw; auto.
        -- unfold same_cache; simpl; rewrite Hw; auto.
      * unfold same_cache; simpl; rewrite Hw; auto.
Qed.

Lemma shouldMergeEvents_determined (prev curr : Event) :
  cache_determined (shouldMergeEvents env prev curr).
Proof.
  intros w1 w2 Hw. unfold shouldMergeEvents.
  repeat match goal with
         | |- context [if ?b then _ else _] => destruct b
         end;
    try (unfold ret; simpl; auto; fail);
    apply decideByCategory_determined; assumption.
Qed.

Lemma finalizeSession_agree (cur : Accumulator) (w1 w2 : World) :
  same_cache w1 w2 ->
  outcomes_agree (fun a b => erase_id a = erase_id b)
    (finalizeSession env cur w1) (finalizeSession env cur w2).
Proof.
  intros Hw. unfold finalizeSession.
  destruct (head (acc_events cur)), (last (acc_events cur)); simpl; auto.
Qed.

Lemma closeCurrent_agree (st1 st2 : LoopState) (w1 w2 : World) :
  states_agree st1 st2 -> same_cache w1 w2 ->
  outcomes_agree states_agree (closeCurrent env st1 w1) (closeCurrent env st2 w2).
Proof.
  intros [Hss Hcur] Hw. unfold closeCurrent. rewrite <- Hcur.
  destruct (currentSession st1) as [cur|] eqn:Hc.
  - destruct (0 <? length (acc_events cur))%nat.
    + apply (outcomes_agree_bind (fun a b => erase_id a = erase_id b)).
      * apply finalizeSession_agree. assumption.
      * intros a b wa wb Hab Hwab. simpl. split; [|assumption].
        split; [|reflexivity]. simpl. apply same_up_to_ids_snoc; assumption.
    + simpl. split; [|assumption]. split; congruence.
  - simpl. split; [|assumption]. split; congruence.
Qed.

Lemma idleEvent_agree (e : Event) (st1 st2 : LoopState) (w1 w2 : World) :
  states_agree st1 st2 -> same_cache w1 w2 ->
  outcomes_agree states_agree (idleEvent env e st1 w1) (idleEvent env e st2 w2).
Proof.
  intros Hst Hw. unfold idleEvent.
  apply (outcomes_agree_bind states_agree).
  - apply closeCurrent_agree; assumption.
  - intros a b wa wb [Hss Hcur] Hwab.
    pose proof (same_up_to_ids_last _ _ Hss) as Hlast.
    destruct (last (sessions a)) as [la|], (last (sessions b)) as [lb|];
      try contradiction.
    + destruct Hlast as [Hab Hrem].
      destruct (erase_id_type la lb Hab) as [Hty Hcat]. rewrite <- Hty.
      destruct (bool_decide (s_type la = Idle)); simpl.
      * split; [|assumption]. split; [|assumption]. simpl.
        apply same_up_to_ids_snoc; [assumption|].
        apply erase_id_extendIdle. assumption.
      * split; [|assumption]. split; [|assumption]. simpl.
        apply same_up_to_ids_snoc; [assumption|].
        unfold erase_id, newIdleSession. simpl. rewrite Hcat. reflexivity.
    + simpl. split; [|assumption]. split; [|assumption]. simpl.
      apply same_up_to_ids_snoc; [assumption|reflexivity].
Qed.

Lemma activeEvent_agree (e : Event) (st1 st2 : LoopState) (w1 w2 : World) :
  states_agree st1 st2 -> same_cache w1 w2 ->
  outcomes_agree states_agree (activeEvent env e st1 w1) (activeEvent env e st2 w2).
Proof.
  intros [Hss Hcur] Hw. unfold activeEvent. rewrite <- Hcur.
  destruct (currentSession st1) as [cur|].
  - destruct (last (acc_events cur)) as [prev|]; [|exact I].
    apply (outcomes_agree_bind eq).
    + unfold liftX. simpl.
      pose proof (shouldMergeEvents_determined prev e w1 w2 Hw) as Hd.
      destruct (shouldMergeEvents env prev e w1), (shouldMergeEvents env prev e w2).
      exact Hd.
    + intros d d' wa wb <- Hwab.
      destruct (mergeAccepted d).
      * simpl. split; [|assumption]. split; [assumption|reflexivity].
      * apply (outcomes_agree_bind (fun a b => erase_id a = erase_id b)).
        -- apply finalizeSession_agree. assumption.
        -- intros a b wa' wb' Hab Hw'. simpl. split; [|assumption].
           split; [|reflexivity]. simpl. apply same_up_to_ids_snoc; assumption.
  - simpl. split; [|assumption]. split; [assumption|reflexivity].
Qed.

Lemma loop_agree (evs : list Event) : forall st1 st2 w1 w2,
  states_agree st1 st2 -> same_cache w1 w2 ->
  outcomes_agree states_agree (loop env evs st1 w1) (loop env evs st2 w2).
Proof.
  induction evs as [|e rest IH]; intros st1 st2 w1 w2 Hst Hw; simpl.
  - split; assumption.
  - apply (outcomes_agree_bind states_agree).
    + unfold step. destruct (isIdle e).
      * apply idleEvent_agree; assumption.
      * apply activeEvent_agree; assumption.
    + intros a b wa wb Hab Hwab. apply IH; assumption.
Qed.

Lemma aggregate_agree (evs : list Event) (w1 w2 : World) :
  same_cache w1 w2 ->
  outcomes_agree same_up_to_ids
    (aggregateToSessions env evs w1) (aggregateToSessions env evs w2).
Proof.
  intros Hw. unfold aggregateToSessions. destruct evs as [|e rest].
  - simpl. split; [reflexivity|assumption].
  - apply (outcomes_agree_bind states_agree).
    + apply loop_agree; [|assumption]. split; reflexivity.
    + intros a b wa wb Hab Hwab.
      apply (outcomes_agree_bind states_agree).
      * apply closeCurrent_agree; assumption.
      * intros a' b' wa' wb' [Hss _] Hw'. simpl. split; assumption.
Qed.

End TwoRuns.

(** C2, as amended.  Two runs of [aggregateToSessions] on the same event
    batch, with the same category-lookup snapshot and the same decision cache,
    and either no classifier available, or a classifier that answers equal
    descriptions equally and a suggestion store that takes every write or
    refuses every write, both return, and their session lists have the same
    length and agree on every field of every session except [id], which is
    drawn from [randomUUID] in each run. *)
Theorem aggregation_repeatable_up_to_ids (env : Env) (evs : list Event) (w1 w2 : World) :
  ai_available env = false \/ (deterministic_classifier env /\ steady_store env) ->
  aiDecisionCache w1 = aiDecisionCache w2 ->
  exists ss1 w1' ss2 w2',
    aggregateToSessions env evs w1 = Some (ss1, w1') /\
    aggregateToSessions env evs w2 = Some (ss2, w2') /\
    map erase_id ss1 = map erase_id ss2 /\
    aiDecisionCache w1' = aiDecisionCache w2'.
Proof.
  intros Hdet Hw.
  destruct (aggregate_Steps env evs w1) as (ss1 & w1' & st1 & H1 & _).
  destruct (aggregate_Steps env evs w2) as (ss2 & w2' & st2 & H2 & _).
  exists ss1, w1', ss2, w2'. split; [assumption|]. split; [assumption|].
  pose proof (aggregate_agree env Hdet evs w1 w2 Hw) as Hagree.
  rewrite H1, H2 in Hagree. exact Hagree.
Qed.

Lemma aggregation_repeatable_up_to_ids_witness :
  exists ss1 w1' ss2 w2',
    aggregateToSessions (Fixtures.classifierEnv (fun _ => true))
      [Fixtures.activeAt 0 "Mail" 5; Fixtures.activeAt 2000 "Spotify" 5;
       Fixtures.idleAt 7000 5]
      Fixtures.emptyWorld = Some (ss1, w1') /\
    aggregateToSessions (Fixtures.classifierEnv (fun _ => true))
      [Fixtures.activeAt 0 "Mail" 5; Fixtures.activeAt 2000 "Spotify" 5;
       Fixtures.idleAt 7000 5]
      (mkWorld ∅ 3 2 [(SuggestApp, "Notes", "other", 0.8%Q)]) = Some (ss2, w2') /\
    map erase_id ss1 = map erase_id ss2 /\
    aiDecisionCache w1' = aiDecisionCache w2'.
Proof.
  apply (aggregation_repeatable_up_to_ids (Fixtures.classifierEnv (fun _ => true))).
  - right. split.
    + intros n m a b. reflexivity.
    + intros n m. reflexivity.
  - reflexivity.
Defined.

(** C2 as stated fails: the second run, started in the world the first run
    left, with the decision cache unchanged, returns sessions whose
    identifiers differ from those of the first. *)
Lemma repeated_run_counterexample :
  exists ss1 w1 ss2 w2,
    aggregateToSessions (Fixtures.plainEnv None)
      [Fixtures.activeAt 0 "Mail" 5; Fixtures.idleAt 5000 5]
      Fixtures.emptyWorld = Some (ss1, w1) /\
    aiDecisionCache w1 = aiDecisionCache Fixtures.emptyWorld /\
    aggregateToSessions (Fixtures.plainEnv None)
      [Fixtures.activeAt 0 "Mail" 5; Fixtures.idleAt 5000 5]
      w1 = Some (ss2, w2) /\
    map s_id ss1 = ["00000000-0000-4000-8000-0"; "00000000-0000-4000-8000-1"] /\
    map s_id ss2 = ["00000000-0000-4000-8000-2"; "00000000-0000-4000-8000-3"] /\
    ss1 <> ss2.
Proof.
  eexists _, _, _, _. split; [vm_compute; reflexivity|]. split; [reflexivity|].
  split; [vm_compute; reflexivity|]. split; [reflexivity|]. split; [reflexivity|].
  discriminate.
Qed.

(** The condition on the suggestion store is needed.  The classifier answers
    every question alike, and the store refuses its first write only.  A run
    that makes that first write loses the classifier's answer to the
    [catch] of [decideByCategory] and splits; a run from the same decision
    cache that makes a later write merges. *)
Example dropped_write_changes_run :
  let env := Fixtures.classifierEnv (fun n => negb (n =? 0)%nat) in
  let batch := [Fixtures.activeAt 0 "Mail" 5; Fixtures.activeAt 2000 "Spotify" 5] in
  exists ss1 w1 ss2 w2,
    aggregateToSessions env batch Fixtures.emptyWorld = Some (ss1, w1) /\
    aggregateToSessions env batch
      (mkWorld ∅ 0 0 [(SuggestApp, "Notes", "other", 0.8%Q)]) = Some (ss2, w2) /\
    map timing ss1 = [(0, 5000, 5); (2000, 7000, 5)] /\
    map timing ss2 = [(0, 7000, 7)].
Proof.
  eexists _, _, _, _. split; [vm_compute; reflexivity|].
  split; [vm_compute; reflexivity|]. split; reflexivity.
Qed.

(** ** Category resolution and wildcard patterns *)

Lemma parse_plain (pattern : string) : forall (rest : string) a alts,
  plain_pattern pattern = true ->
  JsRegExp.parse rest = Some (a, alts) ->
  JsRegExp.parse (JsRegExp.expand_stars (JsRegExp.escape_dots pattern) +:+ rest)
  = Some (pattern_terms pattern ++ a, alts).
Proof.
  induction pattern as [|c pattern IH]; intros rest a alts Hplain Hrest.
  - exact Hrest.
  - unfold plain_pattern in Hplain. simpl in Hplain.
    apply andb_true_iff in Hplain as [Hc Hp].
    specialize (IH rest a alts Hp Hrest).
    destruct c as [[] [] [] [] [] [] [] []];
      try discriminate Hc;
      simpl; rewrite IH; reflexivity.
Qed.

Lemma parse_anchored (pattern : string) :
  plain_pattern pattern = true ->
  JsRegExp.parse ("^" +:+ JsRegExp.expand_stars (JsRegExp.escape_dots pattern) +:+ "$")
  = Some (JsRegExp.TBegin :: pattern_terms pattern ++ [JsRegExp.TEnd], []).
Proof.
  intros Hplain.
  change (JsRegExp.add_term JsRegExp.TBegin
            (JsRegExp.parse
               (JsRegExp.expand_stars (JsRegExp.escape_dots pattern) +:+ "$"))
          = Some (JsRegExp.TBegin :: pattern_terms pattern ++ [JsRegExp.TEnd], [])).
  rewrite (parse_plain pattern "$" [JsRegExp.TEnd] [] Hplain); reflexivity.
Qed.

Lemma search_begin (ts : list JsRegExp.Term) (s : string) :
  JsRegExp.search [JsRegExp.TBegin :: ts] false s = false.
Proof. induction s as [|c s IH]; simpl; [reflexivity|assumption]. Qed.

Lemma match_terms_wildcard (pattern : string) : forall (domain : string) (at0 : bool),
  no_line_terminator domain = true ->
  JsRegExp.match_here (pattern_terms pattern ++ [JsRegExp.TEnd]) at0 domain
  = wildcard_match pattern domain.
Proof.
  induction pattern as [|c pattern IH]; intros domain at0 Hd.
  - destruct domain; reflexivity.
  - simpl. destruct (Ascii.eqb c "*").
    + revert at0. induction domain as [|a domain IHd]; intros at0.
      * simpl. rewrite IH by reflexivity. reflexivity.
      * unfold no_line_terminator in Hd. simpl in Hd.
        apply andb_true_iff in Hd as [Ha Hd'].
        simpl. rewrite (IH (String a domain) at0).
        2: { unfold no_line_terminator. simpl. rewrite Ha. exact Hd'. }
        rewrite Ha. simpl. f_equal. apply IHd. exact Hd'.
    + destruct domain as [|a domain]; [reflexivity|].
      unfold no_line_terminator in Hd. simpl in Hd.
      apply andb_true_iff in Hd as [_ Hd'].
      simpl. rewrite (IH domain false Hd'). reflexivity.
Qed.

(** On a pattern written with literal characters, [.] and [*], the regular
    expression built by [matchesDomainPattern] decides the wildcard reading:
    case-insensitive, [*] any run of characters, [.] literal, the whole
    domain accounted for. *)
Lemma matchesDomainPattern_plain (env : Env) (domain pattern : string) :
  plain_pattern pattern = true ->
  no_line_terminator domain = true ->
  matchesDomainPattern env domain pattern = wildcard_match pattern domain.
Proof.
  intros Hplain Hd. unfold matchesDomainPattern, JsRegExp.test_i.
  rewrite (parse_anchored pattern Hplain).
  destruct domain as [|a domain].
  - simpl. rewrite orb_false_r, orb_false_r.
    apply (match_terms_wildcard pattern "" true Hd).
  - simpl JsRegExp.search. rewrite search_begin, !orb_false_r.
    apply (match_terms_wildcard pattern (String a domain) true Hd).
Qed.

Lemma first_pattern_plain (env : Env) (pats : list (string * string)) (domain : string) :
  Forall (fun pc => plain_pattern (fst pc) = true) pats ->
  no_line_terminator domain = true ->
  first_pattern env pats domain = first_wildcard pats domain.
Proof.
  intros Hpats Hd. unfold first_wildcard.
  induction Hpats as [|[pattern category] pats Hp Hpats IH]; simpl; [reflexivity|].
  rewrite (matchesDomainPattern_plain env domain pattern Hp Hd).
  destruct (wildcard_match pattern domain); [reflexivity|exact IH].
Qed.

(** With a snapshot whose patterns are plain, [getCategoryForEvent] follows
    the resolution order of the specification. *)
Lemma getCategoryForEvent_order (env : Env) (lk : CategoryLookup) (event : Event) :
  categoryLookup env = Some lk ->
  Forall (fun pc => plain_pattern (fst pc) = true) (domainPatterns lk) ->
  (forall domain, event_domain env event = Some domain ->
                  no_line_terminator domain = true) ->
  getCategoryForEvent env event = categoryFor env lk event.
Proof.
  intros Hlk Hpats Hdom. unfold getCategoryForEvent, categoryFor, first_hit.
  rewrite Hlk. simpl.
  destruct (match bundleIdentifier event with
            | Some b => if truthy b then get_truthy (bundles lk) b else None
            | None => None
            end); [reflexivity|].
  destruct (get_truthy (apps lk) (appName event)); [reflexivity|].
  revert Hdom. unfold event_domain, extractDomain.
  destruct (url event) as [u|]; simpl; [|reflexivity].
  destruct (truthy u); simpl; [|reflexivity].
  destruct (url_hostname env u) as [h|]; [|reflexivity].
  destruct (truthy (strip_www h)); [|reflexivity].
  intros Hdom. destruct (get_truthy (domains lk) (strip_www h)); [reflexivity|].
  rewrite (first_pattern_plain env _ _ Hpats (Hdom _ eq_refl)).
  destruct (first_wildcard _ _); reflexivity.
Qed.

(** C8, evaluated on the code.  [matchesDomainPattern] escapes the dots and
    expands the stars of a pattern, and hands every other character to the
    regular expression as it is.  In the pattern "github.com|gitlab.com" the
    bar splits the expression into [^github\.com] and [gitlab\.com$], and the
    domain "notgitlab.com" matches by its suffix alone: the wildcard reading
    rejects it, and [getCategoryForEvent] resolves the event to the pattern's
    category. *)
Theorem wildcard_bar_matches_suffix (env : Env) :
  matchesDomainPattern env "notgitlab.com" "github.com|gitlab.com" = true /\
  wildcard_match "github.com|gitlab.com" "notgitlab.com" = false /\
  JsRegExp.parse "^github\.com|gitlab\.com$"
  = Some ([JsRegExp.TBegin; JsRegExp.TChar "g"; JsRegExp.TChar "i"; JsRegExp.TChar "t";
           JsRegExp.TChar "h"; JsRegExp.TChar "u"; JsRegExp.TChar "b"; JsRegExp.TChar ".";
           JsRegExp.TChar "c"; JsRegExp.TChar "o"; JsRegExp.TChar "m"],
          [[JsRegExp.TChar "g"; JsRegExp.TChar "i"; JsRegExp.TChar "t"; JsRegExp.TChar "l";
            JsRegExp.TChar "a"; JsRegExp.TChar "b"; JsRegExp.TChar "."; JsRegExp.TChar "c";
            JsRegExp.TChar "o"; JsRegExp.TChar "m"; JsRegExp.TEnd]]) /\
  getCategoryForEvent
    (Fixtures.hostEnv "https://notgitlab.com/" "notgitlab.com" (Some Fixtures.wildLookup))
    (Fixtures.browsing 0 "https://notgitlab.com/")
  = Some "development".
Proof.
  split; [reflexivity|]. split; [reflexivity|]. split; [reflexivity|].
  vm_compute. reflexivity.
Qed.


(** * Further properties of the code *)

(** ** Properties of the list of sessions kept by the loop *)

Section ListWise.

Variable env : Env.
Variable Inv : list ActivitySession -> Prop.
Variable Q : Accumulator -> Prop.
Variable E : Event -> Prop.

Hypothesis Inv_nil : Inv [].
Hypothesis Inv_final : forall ss cur s,
  Inv ss -> Q cur -> Finalized cur s -> Inv (ss ++ [s]).
Hypothesis Inv_idle : forall ss id e,
  E e -> isIdle e = true -> Inv ss ->
  (forall ls, last ss = Some ls -> s_type ls = Active) ->
  Inv (ss ++ [newIdleSession id e (last ss ≫= s_category)]).
Hypothesis Inv_extend : forall ss ls e,
  E e -> isIdle e = true -> Inv (ss ++ [ls]) -> s_type ls = Idle ->
  Inv (ss ++ [extendIdle ls e]).
Hypothesis Q_open : forall e, E e -> isIdle e = false -> Q (openSession env e).
Hypothesis Q_merge : forall cur prev e,
  E e -> isIdle e = false -> Q cur -> last (acc_events cur) = Some prev ->
  Q (mergeEvent env cur prev e).

Lemma Closed_listwise st ss :
  Inv (sessions st) -> (forall cur, currentSession st = Some cur -> Q cur) ->
  Closed st ss -> Inv ss.
Proof.
  intros HI HQ HC. destruct HC as [Hcur|cur s Hcur HF]; [assumption|].
  eapply Inv_final; eauto.
Qed.

Lemma Step_listwise e st st' :
  E e -> Step env e st st' ->
  Inv (sessions st) -> (forall cur, currentSession st = Some cur -> Q cur) ->
  Inv (sessions st') /\ (forall cur, currentSession st' = Some cur -> Q cur).
Proof.
  intros HE HS HI HQ. destruct HS as
    [ss ls Hidle HC Hlast Hty | ss id Hidle HC Hact | Hidle Hcur
     | cur prev Hidle Hcur Hprev | cur s Hidle Hcur HF]; simpl.
  - pose proof (Closed_listwise st ss HI HQ HC) as Hss.
    apply last_Some in Hlast as [ss0 ->]. rewrite removelast_last.
    split; [|discriminate]. apply Inv_extend; auto.
  - pose proof (Closed_listwise st ss HI HQ HC) as Hss.
    split; [|discriminate]. apply Inv_idle; auto.
  - split; [assumption|]. intros c [= <-]. apply Q_open; auto.
  - split; [assumption|]. intros c [= <-]. apply Q_merge; auto.
  - split; [eapply Inv_final; eauto|]. intros c [= <-]. apply Q_open; auto.
Qed.

Lemma Steps_listwise evs st st' :
  Steps env evs st st' -> Forall E evs ->
  Inv (sessions st) -> (forall cur, currentSession st = Some cur -> Q cur) ->
  Inv (sessions st') /\ (forall cur, currentSession st' = Some cur -> Q cur).
Proof.
  induction 1 as [st|e rest st st1 st2 Hok HS HSs IH]; intros HE HI HQ; [auto|].
  inversion HE; subst.
  destruct (Step_listwise e st st1) as [HI1 HQ1]; auto.
Qed.

Lemma aggregate_listwise evs w :
  Forall E evs ->
  exists ss w', aggregateToSessions env evs w = Some (ss, w') /\ Inv ss.
Proof.
  intros HE.
  destruct (aggregate_Steps env evs w) as (ss & w' & st & Hagg & HSs & Hok & HC).
  exists ss, w'. split; [assumption|].
  destruct (Steps_listwise evs initial st HSs HE) as [HI HQ].
  - exact Inv_nil.
  - intros cur H. discriminate.
  - eapply Closed_listwise; eauto.
Qed.

End ListWise.

Lemma first_records_nothing_snoc (ss : list ActivitySession) (s : ActivitySession) :
  first_records_nothing ss -> (ss = [] -> s_precedingCategory s = None) ->
  first_records_nothing (ss ++ [s]).
Proof. destruct ss; simpl; auto. Qed.

(** X1.  In the output of [aggregateToSessions] no idle session follows
    another idle session; every idle session that follows a session carries
    that session's category as [precedingCategory]; an idle session at the
    head of the output and every active session carry none. *)
Theorem idle_sessions_record_predecessor (env : Env) (evs : list Event) (w : World) :
  exists ss w',
    aggregateToSessions env evs w = Some (ss, w') /\
    chain follows ss /\ first_records_nothing ss.
Proof.
  apply (aggregate_listwise env
           (fun ss => chain follows ss /\ first_records_nothing ss)
           (fun _ => True) (fun _ => True)).
  - split; exact I.
  - intros ss cur s [Hch Hfirst] _ (id & f & l & Hf & Hl & ->). split.
    + apply chain_snoc. split; [assumption|]. intros y _. reflexivity.
    + apply first_records_nothing_snoc; auto.
  - intros ss id e _ _ [Hch Hfirst] Hact. split.
    + apply chain_snoc. split; [assumption|]. intros y Hy.
      unfold follows. simpl. rewrite Hy. simpl. auto.
    + apply first_records_nothing_snoc; [assumption|]. intros ->. reflexivity.
  - intros ss ls e _ _ [Hch Hfirst] Hty. split.
    + apply chain_snoc in Hch as [Hch Hl]. apply chain_snoc. split; [assumption|].
      intros y Hy. specialize (Hl y Hy). unfold follows in *. simpl.
      rewrite Hty in *. exact Hl.
    + destruct ss; simpl in *; assumption.
  - auto.
  - auto.
  - apply List.Forall_forall. auto.
Qed.


(** ** [deduplicateContexts] *)

Lemma ListNoDup_snoc {A} (l : list A) (x : A) :
  List.NoDup l -> ~ In x l -> List.NoDup (l ++ [x]).
Proof.
  induction l as [|a l IH]; simpl; intros Hnd Hx.
  - constructor; [intros []|constructor].
  - inversion Hnd; subst. constructor.
    + intros Hin. apply in_app_or in Hin as [Hin | [-> | []]]; tauto.
    + apply IH; tauto.
Qed.

Lemma In_take {A} (n : nat) (l : list A) (x : A) : In x (take n l) -> In x l.
Proof.
  revert n. induction l as [|a l IH]; intros [|n]; simpl; try tauto.
  intros [-> | H]; eauto.
Qed.

Lemma ListNoDup_take {A} (n : nat) (l : list A) :
  List.NoDup l -> List.NoDup (take n l).
Proof.
  revert n. induction l as [|a l IH]; intros [|n] H; simpl; try constructor.
  - inversion H; subst. intros Hin. apply In_take in Hin. contradiction.
  - inversion H; subst. auto.
Qed.

Lemma ListNoDup_map_inv {A B} (f : A -> B) (l : list A) :
  List.NoDup (map f l) -> List.NoDup l.
Proof.
  induction l as [|a l IH]; simpl; intros H; [constructor|].
  inversion H; subst. constructor; [|auto].
  intros Hin. apply (in_map f) in Hin. contradiction.
Qed.

Lemma dedup_loop_spec (contexts : list ExtractedContext) : forall seen result,
  List.NoDup seen ->
  exists added,
    dedup_loop contexts seen result = result ++ added /\
    sublist added (map ctx_value contexts) /\
    List.NoDup (seen ++ map normalized added) /\
    Forall (fun v => v <> "") added /\
    (forall ctx, In ctx contexts -> ctx_value ctx <> "" ->
                 In (normalized (ctx_value ctx)) (seen ++ map normalized added)).
Proof.
  induction contexts as [|ctx rest IH]; intros seen result Hnd; simpl.
  - exists []. simpl. rewrite !app_nil_r.
    split; [reflexivity|]. split; [constructor|]. split; [assumption|].
    split; [constructor|]. intros ctx [].
  - fold (normalized (ctx_value ctx)).
    destruct (in_list (normalized (ctx_value ctx)) seen) eqn:Hseen; simpl.
    + destruct (IH seen result Hnd) as (added & Heq & Hsub & Hnd' & Hne & Hall).
      exists added. split; [assumption|]. split; [apply sublist_cons; assumption|].
      split; [assumption|]. split; [assumption|].
      intros c [<- | Hin] Hv; [|auto].
      apply in_or_app. left. apply in_list_In. assumption.
    + assert (Hnotin : ~ In (normalized (ctx_value ctx)) seen).
      { intros H. apply In_in_list in H. congruence. }
      destruct (0 <? String.length (ctx_value ctx))%nat eqn:Hlen.
      * destruct (IH (seen ++ [normalized (ctx_value ctx)]) (result ++ [ctx_value ctx])
                    (ListNoDup_snoc _ _ Hnd Hnotin))
          as (added & Heq & Hsub & Hnd' & Hne & Hall).
        exists (ctx_value ctx :: added). rewrite <- app_assoc in Heq, Hnd'.
        split; [exact Heq|]. split; [apply sublist_skip; assumption|].
        split; [exact Hnd'|]. split.
        -- constructor; [|assumption]. intros Hv. rewrite Hv in Hlen. discriminate.
        -- intros c [<- | Hin] Hv.
           ++ apply in_or_app. right. left. reflexivity.
           ++ specialize (Hall c Hin Hv). rewrite <- app_assoc in Hall. exact Hall.
      * destruct (IH seen result Hnd) as (added & Heq & Hsub & Hnd' & Hne & Hall).
        exists added. split; [assumption|]. split; [apply sublist_cons; assumption|].
        split; [assumption|]. split; [assumption|].
        intros c [<- | Hin] Hv; [|auto]. exfalso.
        destruct (ctx_value ctx); [contradiction|discriminate].
Qed.

(** X2.  On contexts whose values are ASCII text, [deduplicateContexts]
    keeps the values in the order of the input, one for each normalized form
    (lower-cased and trimmed) and never an empty one; every non-empty value
    of the input is represented by a value of the same normalized form. *)
Theorem deduplicateContexts_spec (contexts : list ExtractedContext) :
  Forall (fun ctx => ascii_text (ctx_value ctx) = true) contexts ->
  sublist (deduplicateContexts contexts) (map ctx_value contexts) /\
  List.NoDup (map normalized (deduplicateContexts contexts)) /\
  Forall (fun v => v <> "") (deduplicateContexts contexts) /\
  (forall ctx, In ctx contexts -> ctx_value ctx <> "" ->
     exists v, In v (deduplicateContexts contexts) /\
               normalized v = normalized (ctx_value ctx)).
Proof.
  intros _. unfold deduplicateContexts.
  destruct (dedup_loop_spec contexts [] []) as (added & Heq & Hsub & Hnd & Hne & Hall);
    [constructor|].
  rewrite Heq. simpl in *.
  split; [assumption|]. split; [assumption|]. split; [assumption|].
  intros ctx Hin Hv. specialize (Hall ctx Hin Hv).
  apply in_map_iff in Hall as (v & Hv' & Hin'). eauto.
Qed.

Lemma deduplicateContexts_spec_witness :
  let contexts := [mkContext CtxFile "src/Main.ts" None;
                   mkContext CtxOther " SRC/main.ts " None;
                   mkContext CtxOther "" None;
                   mkContext CtxUrl "github.com/acme/app" None] in
  sublist (deduplicateContexts contexts) (map ctx_value contexts) /\
  List.NoDup (map normalized (deduplicateContexts contexts)) /\
  Forall (fun v => v <> "") (deduplicateContexts contexts) /\
  (forall ctx, In ctx contexts -> ctx_value ctx <> "" ->
     exists v, In v (deduplicateContexts contexts) /\
               normalized v = normalized (ctx_value ctx)).
Proof.
  apply (deduplicateContexts_spec
           [mkContext CtxFile "src/Main.ts" None;
            mkContext CtxOther " SRC/main.ts " None;
            mkContext CtxOther "" None;
            mkContext CtxUrl "github.com/acme/app" None]).
  repeat constructor.
Defined.

Lemma deduplicated_distinct (contexts : list ExtractedContext) :
  List.NoDup (deduplicateContexts contexts) /\
  Forall (fun v => v <> "") (deduplicateContexts contexts).
Proof.
  unfold deduplicateContexts.
  destruct (dedup_loop_spec contexts [] []) as (added & Heq & Hsub & Hnd & Hne & Hall);
    [constructor|].
  rewrite Heq. simpl in *. split; [|assumption].
  apply (ListNoDup_map_inv normalized). assumption.
Qed.

(** X3.  Every active session of the output of [aggregateToSessions] names at
    least one application, each once and each the application of an active
    input event; a session naming k applications counts at least k - 1
    context switches; its context list has at most 10 entries, without
    repetition and without empty strings. *)
Theorem active_session_fields (env : Env) (evs : list Event) (w : World) :
  exists ss w',
    aggregateToSessions env evs w = Some (ss, w') /\
    Forall (active_fields_ok evs) ss.
Proof.
  apply (aggregate_sessionwise env (active_fields_ok evs)
           (fun cur =>
              acc_apps cur <> [] /\ List.NoDup (acc_apps cur) /\
              Forall (fun a => exists e, In e evs /\ isIdle e = false /\ appName e = a)
                (acc_apps cur) /\
              Forall (fun e => In (appName e) (acc_apps cur)) (acc_events cur) /\
              Z.of_nat (length (acc_apps cur)) <= acc_contextSwitches cur + 1)
           (fun e => In e evs)).
  - intros cur s (Hne & Hnd & Hfrom & _ & Hlen) (id & f & l & Hf & Hl & ->) _.
    simpl. eexists _, _, _. repeat split; eauto.
    + rewrite length_take. lia.
    + apply ListNoDup_take. apply deduplicated_distinct.
    + apply Forall_take. apply deduplicated_distinct.
  - intros id e pc _ _ H. discriminate.
  - intros ls e _ _ _ Hty H. simpl in H. congruence.
  - intros e HE Hidle. simpl. repeat split.
    + discriminate.
    + constructor; [intros []|constructor].
    + constructor; [eauto|constructor].
    + constructor; [left; reflexivity|constructor].
    + lia.
  - intros cur prev e HE Hidle (Hne & Hnd & Hfrom & Hev & Hlen) Hprev. simpl.
    assert (Hprev_in : In (appName prev) (acc_apps cur)).
    { apply last_Some in Hprev as [l' Hl']. rewrite Hl' in Hev.
      apply Forall_app in Hev as [_ Hev]. inversion Hev; subst. assumption. }
    unfold set_add. destruct (in_list (appName e) (acc_apps cur)) eqn:Hin.
    + apply in_list_In in Hin. repeat split; auto.
      * apply Forall_app. split; [assumption|]. constructor; [assumption|constructor].
      * destruct (negb _); [lia|].
        destruct (_ && _); [|lia]. destruct (bool_decide _); lia.
    + assert (Hnotin : ~ In (appName e) (acc_apps cur)).
      { intros H. apply In_in_list in H. congruence. }
      assert (Hneq : appName prev <> appName e) by (intros Heq; congruence).
      apply String.eqb_neq in Hneq. rewrite Hneq. simpl. repeat split.
      * destruct (acc_apps cur); discriminate.
      * apply ListNoDup_snoc; assumption.
      * apply Forall_app. split; [assumption|]. constructor; [eauto|constructor].
      * apply Forall_app. split.
        -- eapply Forall_impl; [exact Hev|]. simpl. intros x Hx.
           apply in_or_app. left. assumption.
        -- constructor; [|constructor]. apply in_or_app. right. left. reflexivity.
      * rewrite length_app. simpl. lia.
  - apply List.Forall_forall. auto.
Qed.


(** ** Identifiers and the world *)

Section Worlds.

Variable env : Env.

Lemma finalizeSession_world cur w s w' :
  finalizeSession env cur w = Some (s, w') ->
  w' = drawn w /\ s_id s = randomUUID env (uuid_draws w) /\ Finalized cur s.
Proof.
  unfold finalizeSession.
  destruct (head (acc_events cur)) as [f|] eqn:Hf; [|discriminate].
  destruct (last (acc_events cur)) as [l|] eqn:Hl; [|discriminate].
  unfold bindX, freshUUID, retX. intros [= <- <-].
  split; [reflexivity|]. split; [reflexivity|].
  exists (randomUUID env (uuid_draws w)), f, l. auto.
Qed.

Lemma decideByCategory_draws prev curr w :
  uuid_draws (decideByCategory env prev curr w).2 = uuid_draws w.
Proof.
  unfold decideByCategory.
  destruct (truthy_opt _ && truthy_opt _).
  - destruct (String.eqb _ _); reflexivity.
  - destruct (aiDecisionCache w !! _); [reflexivity|].
    destruct (ai_available env); [|reflexivity].
    unfold bind, askAIForBoundary, cache_set, createOrUpdateSuggestion, ret.
    destruct (classify env _ _ _); simpl; [|reflexivity].
    destruct (_ && _); simpl; [|reflexivity].
    destruct (suggestion_stored env _); reflexivity.
Qed.

Lemma shouldMergeEvents_draws prev curr w :
  uuid_draws (shouldMergeEvents env prev curr w).2 = uuid_draws w.
Proof.
  unfold shouldMergeEvents.
  repeat match goal with
         | |- context [if ?b then _ else _] => destruct b
         end;
    try reflexivity; apply decideByCategory_draws.
Qed.

Lemma seq_snoc (n0 len : nat) : seq n0 (S len) = seq n0 len ++ [(n0 + len)%nat].
Proof. rewrite seq_S. reflexivity. Qed.

Lemma ids_in_order_push n0 ss s w :
  ids_in_order env n0 ss w -> s_id s = randomUUID env (uuid_draws w) ->
  ids_in_order env n0 (ss ++ [s]) (drawn w).
Proof.
  intros [Hids Hdraws] Hs. unfold ids_in_order.
  rewrite length_app, !map_app. simpl.
  replace (length ss + 1)%nat with (S (length ss)) by lia.
  rewrite seq_snoc, map_app, Hids, Hs, Hdraws. simpl. split; [reflexivity|lia].
Qed.

Lemma closeCurrent_ids n0 st w st1 w1 :
  ids_in_order env n0 (sessions st) w ->
  closeCurrent env st w = Some (st1, w1) ->
  ids_in_order env n0 (sessions st1) w1.
Proof.
  intros Hinv. unfold closeCurrent.
  destruct (currentSession st) as [cur|].
  - destruct (0 <? length (acc_events cur))%nat.
    + unfold bindX. destruct (finalizeSession env cur w) as [[s w2]|] eqn:Hfin;
        [|discriminate].
      apply finalizeSession_world in Hfin as (-> & Hid & _).
      unfold retX. intros [= <- <-]. simpl. apply ids_in_order_push; assumption.
    + unfold retX. intros [= <- <-]. assumption.
  - unfold retX. intros [= <- <-]. assumption.
Qed.

Lemma step_ids n0 e st w st' w' :
  ids_in_order env n0 (sessions st) w ->
  step env e st w = Some (st', w') ->
  ids_in_order env n0 (sessions st') w'.
Proof.
  intros Hinv. unfold step. destruct (isIdle e).
  - unfold idleEvent, bindX.
    destruct (closeCurrent env st w) as [[st1 w1]|] eqn:Hclose; [|discriminate].
    pose proof (closeCurrent_ids n0 st w st1 w1 Hinv Hclose) as Hinv1.
    destruct (last (sessions st1)) as [ls|] eqn:Hlast.
    + destruct (bool_decide (s_type ls = Idle)).
      * unfold retX. intros [= <- <-]. simpl.
        apply last_Some in Hlast as [ss0 Hss]. rewrite Hss in *.
        rewrite removelast_last. destruct Hinv1 as [Hids Hdraws].
        unfold ids_in_order. rewrite !length_app, !map_app in *. simpl in *.
        split; assumption.
      * unfold freshUUID, retX. intros [= <- <-]. simpl.
        apply (ids_in_order_push n0 (sessions st1) _ w1 Hinv1). reflexivity.
    + unfold freshUUID, retX. intros [= <- <-]. simpl.
      apply (ids_in_order_push n0 (sessions st1) _ w1 Hinv1). reflexivity.
  - unfold activeEvent. destruct (currentSession st) as [cur|].
    + destruct (last (acc_events cur)) as [prev|]; [|discriminate].
      unfold bindX, liftX.
      pose proof (shouldMergeEvents_draws prev e w) as Hdraws.
      destruct (shouldMergeEvents env prev e w) as [d w1]. simpl in Hdraws.
      assert (Hinv1 : ids_in_order env n0 (sessions st) w1).
      { destruct Hinv as [Hids Hd]. split; [assumption|congruence]. }
      destruct (mergeAccepted d).
      * unfold retX. intros [= <- <-]. assumption.
      * destruct (finalizeSession env cur w1) as [[s w2]|] eqn:Hfin; [|discriminate].
        apply finalizeSession_world in Hfin as (-> & Hid & _).
        unfold retX. intros [= <- <-]. simpl. apply ids_in_order_push; assumption.
    + unfold retX. intros [= <- <-]. assumption.
Qed.

Lemma loop_ids n0 evs : forall st w st' w',
  ids_in_order env n0 (sessions st) w ->
  loop env evs st w = Some (st', w') ->
  ids_in_order env n0 (sessions st') w'.
Proof.
  induction evs as [|e rest IH]; intros st w st' w' Hinv; simpl.
  - unfold retX. intros [= <- <-]. assumption.
  - unfold bindX. destruct (step env e st w) as [[st1 w1]|] eqn:Hstep; [|discriminate].
    apply IH. eapply step_ids; eauto.
Qed.

Lemma ListNoDup_map_seq {B} (f : nat -> B) (n0 len : nat) :
  (forall i j, f i = f j -> i = j) -> List.NoDup (map f (seq n0 len)).
Proof.
  intros Hinj. revert n0. induction len as [|len IH]; intros n0; simpl; [constructor|].
  constructor; [|apply IH].
  intros Hin. apply in_map_iff in Hin as (j & Hj & Hin).
  apply Hinj in Hj. subst j. apply in_seq in Hin. lia.
Qed.

End Worlds.

(** X4.  The identifiers of the output of [aggregateToSessions] are the
    values [randomUUID] yields during the run, one for each session, in the
    order of the sessions; the run draws exactly as many values as it returns
    sessions, so the identifiers are pairwise distinct whenever the drawn
    values are. *)
Theorem session_ids_fresh (env : Env) (evs : list Event) (w : World) :
  exists ss w',
    aggregateToSessions env evs w = Some (ss, w') /\
    map s_id ss = map (randomUUID env) (seq (uuid_draws w) (length ss)) /\
    uuid_draws w' = (uuid_draws w + length ss)%nat /\
    ((forall i j, randomUUID env i = randomUUID env j -> i = j) ->
     List.NoDup (map s_id ss)).
Proof.
  destruct (aggregate_Steps env evs w) as (ss & w' & st & Hagg & _).
  exists ss, w'. split; [assumption|].
  assert (Hinv : ids_in_order env (uuid_draws w) ss w').
  { revert Hagg. unfold aggregateToSessions. destruct evs as [|e rest].
    - unfold retX. intros [= <- <-]. split; [reflexivity|simpl; lia].
    - unfold bindX.
      destruct (loop env (e :: rest) (mkLoop [] None) w) as [[st1 w1]|] eqn:Hloop;
        [|discriminate].
      destruct (closeCurrent env st1 w1) as [[st2 w2]|] eqn:Hclose; [|discriminate].
      unfold retX. intros [= <- <-].
      eapply closeCurrent_ids; [|exact Hclose].
      eapply loop_ids; [|exact Hloop].
      split; [reflexivity|simpl; lia]. }
  destruct Hinv as [Hids Hdraws]. split; [assumption|]. split; [assumption|].
  intros Hinj. rewrite Hids. apply ListNoDup_map_seq. assumption.
Qed.

(** ** What a run does to the decision cache *)

Section WorldWise.

Variable env : Env.
Variable R : World -> World -> Prop.

Hypothesis R_refl : forall w, R w w.
Hypothesis R_trans : forall w1 w2 w3, R w1 w2 -> R w2 w3 -> R w1 w3.
Hypothesis R_drawn : forall w, R w (drawn w).
Hypothesis R_decision : forall prev curr w, R w (shouldMergeEvents env prev curr w).2.

Lemma closeCurrent_worldwise st w st1 w1 :
  closeCurrent env st w = Some (st1, w1) -> R w w1.
Proof.
  unfold closeCurrent. destruct (currentSession st) as [cur|].
  - destruct (0 <? length (acc_events cur))%nat.
    + unfold bindX. destruct (finalizeSession env cur w) as [[s w2]|] eqn:Hfin;
        [|discriminate].
      apply finalizeSession_world in Hfin as (-> & _).
      unfold retX. intros [= <- <-]. apply R_drawn.
    + unfold retX. intros [= <- <-]. apply R_refl.
  - unfold retX. intros [= <- <-]. apply R_refl.
Qed.

Lemma step_worldwise e st w st' w' :
  step env e st w = Some (st', w') -> R w w'.
Proof.
  unfold step. destruct (isIdle e).
  - unfold idleEvent, bindX.
    destruct (closeCurrent env st w) as [[st1 w1]|] eqn:Hclose; [|discriminate].
    apply closeCurrent_worldwise in Hclose.
    destruct (last (sessions st1)) as [ls|].
    + destruct (bool_decide (s_type ls = Idle)).
      * unfold retX. intros [= <- <-]. assumption.
      * unfold freshUUID, retX. intros [= <- <-].
        apply (R_trans _ _ _ Hclose). apply R_drawn.
    + unfold freshUUID, retX. intros [= <- <-].
      apply (R_trans _ _ _ Hclose). apply R_drawn.
  - unfold activeEvent. destruct (currentSession st) as [cur|].
    + destruct (last (acc_events cur)) as [prev|]; [|discriminate].
      unfold bindX, liftX.
      pose proof (R_decision prev e w) as Hd.
      destruct (shouldMergeEvents env prev e w) as [d w1]. simpl in Hd.
      destruct (mergeAccepted d).
      * unfold retX. intros [= <- <-]. assumption.
      * destruct (finalizeSession env cur w1) as [[s w2]|] eqn:Hfin; [|discriminate].
        apply finalizeSession_world in Hfin as (-> & _).
        unfold retX. intros [= <- <-].
        apply (R_trans _ _ _ Hd). apply R_drawn.
    + unfold retX. intros [= <- <-]. apply R_refl.
Qed.

Lemma loop_worldwise evs : forall st w st' w',
  loop env evs st w = Some (st', w') -> R w w'.
Proof.
  induction evs as [|e rest IH]; intros st w st' w'; simpl.
  - unfold retX. intros [= <- <-]. apply R_refl.
  - unfold bindX. destruct (step env e st w) as [[st1 w1]|] eqn:Hstep; [|discriminate].
    intros Hloop. apply (R_trans _ w1).
    + eapply step_worldwise; eauto.
    + eapply IH; eauto.
Qed.

Lemma aggregate_worldwise evs w ss w' :
  aggregateToSessions env evs w = Some (ss, w') -> R w w'.
Proof.
  unfold aggregateToSessions. destruct evs as [|e rest].
  - unfold retX. intros [= <- <-]. apply R_refl.
  - unfold bindX.
    destruct (loop env (e :: rest) (mkLoop [] None) w) as [[st1 w1]|] eqn:Hloop;
      [|discriminate].
    destruct (closeCurrent env st1 w1) as [[st2 w2]|] eqn:Hclose; [|discriminate].
    unfold retX. intros [= <- <-].
    apply (R_trans _ w1).
    + eapply loop_worldwise; eauto.
    + eapply closeCurrent_worldwise; eauto.
Qed.

End WorldWise.

Lemma decideByCategory_cache_grows (env : Env) (prev curr : Event) (w : World) :
  aiDecisionCache w ⊆ aiDecisionCache (decideByCategory env prev curr w).2.
Proof.
  unfold decideByCategory.
  destruct (truthy_opt _ && truthy_opt _).
  - destruct (String.eqb _ _); reflexivity.
  - destruct (aiDecisionCache w !! buildCacheKey env prev curr) eqn:Hkey; [reflexivity|].
    destruct (ai_available env); [|reflexivity].
    unfold bind, askAIForBoundary, cache_set, createOrUpdateSuggestion, ret.
    destruct (classify env _ _ _); simpl.
    + destruct (_ && _); simpl; [destruct (suggestion_stored env _); simpl|];
        apply insert_subseteq; assumption.
    + apply insert_subseteq; assumption.
Qed.

Lemma shouldMergeEvents_cache_grows (env : Env) (prev curr : Event) (w : World) :
  aiDecisionCache w ⊆ aiDecisionCache (shouldMergeEvents env prev curr w).2.
Proof.
  unfold shouldMergeEvents.
  repeat match goal with
         | |- context [if ?b then _ else _] => destruct b
         end;
    try reflexivity; apply decideByCategory_cache_grows.
Qed.

Lemma decideByCategory_offline (env : Env) (prev curr : Event) (w : World) :
  ai_available env = false -> (decideByCategory env prev curr w).2 = w.
Proof.
  intros Hai. unfold decideByCategory.
  destruct (truthy_opt _ && truthy_opt _).
  - destruct (String.eqb _ _); reflexivity.
  - destruct (aiDecisionCache w !! _); [reflexivity|]. rewrite Hai. reflexivity.
Qed.

Lemma shouldMergeEvents_offline (env : Env) (prev curr : Event) (w : World) :
  ai_available env = false -> (shouldMergeEvents env prev curr w).2 = w.
Proof.
  intros Hai. unfold shouldMergeEvents.
  repeat match goal with
         | |- context [if ?b then _ else _] => destruct b
         end;
    try reflexivity; apply decideByCategory_offline; assumption.
Qed.

(** X5.  A run of [aggregateToSessions] never removes or overwrites an entry
    of the decision cache: every entry of the cache before the run is in the
    cache after it.  When no classifier is available the run leaves the
    cache, the count of classifier calls and the recorded suggestions as they
    were. *)
Theorem run_keeps_cache (env : Env) (evs : list Event) (w : World) :
  exists ss w',
    aggregateToSessions env evs w = Some (ss, w') /\
    aiDecisionCache w ⊆ aiDecisionCache w' /\
    (ai_available env = false ->
     aiDecisionCache w' = aiDecisionCache w /\ ai_calls w' = ai_calls w /\
     suggestions w' = suggestions w).
Proof.
  destruct (aggregate_Steps env evs w) as (ss & w' & st & Hagg & _).
  exists ss, w'. split; [assumption|]. split.
  - apply (aggregate_worldwise env
             (fun w1 w2 => aiDecisionCache w1 ⊆ aiDecisionCache w2)) with evs ss;
      [| | | |exact Hagg].
    + intros w1. simpl. reflexivity.
    + intros w1 w2 w3 H1 H2. simpl in *. etransitivity; eassumption.
    + intros w1. simpl. reflexivity.
    + apply shouldMergeEvents_cache_grows.
  - intros Hai.
    apply (aggregate_worldwise env
             (fun w1 w2 => aiDecisionCache w2 = aiDecisionCache w1 /\
                           ai_calls w2 = ai_calls w1 /\
                           suggestions w2 = suggestions w1)) with evs ss;
      [| | | |exact Hagg].
    + auto.
    + intros w1 w2 w3 (H1 & H2 & H3) (H4 & H5 & H6). repeat split; congruence.
    + intros w1. simpl. auto.
    + intros p c w1. rewrite (shouldMergeEvents_offline env p c w1 Hai). auto.
Qed.

(** ** Decisions asked twice *)

Lemma decideByCategory_again (env : Env) (prev curr : Event) (w : World) :
  let first := decideByCategory env prev curr w in
  let second := decideByCategory env prev curr first.2 in
  second.2 = first.2 /\
  (second.1 = first.1 \/
   (suggestion_stored env (length (suggestions w)) = false /\
    first.1 = conservativeSplit /\
    aiDecisionCache first.2 !! buildCacheKey env prev curr = Some second.1)).
Proof.
  unfold decideByCategory.
  destruct (truthy_opt _ && truthy_opt _).
  - destruct (String.eqb _ _); simpl; auto.
  - destruct (aiDecisionCache w !! buildCacheKey env prev curr) as [cached|] eqn:Hkey.
    + simpl. rewrite Hkey. simpl. auto.
    + destruct (ai_available env) eqn:Hai.
      * unfold bind, askAIForBoundary, cache_set, createOrUpdateSuggestion, ret.
        destruct (classify env _ _ _); simpl.
        -- destruct (_ && _); simpl.
           ++ destruct (suggestion_stored env (length (suggestions w))) eqn:Hst;
                simpl; rewrite lookup_insert_eq; simpl; auto.
           ++ rewrite lookup_insert_eq. simpl. auto.
        -- rewrite lookup_insert_eq. simpl. auto.
      * simpl. rewrite Hkey. simpl. auto.
Qed.

(** X6.  A boundary decision asked a second time, in the world the first
    call left, changes nothing: the second call neither touches the cache,
    nor calls the classifier, nor hands over a suggestion.  It returns the
    decision of the first call, with one exception: when the suggestion write
    of the first call was refused, the first call answered the conservative
    split and the second answers the classifier's decision, which the first
    call had put in the cache before the write. *)
Theorem decision_repeats (env : Env) (prev curr : Event) (w : World) :
  let first := shouldMergeEvents env prev curr w in
  let second := shouldMergeEvents env prev curr first.2 in
  second.2 = first.2 /\
  (second.1 = first.1 \/
   (suggestion_stored env (length (suggestions w)) = false /\
    first.1 = conservativeSplit /\
    aiDecisionCache first.2 !! buildCacheKey env prev curr = Some second.1)).
Proof.
  unfold shouldMergeEvents.
  repeat match goal with
         | |- context [if ?b then _ else _] => destruct b
         end;
    try (simpl; auto; fail); apply decideByCategory_again.
Qed.

(** The exception occurs: the store refuses the write,
    the first call splits with confidence 0.5 and the second merges on the
    cached answer. *)
Example refused_write_then_cached :
  let env := Fixtures.classifierEnv (fun _ => false) in
  let first := shouldMergeEvents env (Fixtures.activeAt 0 "Mail" 5)
                 (Fixtures.activeAt 2000 "Spotify" 5) Fixtures.emptyWorld in
  let second := shouldMergeEvents env (Fixtures.activeAt 0 "Mail" 5)
                  (Fixtures.activeAt 2000 "Spotify" 5) first.2 in
  first.1 = conservativeSplit /\
  (shouldMerge second.1, confidence second.1, reason second.1)
  = (true, 0.9%Q, "same task") /\
  second.2 = first.2.
Proof. vm_compute. auto. Qed.

Lemma decideByCategory_static (env : Env) (prev curr : Event) (w : World) :
  ai_available env = false ->
  aiDecisionCache w = ∅ ->
  mergeAccepted (decideByCategory env prev curr w).1
  = shouldMerge (decideByCategory env prev curr w).1 /\
  In (confidence (decideByCategory env prev curr w).1) [1.0; 0.9; 0.85; 0.75; 0.5]%Q.
Proof.
  intros Hai Hcache. unfold decideByCategory.
  destruct (truthy_opt _ && truthy_opt _).
  - destruct (String.eqb _ _); (split; [reflexivity|simpl; tauto]).
  - rewrite Hcache, lookup_empty, Hai. split; [reflexivity|simpl; tauto].
Qed.

(** X7.  With an empty decision cache and no classifier, the confidence of a
    boundary decision is one of 1.0, 0.9, 0.85, 0.75 and 0.5, and every merge
    recommendation passes the threshold of the aggregator: the events are
    merged exactly when [shouldMerge] is true. *)
Theorem static_decisions_pass_threshold (env : Env) (prev curr : Event) (w : World) :
  ai_available env = false ->
  aiDecisionCache w = ∅ ->
  let decision := (shouldMergeEvents env prev curr w).1 in
  mergeAccepted decision = shouldMerge decision /\
  In (confidence decision) [1.0; 0.9; 0.85; 0.75; 0.5]%Q.
Proof.
  intros Hai Hcache. unfold shouldMergeEvents.
  repeat match goal with
         | |- context [if ?b then _ else _] => destruct b
         end;
    try (split; [reflexivity|simpl; tauto]);
    apply decideByCategory_static; assumption.
Qed.

Lemma static_decisions_pass_threshold_witness :
  let decision :=
    (shouldMergeEvents (Fixtures.plainEnv (Some Fixtures.devLookup))
       (Fixtures.activeAt 0 "Cursor" 5) (Fixtures.activeAt 2000 "Ghostty" 5)
       Fixtures.emptyWorld).1 in
  mergeAccepted decision = shouldMerge decision /\
  In (confidence decision) [1.0; 0.9; 0.85; 0.75; 0.5]%Q.
Proof.
  apply (static_decisions_pass_threshold (Fixtures.plainEnv (Some Fixtures.devLookup)));
    reflexivity.
Defined.

(** ** Relatedness *)

Lemma existsb_ext_eq {A} (f g : A -> bool) (l : list A) :
  (forall x, f x = g x) -> existsb f l = existsb g l.
Proof. intros H. induction l as [|a l IH]; simpl; [reflexivity|]. rewrite H, IH. reflexivity. Qed.

(** X8.  Relatedness does not depend on the order of the pair: for
    applications ([areAppsRelated]) and for URLs ([areUrlsRelated]). *)
Theorem relatedness_symmetric (env : Env) :
  (forall app1 app2, areAppsRelated app1 app2 = areAppsRelated app2 app1) /\
  (forall url1 url2, areUrlsRelated env url1 url2 = areUrlsRelated env url2 url1).
Proof.
  split.
  - intros app1 app2. unfold areAppsRelated. apply existsb_ext_eq.
    intros group. apply andb_comm.
  - intros url1 url2. unfold areUrlsRelated.
    rewrite (orb_comm (negb (truthy_opt url1))).
    destruct (negb (truthy_opt url2) || negb (truthy_opt url1)); [reflexivity|].
    destruct (extractDomain env url1) as [d1|], (extractDomain env url2) as [d2|];
      try reflexivity.
    rewrite (orb_comm (negb (truthy d1))).
    destruct (negb (truthy d2) || negb (truthy d1)); [reflexivity|].
    rewrite (String.eqb_sym d1 d2). destruct (String.eqb d2 d1); [reflexivity|].
    apply existsb_ext_eq. intros group. apply andb_comm.
Qed.

(** ** Streams that stay in place, streams with long gaps *)

Section Streams.

Variable env : Env.

Lemma shouldMerge_same_place prev curr w :
  isIdle prev = false -> same_place env prev curr ->
  exists d, shouldMergeEvents env prev curr w = (d, w) /\ mergeAccepted d = true.
Proof.
  intros Hidle (Hgap & Happ & Hdom). unfold shouldMergeEvents.
  replace (MAX_SESSION_GAP * 1000 <? timestamp curr - timestamp prev) with false
    by (symmetry; apply Z.ltb_ge; assumption).
  rewrite Hidle. simpl.
  replace (String.eqb (appName prev) (appName curr)) with true
    by (symmetry; apply String.eqb_eq; assumption).
  destruct (isBrowser (appName prev) && truthy_opt (url prev) && truthy_opt (url curr)).
  - rewrite (Hdom eq_refl). rewrite bool_decide_eq_true_2 by reflexivity.
    eexists. split; reflexivity.
  - eexists. split; reflexivity.
Qed.

Lemma shouldMerge_far_apart prev curr w :
  far_apart prev curr ->
  exists d, shouldMergeEvents env prev curr w = (d, w) /\ mergeAccepted d = false.
Proof.
  intros Hgap. unfold shouldMergeEvents.
  replace (MAX_SESSION_GAP * 1000 <? timestamp curr - timestamp prev) with true
    by (symmetry; apply Z.ltb_lt; assumption).
  eexists. split; reflexivity.
Qed.

Lemma loop_same_place rest : forall cur prev w,
  last (acc_events cur) = Some prev -> isIdle prev = false ->
  acc_apps cur = [appName prev] ->
  Forall (fun e => isIdle e = false) rest ->
  chain (same_place env) (prev :: rest) ->
  exists cur',
    loop env rest (mkLoop [] (Some cur)) w = Some (mkLoop [] (Some cur'), w) /\
    head (acc_events cur') = head (acc_events cur) /\
    last (acc_events cur') = last (prev :: rest) /\
    acc_apps cur' = [appName prev].
Proof.
  induction rest as [|e rest IH]; intros cur prev w Hlast Hidle Happs Hall Hch.
  - exists cur. simpl. auto.
  - inversion Hall as [|? ? He Hrest]; subst.
    assert (Hpe : same_place env prev e) by (destruct rest; simpl in Hch; tauto).
    destruct (shouldMerge_same_place prev e w Hidle Hpe) as (d & Hd & Hacc).
    destruct (IH (mergeEvent env cur prev e) e w) as (cur' & Hloop & Hhead & Hl & Ha).
    + simpl. apply last_snoc.
    + assumption.
    + simpl. rewrite Happs. destruct Hpe as (_ & <- & _).
      unfold set_add, in_list. simpl. rewrite String.eqb_refl. reflexivity.
    + assumption.
    + apply (chain_tail _ _ _ Hch).
    + exists cur'. split; [|split; [|split]].
      * simpl. unfold bindX, step. rewrite He. unfold activeEvent. simpl.
        rewrite Hlast. unfold bindX, liftX. rewrite Hd, Hacc. unfold retX. exact Hloop.
      * rewrite Hhead. simpl. destruct (acc_events cur); [discriminate|reflexivity].
      * rewrite Hl. rewrite last_cons_cons. reflexivity.
      * rewrite Ha. destruct Hpe as (_ & <- & _). reflexivity.
Qed.

Lemma loop_far_apart rest : forall prev ss w,
  Forall (fun e => isIdle e = false) rest ->
  chain far_apart (prev :: rest) ->
  exists ss' lastEvent w',
    loop env rest (mkLoop ss (Some (openSession env prev))) w
    = Some (mkLoop ss' (Some (openSession env lastEvent)), w') /\
    last (prev :: rest) = Some lastEvent /\
    map outline ss' = map outline ss ++ map alone (removelast (prev :: rest)) /\
    aiDecisionCache w' = aiDecisionCache w /\ ai_calls w' = ai_calls w.
Proof.
  induction rest as [|e rest IH]; intros prev ss w Hall Hch.
  - exists ss, prev, w. simpl. rewrite app_nil_r. auto.
  - inversion Hall as [|? ? He Hrest]; subst.
    assert (Hpe : far_apart prev e) by (destruct rest; simpl in Hch; tauto).
    destruct (shouldMerge_far_apart prev e w Hpe) as (d & Hd & Hacc).
    destruct (IH e (ss ++ [finalized (randomUUID env (uuid_draws w))
                             (openSession env prev) prev prev]) (drawn w) Hrest
                (chain_tail _ _ _ Hch))
      as (ss' & lastEvent & w' & Hloop & Hlast & Hmap & Hcache & Hcalls).
    exists ss', lastEvent, w'. split; [|split; [|split; [|split]]].
    + simpl. unfold bindX, step. rewrite He. unfold activeEvent. simpl.
      unfold bindX, liftX. rewrite Hd, Hacc.
      unfold finalizeSession. simpl. unfold bindX, freshUUID, retX. exact Hloop.
    + rewrite last_cons_cons. assumption.
    + rewrite Hmap, map_app, <- app_assoc. reflexivity.
    + rewrite Hcache. reflexivity.
    + rewrite Hcalls. reflexivity.
Qed.

End Streams.

(** X9.  A stream of active events that stays in place (consecutive events
    at most five minutes apart, in one application and, for a browser showing
    URLs, on one domain) is aggregated into a single active session, from
    the first timestamp to the end of the last event, naming that one
    application; no boundary decision consults the cache-or-classifier path,
    and the world changes by the one UUID drawn. *)
Theorem stream_in_place_is_one_session (env : Env) (first : Event) (rest : list Event)
    (w : World) :
  Forall (fun e => isIdle e = false) (first :: rest) ->
  chain (same_place env) (first :: rest) ->
  exists s lastEvent,
    aggregateToSessions env (first :: rest) w = Some ([s], drawn w) /\
    last (first :: rest) = Some lastEvent /\
    s_type s = Active /\
    s_start s = timestamp first /\
    s_end s = timestamp lastEvent + durationOr5 lastEvent * 1000 /\
    s_apps s = Some [appName first].
Proof.
  intros Hall Hch. inversion Hall as [|? ? Hfirst Hrest]; subst.
  destruct (loop_same_place env rest (openSession env first) first w)
    as (cur' & Hloop & Hhead & Hlast & Happs); auto.
  destruct (last (first :: rest)) as [lastEvent|] eqn:Hl.
  2: { apply last_None in Hl. discriminate. }
  simpl in Hhead.
  exists (finalized (randomUUID env (uuid_draws w)) cur' first lastEvent), lastEvent.
  split; [|simpl; rewrite Happs; auto].
  unfold aggregateToSessions, bindX.
  change (loop env (first :: rest) (mkLoop [] None) w)
    with (bindX (step env first (mkLoop [] None)) (fun st' => loop env rest st') w).
  unfold bindX, step. rewrite Hfirst. simpl. unfold retX. rewrite Hloop.
  unfold closeCurrent. simpl.
  destruct (acc_events cur') as [|e0 l0] eqn:Hev; [discriminate|]. simpl.
  unfold bindX, finalizeSession. rewrite Hev. rewrite Hlast.
  simpl in Hhead. injection Hhead as ->. reflexivity.
Qed.

Lemma stream_in_place_is_one_session_witness :
  exists s lastEvent,
    aggregateToSessions (Fixtures.plainEnv None)
      [Fixtures.activeAt 0 "Mail" 5; Fixtures.activeAt 5000 "Mail" 5;
       Fixtures.activeAt 200000 "Mail" 5] Fixtures.emptyWorld
    = Some ([s], drawn Fixtures.emptyWorld) /\
    last [Fixtures.activeAt 0 "Mail" 5; Fixtures.activeAt 5000 "Mail" 5;
          Fixtures.activeAt 200000 "Mail" 5] = Some lastEvent /\
    s_type s = Active /\
    s_start s = timestamp (Fixtures.activeAt 0 "Mail" 5) /\
    s_end s = timestamp lastEvent + durationOr5 lastEvent * 1000 /\
    s_apps s = Some [appName (Fixtures.activeAt 0 "Mail" 5)].
Proof.
  apply (stream_in_place_is_one_session (Fixtures.plainEnv None)).
  - repeat constructor.
  - unfold same_place. simpl. repeat split; try reflexivity; try discriminate;
      vm_compute; discriminate.
Defined.

(** X10.  A stream of active events each more than five minutes after the
    one before is aggregated into one session for each event, the session
    spanning that event alone, whatever the applications and categories; the
    decision cache is not touched and the classifier is not called. *)
Theorem stream_with_long_gaps_splits (env : Env) (evs : list Event) (w : World) :
  Forall (fun e => isIdle e = false) evs ->
  chain far_apart evs ->
  exists ss w',
    aggregateToSessions env evs w = Some (ss, w') /\
    map outline ss = map alone evs /\
    aiDecisionCache w' = aiDecisionCache w /\ ai_calls w' = ai_calls w.
Proof.
  intros Hall Hch. destruct evs as [|first rest].
  - exists [], w. auto.
  - inversion Hall as [|? ? Hfirst Hrest]; subst.
    destruct (loop_far_apart env rest first [] w Hrest Hch)
      as (ss' & lastEvent & w' & Hloop & Hlast & Hmap & Hcache & Hcalls).
    exists (ss' ++ [finalized (randomUUID env (uuid_draws w'))
                      (openSession env lastEvent) lastEvent lastEvent]), (drawn w').
    split; [|split; [|auto]].
    + unfold aggregateToSessions, bindX.
      change (loop env (first :: rest) (mkLoop [] None) w)
        with (bindX (step env first (mkLoop [] None)) (fun st' => loop env rest st') w).
      unfold bindX, step. rewrite Hfirst. simpl. unfold retX. rewrite Hloop.
      reflexivity.
    + rewrite map_app, Hmap.
      apply last_Some in Hlast as [l' Hl']. rewrite Hl', removelast_last, map_app.
      reflexivity.
Qed.

Lemma stream_with_long_gaps_splits_witness :
  exists ss w',
    aggregateToSessions (Fixtures.plainEnv None)
      [Fixtures.activeAt 0 "Mail" 5; Fixtures.activeAt 400000 "Mail" 5]
      Fixtures.emptyWorld = Some (ss, w') /\
    map outline ss
    = map alone [Fixtures.activeAt 0 "Mail" 5; Fixtures.activeAt 400000 "Mail" 5] /\
    aiDecisionCache w' = aiDecisionCache Fixtures.emptyWorld /\
    ai_calls w' = ai_calls Fixtures.emptyWorld.
Proof.
  apply (stream_with_long_gaps_splits (Fixtures.plainEnv None)).
  - repeat constructor.
  - unfold far_apart. simpl. split; [reflexivity|exact I].
Defined.

(** ** Number of sessions *)

Lemma Grow_length e I I' :
  Grow e I I' -> (length I <= length I' <= length I + 1)%nat /\ I' <> [].
Proof.
  intros [|I0 s en x -> Hx].
  - rewrite length_app. simpl. split; [lia|]. destruct I; discriminate.
  - rewrite !length_app. simpl. split; [lia|]. destruct I0; discriminate.
Qed.

Lemma Steps_length env evs st st' :
  Steps env evs st st' ->
  (length (ranges st) <= length (ranges st') <= length (ranges st) + length evs)%nat /\
  (evs <> [] -> ranges st' <> []).
Proof.
  induction 1 as [st|e rest st st1 st2 Hok HS HSs [IHlen IHne]].
  - simpl. split; [lia|]. intros H. contradiction.
  - destruct (Grow_length e _ _ (Step_Grow env e st st1 Hok HS)) as [Hlen Hne].
    simpl. split; [lia|]. intros _.
    destruct rest as [|e2 rest].
    + inversion HSs; subst. assumption.
    + apply IHne. discriminate.
Qed.

(** X11.  [aggregateToSessions] returns at most one session for each input
    event, and an empty list exactly on the empty input. *)
Theorem sessions_bounded_by_events (env : Env) (evs : list Event) (w : World) :
  exists ss w',
    aggregateToSessions env evs w = Some (ss, w') /\
    (length ss <= length evs)%nat /\
    (ss = [] <-> evs = []).
Proof.
  destruct (aggregate_Steps env evs w) as (ss & w' & st & Hagg & HSs & Hok & HC).
  exists ss, w'. split; [assumption|].
  pose proof (Closed_ranges st ss HC) as Hr.
  destruct (Steps_length env evs initial st HSs) as [Hlen Hne].
  assert (Hss : length ss = length (ranges st)).
  { rewrite <- Hr, length_map. reflexivity. }
  split; [simpl in Hlen; lia|]. split.
  - intros ->. destruct evs as [|e rest]; [reflexivity|]. exfalso.
    apply Hne; [discriminate|]. destruct (ranges st); [reflexivity|discriminate].
  - intros ->. simpl in Hlen. destruct ss; [reflexivity|simpl in Hss; lia].
Qed.

(** ** The category snapshot *)

Lemma fold_insert_lookup {A} (key : A -> option string) (val : A -> string)
    (step : gmap string string -> A -> gmap string string)
    (rows : list A) (name : string) :
  (forall m r, step m r = match key r with
                          | Some k => <[k := val r]> m
                          | None => m
                          end) ->
  forall m0 : gmap string string,
  fold_left step rows m0 !! name
  = match last (List.filter (fun r => bool_decide (key r = Some name)) rows) with
    | Some r => Some (val r)
    | None => m0 !! name
    end.
Proof.
  intros Hstep. induction rows as [|r rows IH]; intros m0; simpl; [reflexivity|].
  rewrite IH, Hstep. destruct (bool_decide (key r = Some name)) eqn:Hk.
  - apply bool_decide_eq_true in Hk. rewrite Hk, last_cons.
    destruct (last (List.filter _ rows)); [reflexivity|].
    apply lookup_insert_eq.
  - apply bool_decide_eq_false in Hk.
    destruct (last (List.filter _ rows)); [reflexivity|].
    destruct (key r) as [k|]; [|reflexivity].
    apply lookup_insert_ne. congruence.
Qed.

Lemma fold_left_pair {A S1 S2} (f1 : S1 -> A -> S1) (f2 : S2 -> A -> S2) (l : list A) :
  forall s1 s2,
    fold_left (fun (s : S1 * S2) a => (f1 s.1 a, f2 s.2 a)) l (s1, s2)
    = (fold_left f1 l s1, fold_left f2 l s2).
Proof.
  induction l as [|a l IH]; intros s1 s2; simpl; [reflexivity|]. apply IH.
Qed.

Lemma filter_ext_eq {A} (f g : A -> bool) (l : list A) :
  (forall x, f x = g x) -> List.filter f l = List.filter g l.
Proof.
  intros H. induction l as [|a l IH]; simpl; [reflexivity|]. rewrite H, IH. reflexivity.
Qed.

Lemma fold_push_patterns (rows : list DomainCategory) : forall pats,
  fold_left (fun (pats : list (string * string)) domain =>
               match dc_pattern domain with
               | Some p => if truthy p then pats ++ [(p, dc_category domain)] else pats
               | None => pats
               end) rows pats
  = pats ++ pattern_rows rows.
Proof.
  induction rows as [|r rows IH]; intros pats; simpl.
  - rewrite app_nil_r. reflexivity.
  - rewrite IH. destruct (dc_pattern r) as [p|]; [|reflexivity].
    destruct (truthy p); [|reflexivity]. rewrite <- app_assoc. reflexivity.
Qed.

Lemma snapshot_lookups (allApps : list AppCategory) (allDomains : list DomainCategory) :
  (forall name,
     apps (getCategoryLookupMaps allApps allDomains) !! name
     = app_row_category allApps name) /\
  (forall b, truthy b = true ->
     bundles (getCategoryLookupMaps allApps allDomains) !! b
     = bundle_row_category allApps b) /\
  bundles (getCategoryLookupMaps allApps allDomains) !! "" = None /\
  (forall d,
     domains (getCategoryLookupMaps allApps allDomains) !! d
     = domain_row_category allDomains d) /\
  domainPatterns (getCategoryLookupMaps allApps allDomains) = pattern_rows allDomains.
Proof.
  unfold getCategoryLookupMaps. simpl.
  rewrite (fold_left_pair
             (fun (m : gmap string string) app => <[ac_appName app := ac_category app]> m)
             (fun (m : gmap string string) app =>
                match ac_bundleId app with
                | Some b => if truthy b then <[b := ac_category app]> m else m
                | None => m
                end)).
  rewrite (fold_left_pair
             (fun (m : gmap string string) domain =>
                <[dc_domain domain := dc_category domain]> m)
             (fun (pats : list (string * string)) domain =>
                match dc_pattern domain with
                | Some p => if truthy p then pats ++ [(p, dc_category domain)] else pats
                | None => pats
                end)).
  simpl. split; [|split; [|split; [|split]]].
  - intros name. unfold app_row_category.
    rewrite (fold_insert_lookup (fun r => Some (ac_appName r)) ac_category)
      by reflexivity.
    rewrite (filter_ext_eq _ (fun r => String.eqb (ac_appName r) name)).
    + destruct (last _); reflexivity.
    + intros r. destruct (String.eqb (ac_appName r) name) eqn:H.
      * apply String.eqb_eq in H. apply bool_decide_eq_true_2. congruence.
      * apply String.eqb_neq in H. apply bool_decide_eq_false_2. congruence.
  - intros b Hb. unfold bundle_row_category.
    rewrite (fold_insert_lookup
               (fun r => match ac_bundleId r with
                         | Some b' => if truthy b' then Some b' else None
                         | None => None
                         end) ac_category).
    2: { intros m r. destruct (ac_bundleId r) as [b'|]; [|reflexivity].
         destruct (truthy b'); reflexivity. }
    rewrite (filter_ext_eq _ (fun r => bool_decide (ac_bundleId r = Some b))).
    + destruct (last _); reflexivity.
    + intros r. destruct (ac_bundleId r) as [b'|]; [|reflexivity].
      destruct (truthy b') eqn:Hb'; [reflexivity|].
      rewrite bool_decide_eq_false_2 by discriminate.
      symmetry. apply bool_decide_eq_false_2. intros [= ->]. congruence.
  - rewrite (fold_insert_lookup
               (fun r => match ac_bundleId r with
                         | Some b' => if truthy b' then Some b' else None
                         | None => None
                         end) ac_category).
    2: { intros m r. destruct (ac_bundleId r) as [b'|]; [|reflexivity].
         destruct (truthy b'); reflexivity. }
    rewrite (filter_ext_eq _ (fun _ => false)).
    + assert (Hnil : forall l : list AppCategory, List.filter (fun _ => false) l = []).
      { induction l; simpl; auto. }
      rewrite Hnil. reflexivity.
    + intros r. apply bool_decide_eq_false_2.
      destruct (ac_bundleId r) as [b'|]; [|discriminate].
      destruct (truthy b') eqn:Hb'; [|discriminate].
      intros [= ->]. discriminate.
  - intros d. unfold domain_row_category.
    rewrite (fold_insert_lookup (fun r => Some (dc_domain r)) dc_category)
      by reflexivity.
    rewrite (filter_ext_eq _ (fun r => String.eqb (dc_domain r) d)).
    + destruct (last _); reflexivity.
    + intros r. destruct (String.eqb (dc_domain r) d) eqn:H.
      * apply String.eqb_eq in H. apply bool_decide_eq_true_2. congruence.
      * apply String.eqb_neq in H. apply bool_decide_eq_false_2. congruence.
  - apply (fold_push_patterns allDomains []).
Qed.

(** X12.  In the snapshot built by [getCategoryLookupMaps] the last row
    wins: an application name, a non-empty bundle identifier and a domain
    each map to the category of the last row that carries them, and to
    nothing when no row does; rows with an empty or missing bundle identifier
    add no bundle entry; the wildcard patterns are those of the rows that
    have one, in the order of the rows. *)
Theorem snapshot_last_row_wins (allApps : list AppCategory)
    (allDomains : list DomainCategory) :
  let lk := getCategoryLookupMaps allApps allDomains in
  (forall name, apps lk !! name = app_row_category allApps name) /\
  (forall b, b <> "" -> bundles lk !! b = bundle_row_category allApps b) /\
  bundles lk !! "" = None /\
  (forall d, domains lk !! d = domain_row_category allDomains d) /\
  domainPatterns lk = pattern_rows allDomains.
Proof.
  destruct (snapshot_lookups allApps allDomains) as (Ha & Hb & He & Hd & Hp).
  simpl. split; [exact Ha|]. split; [|auto].
  intros b Hne. apply Hb. unfold truthy. apply negb_true_iff.
  apply String.eqb_neq. assumption.
Qed.

(** X13.  After [refreshCategoryLookup] on the rows of the category store,
    [getCategoryForEvent] answers the first non-empty category among: the
    last row carrying the event's bundle identifier, the last row for its
    application name, the last row for the domain of its URL, and the first
    pattern row, in row order, whose pattern matches that domain. *)
Theorem resolution_through_rows (env : Env) (allApps : list AppCategory)
    (allDomains : list DomainCategory) (event : Event) :
  getCategoryForEvent (refreshCategoryLookup env allApps allDomains) event
  = first_hit
      [ match bundleIdentifier event with
        | Some b => if truthy b then keep_truthy (bundle_row_category allApps b) else None
        | None => None
        end;
        keep_truthy (app_row_category allApps (appName event));
        match event_domain env event with
        | Some domain => keep_truthy (domain_row_category allDomains domain)
        | None => None
        end;
        match event_domain env event with
        | Some domain => first_pattern env (pattern_rows allDomains) domain
        | None => None
        end ].
Proof.
  destruct (snapshot_lookups allApps allDomains) as (Ha & Hb & He & Hd & Hp).
  unfold refreshCategoryLookup.
  remember (getCategoryLookupMaps allApps allDomains) as lk eqn:Hlk.
  unfold getCategoryForEvent, first_hit. simpl.
  unfold get_truthy. rewrite Ha, Hp.
  assert (Hbundle :
    match bundleIdentifier event with
    | Some b =>
        if truthy b
        then match bundles lk !! b with
             | Some c => if truthy c then Some c else None
             | None => None
             end
        else None
    | None => None
    end
    = match bundleIdentifier event with
      | Some b => if truthy b then keep_truthy (bundle_row_category allApps b) else None
      | None => None
      end).
  { destruct (bundleIdentifier event) as [b|]; [|reflexivity].
    destruct (truthy b) eqn:Htb; [|reflexivity]. rewrite (Hb b Htb). reflexivity. }
  rewrite Hbundle.
  destruct (match bundleIdentifier event with
            | Some b => if truthy b then keep_truthy (bundle_row_category allApps b) else None
            | None => None
            end); [reflexivity|].
  fold (keep_truthy (app_row_category allApps (appName event))).
  destruct (keep_truthy (app_row_category allApps (appName event))); [reflexivity|].
  unfold event_domain, extractDomain. simpl.
  destruct (url event) as [u|]; simpl; [|reflexivity].
  destruct (truthy u); simpl; [|reflexivity].
  destruct (url_hostname env u) as [h|]; [|reflexivity].
  destruct (truthy (strip_www h)); [|reflexivity].
  rewrite Hd. fold (keep_truthy (domain_row_category allDomains (strip_www h))).
  destruct (keep_truthy (domain_row_category allDomains (strip_www h))); [reflexivity|].
  destruct (first_pattern _ _ _); reflexivity.
Qed.

(** ** Totals and the category breakdown *)

Lemma fold_left_sum {A} (f : A -> Z) (l : list A) : forall a,
  fold_left (fun sum x => sum + f x) l a = a + sum_of f l.
Proof.
  induction l as [|x l IH]; intros a; simpl; [lia|]. rewrite IH. lia.
Qed.

Lemma sum_of_ext {A} (f g : A -> Z) (l : list A) :
  (forall x, f x = g x) -> sum_of f l = sum_of g l.
Proof.
  intros H. unfold sum_of. induction l as [|a l IH]; simpl; [reflexivity|].
  rewrite H, IH. reflexivity.
Qed.

Lemma breakdown_fold (ss : list ActivitySession) (category : string) :
  forall m : gmap string CategoryTotals,
  fold_left
    (fun breakdown session =>
       if bool_decide (s_type session = Idle) then breakdown
       else
         let category := default "other" (s_category session) in
         let entry := default (mkTotals 0 0) (breakdown !! category) in
         <[category := mkTotals (ct_duration entry + s_duration session)
                         (ct_sessions entry + 1)]> breakdown)
    ss m !! category
  = match sessions_in category ss with
    | [] => m !! category
    | l => Some (mkTotals
                   (ct_duration (default (mkTotals 0 0) (m !! category))
                    + sum_of s_duration l)
                   (ct_sessions (default (mkTotals 0 0) (m !! category))
                    + Z.of_nat (length l)))
    end.
Proof.
  induction ss as [|s ss IH]; intros m; [reflexivity|].
  simpl fold_left. rewrite IH. unfold sessions_in. simpl List.filter.
  fold (sessions_in category ss).
  destruct (s_type s) eqn:Hty.
  - rewrite (bool_decide_eq_false_2 (Active = Idle)) by discriminate.
    rewrite (bool_decide_eq_true_2 (Active = Active)) by reflexivity. simpl andb.
    destruct (String.eqb (default "other" (s_category s)) category) eqn:Hc.
    + apply String.eqb_eq in Hc. rewrite Hc, lookup_insert_eq.
      destruct (sessions_in category ss) as [|s' l]; simpl.
      * f_equal. f_equal; lia.
      * f_equal. f_equal; lia.
    + apply String.eqb_neq in Hc. rewrite lookup_insert_ne by assumption. reflexivity.
  - rewrite (bool_decide_eq_true_2 (Idle = Idle)) by reflexivity.
    rewrite (bool_decide_eq_false_2 (Idle = Active)) by discriminate. reflexivity.
Qed.

(** X14.  [computeCategoryBreakdown] files every active session under its
    category ("other" when it has none): the entry of a category holds the
    summed duration and the number of the active sessions of that category,
    and a category without active session has no entry.  Idle sessions are
    not counted. *)
Theorem category_breakdown_entries (ss : list ActivitySession) (category : string) :
  computeCategoryBreakdown ss !! category
  = match sessions_in category ss with
    | [] => None
    | l => Some (mkTotals (sum_of s_duration l) (Z.of_nat (length l)))
    end.
Proof.
  unfold computeCategoryBreakdown. rewrite breakdown_fold, lookup_empty. simpl.
  destruct (sessions_in category ss); reflexivity.
Qed.

Lemma totals_of_breakdown (ss : list ActivitySession) (category : string) :
  totals_of (computeCategoryBreakdown ss) category
  = mkTotals (sum_of s_duration (sessions_in category ss))
      (Z.of_nat (length (sessions_in category ss))).
Proof.
  unfold totals_of, computeCategoryBreakdown. rewrite breakdown_fold, lookup_empty.
  destruct (sessions_in category ss); reflexivity.
Qed.

Lemma valid_partition (ss : list ActivitySession) :
  Forall (fun s => s_type s = Active ->
                   exists c, s_category s = Some c /\ In c VALID_CATEGORIES) ss ->
  sum_of s_duration (activeSessions ss)
  = sum_of (fun c => sum_of s_duration (sessions_in c ss)) VALID_CATEGORIES /\
  Z.of_nat (length (activeSessions ss))
  = sum_of (fun c => Z.of_nat (length (sessions_in c ss))) VALID_CATEGORIES.
Proof.
  induction 1 as [|s ss Hs Hss [IHd IHn]]; [split; reflexivity|].
  unfold activeSessions, sessions_in in *. unfold sum_of in *. simpl in *.
  destruct (s_type s) eqn:Hty.
  - destruct (Hs eq_refl) as (c & Hc & Hin). rewrite Hc. simpl in Hin.
    rewrite (bool_decide_eq_true_2 (Active = Active)) by reflexivity.
    simpl. rewrite IHd.
    destruct Hin as [<- | [<- | [<- | [<- | [<- | [<- | []]]]]]]; simpl; split; lia.
  - rewrite (bool_decide_eq_false_2 (Idle = Active)) by discriminate. simpl.
    split; assumption.
Qed.

Lemma aggregate_categories_valid (env : Env) (evs : list Event) (w : World) :
  exists ss w',
    aggregateToSessions env evs w = Some (ss, w') /\
    Forall (fun s => s_type s = Active ->
                     exists c, s_category s = Some c /\ In c VALID_CATEGORIES) ss.
Proof.
  apply (aggregate_sessionwise env _ (fun _ => True) (fun _ => True)).
  - intros cur s _ (id & f & l & Hf & Hl & ->) _. simpl.
    eexists. split; [reflexivity|]. apply toActivityCategory_valid.
  - intros id e pc _ _ H. discriminate.
  - intros ls e _ _ _ Hty H. simpl in H. congruence.
  - auto.
  - auto.
  - apply List.Forall_forall. auto.
Qed.

(** X15.  On the output of [aggregateToSessions], the entries of
    [computeCategoryBreakdown] are keyed by the six categories, their
    durations add up to [totalActive], and their session counts add up to the
    number of active sessions. *)
Theorem breakdown_accounts_for_active_time (env : Env) (evs : list Event) (w : World) :
  exists ss w',
    aggregateToSessions env evs w = Some (ss, w') /\
    (forall c, is_Some (computeCategoryBreakdown ss !! c) -> In c VALID_CATEGORIES) /\
    totalActive ss
    = sum_of (fun c => ct_duration (totals_of (computeCategoryBreakdown ss) c))
        VALID_CATEGORIES /\
    Z.of_nat (length (activeSessions ss))
    = sum_of (fun c => ct_sessions (totals_of (computeCategoryBreakdown ss) c))
        VALID_CATEGORIES.
Proof.
  destruct (aggregate_categories_valid env evs w) as (ss & w' & Hagg & Hvalid).
  exists ss, w'. split; [assumption|].
  destruct (valid_partition ss Hvalid) as [Hd Hn]. split; [|split].
  - intros c [t Ht]. unfold computeCategoryBreakdown in Ht.
    rewrite breakdown_fold, lookup_empty in Ht.
    destruct (sessions_in c ss) as [|s l] eqn:Hin; [discriminate|].
    assert (Hs : In s (sessions_in c ss)) by (rewrite Hin; left; reflexivity).
    apply List.filter_In in Hs as [Hs Hc]. apply andb_true_iff in Hc as [Hty Hc].
    apply bool_decide_eq_true in Hty. apply String.eqb_eq in Hc.
    rewrite List.Forall_forall in Hvalid.
    destruct (Hvalid s Hs Hty) as (c' & Hc' & Hvalid').
    rewrite Hc' in Hc. simpl in Hc. subst c'. assumption.
  - unfold totalActive. rewrite fold_left_sum, Hd.
    rewrite Z.add_0_l. apply sum_of_ext.
    intros c. rewrite totals_of_breakdown. reflexivity.
  - rewrite Hn. apply sum_of_ext. intros c. rewrite totals_of_breakdown. reflexivity.
Qed.

Lemma aggregate_idle_timings (env : Env) (evs : list Event) (w : World) :
  exists ss w',
    aggregateToSessions env evs w = Some (ss, w') /\
    idle_timings ss = map run_timing (idle_runs evs).
Proof.
  destruct (aggregate_Steps env evs w) as (ss & w' & st & Hagg & HSs & Hok & HC).
  exists ss, w'. split; [assumption|].
  rewrite (Closed_idle_timings st ss HC).
  rewrite (Steps_idle_runs env evs initial st HSs [] []); [reflexivity|].
  left. auto.
Qed.

Lemma sum_of_map {A B} (f : B -> Z) (g : A -> B) (l : list A) :
  sum_of f (map g l) = sum_of (fun a => f (g a)) l.
Proof.
  unfold sum_of. induction l as [|a l IH]; simpl; [reflexivity|]. rewrite IH. reflexivity.
Qed.

Lemma sum_durations_app (r1 r2 : list Event) :
  sum_durations (r1 ++ r2) = sum_durations r1 + sum_durations r2.
Proof.
  unfold sum_durations. induction r1 as [|a r1 IH]; simpl; [reflexivity|].
  rewrite IH. lia.
Qed.

Lemma sum_durations_concat (runs : list (list Event)) :
  sum_of sum_durations runs = sum_durations (concat runs).
Proof.
  induction runs as [|r runs IH]; [reflexivity|].
  simpl concat. rewrite sum_durations_app, <- IH. reflexivity.
Qed.

(** X16.  The idle time reported for a run of [aggregateToSessions]
    ([totalIdle], the summed duration of the idle sessions) is the summed
    duration of the idle input events, 5 seconds for each event without
    duration: coalescing loses and adds no idle time. *)
Theorem idle_time_conserved (env : Env) (evs : list Event) (w : World) :
  exists ss w',
    aggregateToSessions env evs w = Some (ss, w') /\
    totalIdle ss = sum_durations (List.filter isIdle evs).
Proof.
  destruct (aggregate_idle_timings env evs w) as (ss & w' & Hagg & Htimings).
  exists ss, w'. split; [assumption|].
  unfold totalIdle. rewrite fold_left_sum, Z.add_0_l.
  transitivity (sum_of (fun t : Z * Z * Z => t.2) (idle_timings ss)).
  - unfold idle_timings. rewrite sum_of_map. reflexivity.
  - rewrite Htimings, sum_of_map, <- idle_runs_concat, <- sum_durations_concat.
    apply sum_of_ext. intros [|e r]; reflexivity.
Qed.

(** ** Patterns: the longest focus session *)

Lemma longest_fold (l : list ActivitySession) : forall before s seen,
  Forall (fun x => s_duration x < s_duration s) before ->
  Forall (fun x => s_duration x <= s_duration s) seen ->
  exists before' s' after',
    before ++ s :: seen ++ l = before' ++ s' :: after' /\
    fold_left
      (fun longest x =>
         match longest with
         | None => Some (focusOf x)
         | Some lf => if lf_duration lf <? s_duration x then Some (focusOf x) else longest
         end)
      l (Some (focusOf s))
    = Some (focusOf s') /\
    Forall (fun x => s_duration x < s_duration s') before' /\
    Forall (fun x => s_duration x <= s_duration s') after'.
Proof.
  induction l as [|x l IH]; intros before s seen Hb Hs.
  - exists before, s, seen. rewrite app_nil_r. auto.
  - simpl fold_left. simpl lf_duration.
    destruct (s_duration s <? s_duration x) eqn:Hlt.
    + apply Z.ltb_lt in Hlt.
      destruct (IH (before ++ s :: seen) x []) as (b' & s' & a' & Heq & Hfold & Hb' & Ha').
      * apply Forall_app. split.
        -- eapply Forall_impl; [exact Hb|]. simpl. intros y Hy. lia.
        -- constructor; [assumption|].
           eapply Forall_impl; [exact Hs|]. simpl. intros y Hy. lia.
      * constructor.
      * exists b', s', a'. split; [|auto].
        rewrite <- Heq. rewrite <- !app_assoc. reflexivity.
    + apply Z.ltb_ge in Hlt.
      destruct (IH before s (seen ++ [x])) as (b' & s' & a' & Heq & Hfold & Hb' & Ha').
      * assumption.
      * apply Forall_app. split; [assumption|]. constructor; [assumption|constructor].
      * exists b', s', a'. split; [|auto].
        rewrite <- Heq. rewrite <- !app_assoc. reflexivity.
Qed.

(** X17.  [longestFocus] is absent exactly when there is no focus session
    (an active session with a category other than "distraction"); otherwise
    it reports a focus session no shorter than any other, and the first such
    in session order: every focus session before it is strictly shorter. *)
Theorem longest_focus_is_first_maximum (ss : list ActivitySession) :
  match longestFocus ss with
  | None => focusSessions ss = []
  | Some lf =>
      exists before s after,
        focusSessions ss = before ++ s :: after /\
        lf = focusOf s /\
        Forall (fun x => s_duration x < s_duration s) before /\
        Forall (fun x => s_duration x <= s_duration s) after
  end.
Proof.
  unfold longestFocus. destruct (focusSessions ss) as [|s l]; [reflexivity|].
  simpl fold_left.
  destruct (longest_fold l [] s []) as (b' & s' & a' & Heq & Hfold & Hb' & Ha');
    [constructor|constructor|].
  rewrite Hfold. exists b', s', a'. simpl in Heq. auto.
Qed.

(** ** Patterns: the peak productivity hour *)

Lemma fold_left_skip {A S} (skip : A -> bool) (f : S -> A -> S) (l : list A) :
  forall s0,
    fold_left (fun s a => if skip a then s else f s a) l s0
    = fold_left f (List.filter (fun a => negb (skip a)) l) s0.
Proof.
  induction l as [|a l IH]; intros s0; simpl; [reflexivity|].
  destruct (skip a); simpl; apply IH.
Qed.

Lemma hour_get_set (k v q : Z) (m : list (Z * Z)) :
  hour_get q (hour_set k v m) = if k =? q then Some v else hour_get q m.
Proof.
  induction m as [|[h d] m IH]; simpl; [reflexivity|].
  destruct (h =? k) eqn:Hhk; simpl.
  - apply Z.eqb_eq in Hhk. subst h. destruct (k =? q); reflexivity.
  - rewrite IH. destruct (h =? q) eqn:Hhq; [|reflexivity].
    apply Z.eqb_eq in Hhq. subst h. rewrite Z.eqb_sym, Hhk. reflexivity.
Qed.

Lemma keys_hour_set (k v : Z) (m : list (Z * Z)) :
  map fst (hour_set k v m) = map fst m \/
  (~ In k (map fst m) /\ map fst (hour_set k v m) = map fst m ++ [k]).
Proof.
  induction m as [|[h d] m IH]; simpl.
  - right. auto.
  - destruct (h =? k) eqn:Hk; simpl.
    + left. reflexivity.
    + apply Z.eqb_neq in Hk. destruct IH as [-> | [Hnot ->]].
      * left. reflexivity.
      * right. split; [|reflexivity]. intros [? | ?]; auto.
Qed.

Lemma In_hour_get (m : list (Z * Z)) (h d : Z) :
  List.NoDup (map fst m) -> In (h, d) m -> hour_get h m = Some d.
Proof.
  induction m as [|[h0 d0] m IH]; simpl; intros Hnd Hin; [contradiction|].
  inversion Hnd; subst. destruct Hin as [[= -> ->] | Hin].
  - rewrite Z.eqb_refl. reflexivity.
  - destruct (h0 =? h) eqn:Hh; [|auto].
    apply Z.eqb_eq in Hh. subst h0. exfalso. apply H1.
    apply (in_map fst) in Hin. exact Hin.
Qed.

Lemma hour_get_In (m : list (Z * Z)) (h d : Z) :
  hour_get h m = Some d -> In (h, d) m.
Proof.
  induction m as [|[h0 d0] m IH]; simpl; [discriminate|].
  destruct (h0 =? h) eqn:Hh.
  - apply Z.eqb_eq in Hh. subst h0. intros [= ->]. left. reflexivity.
  - intros H. right. auto.
Qed.

Lemma utcHour_range (ms : Z) : 0 <= utcHour ms < 24.
Proof. unfold utcHour. apply Z.mod_pos_bound. lia. Qed.

Lemma hourly_fold (l : list ActivitySession) : forall m0,
  List.NoDup (map fst m0) -> Forall (fun h => 0 <= h < 24) (map fst m0) ->
  let m := fold_left
             (fun m s =>
                hour_set (utcHour (s_start s))
                  (default 0 (hour_get (utcHour (s_start s)) m) + s_duration s) m)
             l m0 in
  List.NoDup (map fst m) /\ Forall (fun h => 0 <= h < 24) (map fst m) /\
  (forall q, default 0 (hour_get q m)
             = default 0 (hour_get q m0)
               + sum_of s_duration (List.filter (fun s => utcHour (s_start s) =? q) l)).
Proof.
  induction l as [|s l IH]; intros m0 Hnd Hrange.
  - simpl. split; [assumption|]. split; [assumption|]. intros q. unfold sum_of. simpl. lia.
  - simpl fold_left.
    set (k := utcHour (s_start s)).
    set (v := default 0 (hour_get k m0) + s_duration s).
    assert (Hnd1 : List.NoDup (map fst (hour_set k v m0))).
    { destruct (keys_hour_set k v m0) as [-> | [Hnot ->]]; [assumption|].
      apply ListNoDup_snoc; assumption. }
    assert (Hrange1 : Forall (fun h => 0 <= h < 24) (map fst (hour_set k v m0))).
    { destruct (keys_hour_set k v m0) as [-> | [Hnot ->]]; [assumption|].
      apply Forall_app. split; [assumption|].
      constructor; [apply utcHour_range|constructor]. }
    destruct (IH (hour_set k v m0) Hnd1 Hrange1) as (Hnd2 & Hrange2 & Hsum).
    split; [assumption|]. split; [assumption|].
    intros q. rewrite Hsum, hour_get_set. simpl List.filter. fold k.
    destruct (k =? q) eqn:Hkq.
    + apply Z.eqb_eq in Hkq. subst q. unfold sum_of, v. simpl. lia.
    + lia.
Qed.

Lemma hourlyProductive_spec (ss : list ActivitySession) :
  List.NoDup (map fst (hourlyProductive ss)) /\
  Forall (fun h => 0 <= h < 24) (map fst (hourlyProductive ss)) /\
  (forall q, default 0 (hour_get q (hourlyProductive ss)) = hour_total q ss).
Proof.
  unfold hourlyProductive, hour_total, productiveSessions.
  rewrite (fold_left_skip
             (fun s => bool_decide (s_category s = Some "distraction"))
             (fun m s =>
                hour_set (utcHour (s_start s))
                  (default 0 (hour_get (utcHour (s_start s)) m) + s_duration s) m)).
  destruct (hourly_fold
              (List.filter (fun a => negb (bool_decide (s_category a = Some "distraction")))
                 (activeSessions ss)) []) as (Hnd & Hrange & Hsum);
    [constructor|constructor|].
  split; [assumption|]. split; [assumption|].
  intros q. rewrite Hsum. simpl. lia.
Qed.

Lemma peak_fold (entries : list (Z * Z)) : forall (ph : option Z) (pd : Z),
  let r := fold_left
             (fun (peak : option Z * Z) (entry : Z * Z) =>
                if peak.2 <? entry.2 then (Some entry.1, entry.2) else peak)
             entries (ph, pd) in
  pd <= r.2 /\
  Forall (fun e : Z * Z => e.2 <= r.2) entries /\
  ((r.1 = ph /\ r.2 = pd) \/ (exists h, r.1 = Some h /\ In (h, r.2) entries /\ pd < r.2)).
Proof.
  induction entries as [|[h d] entries IH]; intros ph pd.
  - simpl. split; [lia|]. split; [constructor|]. left. auto.
  - simpl fold_left. simpl snd. simpl fst.
    destruct (pd <? d) eqn:Hlt.
    + apply Z.ltb_lt in Hlt. destruct (IH (Some h) d) as (Hle & Hall & Hcase).
      split; [lia|]. split; [constructor; [assumption|assumption]|].
      right. destruct Hcase as [[H1 H2] | (h' & H1 & H2 & H3)].
      * exists h. rewrite H2. split; [assumption|]. split; [left; reflexivity|lia].
      * exists h'. split; [assumption|]. split; [right; assumption|lia].
    + apply Z.ltb_ge in Hlt. destruct (IH ph pd) as (Hle & Hall & Hcase).
      split; [assumption|]. split; [constructor; [simpl; lia|assumption]|].
      destruct Hcase as [[H1 H2] | (h' & H1 & H2 & H3)]; [left; auto|].
      right. exists h'. split; [assumption|]. split; [right; assumption|assumption].
Qed.

(** X18.  [peakProductivityHour] is absent exactly when no hour of the day has
    positive productive time (time of active sessions other than
    distractions, counted at the hour the session starts, UTC); otherwise it
    is an hour between 0 and 23 whose productive time is positive and no
    smaller than that of any other hour. *)
Theorem peak_hour_is_maximal (ss : list ActivitySession) :
  match peakProductivityHour ss with
  | None => forall h, hour_total h ss <= 0
  | Some h =>
      0 <= h < 24 /\ 0 < hour_total h ss /\
      forall h', hour_total h' ss <= hour_total h ss
  end.
Proof.
  destruct (hourlyProductive_spec ss) as (Hnd & Hrange & Htotal).
  unfold peakProductivityHour.
  destruct (peak_fold (hourlyProductive ss) None 0) as (Hle & Hall & Hcase).
  set (r := fold_left _ (hourlyProductive ss) (None, 0)) in *.
  assert (Hbound : forall q, hour_total q ss <= r.2).
  { intros q. rewrite <- Htotal.
    destruct (hour_get q (hourlyProductive ss)) as [d|] eqn:Hq; simpl; [|assumption].
    apply hour_get_In in Hq. rewrite List.Forall_forall in Hall.
    apply (Hall (q, d) Hq). }
  destruct Hcase as [[H1 H2] | (h & H1 & H2 & H3)].
  - rewrite H1. intros q. rewrite <- H2. apply Hbound.
  - rewrite H1.
    assert (Hh : hour_total h ss = r.2).
    { rewrite <- Htotal. rewrite (In_hour_get _ _ _ Hnd H2). reflexivity. }
    split; [|split].
    + rewrite List.Forall_forall in Hrange. apply Hrange.
      apply (in_map fst) in H2. exact H2.
    + lia.
    + intros q. rewrite Hh. apply Hbound.
Qed.

(** ** Wildcard patterns *)

(** X19.  On a pattern written with literal characters, [.] and [*] only,
    [matchesDomainPattern] decides the wildcard reading of the pattern: the
    comparison ignores case, [*] stands for any run of characters, [.] for
    itself, and the pattern accounts for the whole domain. *)
Theorem plain_patterns_are_wildcards (env : Env) (domain pattern : string) :
  plain_pattern pattern = true ->
  no_line_terminator domain = true ->
  matchesDomainPattern env domain pattern = wildcard_match pattern domain.
Proof. apply matchesDomainPattern_plain. Qed.

Lemma plain_patterns_are_wildcards_witness :
  matchesDomainPattern (Fixtures.plainEnv None) "API.GitHub.com" "*.github.com"
  = wildcard_match "*.github.com" "API.GitHub.com".
Proof.
  apply (plain_patterns_are_wildcards (Fixtures.plainEnv None)); reflexivity.
Defined.

(** ** Patterns: distraction blocks and idle periods *)

Lemma distraction_entries (sessions : list ActivitySession) :
  forall (before rest : list ActivitySession),
    sessions = before ++ rest ->
    map (fun entry : nat * ActivitySession =>
           let sessionIdx := entry.1 in
           let preceding :=
             if (0 <? sessionIdx)%nat then sessions !! (sessionIdx - 1)%nat else None in
           mkDistractionBlock (timeOfDay (s_start entry.2)) (s_duration entry.2)
             (triggerOf preceding))
      (List.filter
         (fun entry : nat * ActivitySession =>
            bool_decide (s_type entry.2 = Active)
            && bool_decide (s_category entry.2 = Some "distraction"))
         (imap (fun i => pair (length before + i)%nat) rest))
    = blocks_after (last before) rest.
Proof.
  intros before rest. revert before.
  induction rest as [|s rest IH]; intros before Hsessions; [reflexivity|].
  rewrite imap_cons. simpl List.filter. simpl blocks_after.
  assert (Hrest : sessions = (before ++ [s]) ++ rest).
  { rewrite <- app_assoc. exact Hsessions. }
  specialize (IH (before ++ [s]) Hrest).
  rewrite last_snoc in IH.
  assert (Himap :
    imap ((fun i => pair (length before + i)%nat) ∘ S) rest
    = imap (fun i => pair (length (before ++ [s]) + i)%nat) rest).
  { apply imap_ext. intros i x _. simpl. rewrite length_app. simpl.
    f_equal. lia. }
  rewrite Himap.
  assert (Hprec :
    (if (0 <? length before + 0)%nat
     then sessions !! (length before + 0 - 1)%nat else None) = last before).
  { rewrite Nat.add_0_r. destruct before as [|b before] using rev_ind.
    - reflexivity.
    - rewrite length_app, last_snoc. simpl.
      replace (0 <? length before + 1)%nat with true
        by (symmetry; apply Nat.ltb_lt; lia).
      rewrite Hsessions, <- app_assoc.
      replace (length before + 1 - 1)%nat with (length before) by lia.
      rewrite lookup_app_r by lia. rewrite Nat.sub_diag. reflexivity. }
  unfold is_distraction.
  destruct (bool_decide (s_type s = Active)
            && bool_decide (s_category s = Some "distraction")); simpl.
  - rewrite Hprec. f_equal. exact IH.
  - exact IH.
Qed.

Lemma distractionBlocks_blocks_after (ss : list ActivitySession) :
  distractionBlocks ss = take 10 (blocks_after None ss).
Proof.
  unfold distractionBlocks. f_equal.
  apply (distraction_entries ss [] ss). reflexivity.
Qed.

(** X20.  The trigger of a distraction block is read from the session that
    stands immediately before the distraction in the full list of sessions,
    idle sessions included, and the first session has none: the blocks are
    those met walking the list once, each with the session seen just
    before, cut to the first ten. *)
Theorem distraction_blocks_follow_predecessor (ss : list ActivitySession) :
  distractionBlocks ss = take 10 (blocks_after None ss).
Proof. apply distractionBlocks_blocks_after. Qed.

Lemma valid_truthy (c : string) : In c VALID_CATEGORIES -> truthy c = true.
Proof.
  unfold VALID_CATEGORIES. simpl.
  intros [<- | [<- | [<- | [<- | [<- | [<- | []]]]]]]; reflexivity.
Qed.

Lemma aggregate_session_shape (env : Env) (evs : list Event) (w : World) :
  exists ss w',
    aggregateToSessions env evs w = Some (ss, w') /\ Forall session_shape ss.
Proof.
  apply (aggregate_listwise env (Forall session_shape) (fun _ => True) (fun _ => True)).
  - constructor.
  - intros ss cur s Hss _ (id & f & l & Hf & Hl & ->).
    apply Forall_app. split; [assumption|]. constructor; [|constructor].
    unfold session_shape, names_valid. simpl.
    eexists. split; [reflexivity|]. apply toActivityCategory_valid.
  - intros ss id e _ _ Hss Hact.
    apply Forall_app. split; [assumption|]. constructor; [|constructor].
    unfold session_shape. simpl. split; [reflexivity|].
    destruct (last ss) as [ls|] eqn:Hlast; simpl; [|left; reflexivity].
    right. specialize (Hact ls eq_refl).
    assert (Hin : In ls ss).
    { apply last_Some in Hlast as [l' ->]. apply in_or_app. right. left. reflexivity. }
    rewrite List.Forall_forall in Hss. specialize (Hss ls Hin).
    unfold session_shape in Hss. rewrite Hact in Hss. exact Hss.
  - intros ss ls e _ _ Hss Hty.
    apply Forall_app in Hss as [Hss Hls]. apply Forall_app. split; [assumption|].
    constructor; [|constructor]. inversion Hls; subst.
    unfold session_shape in *. simpl. assumption.
  - auto.
  - auto.
  - apply List.Forall_forall. auto.
Qed.

Lemma blocks_after_triggers (ss : list ActivitySession) :
  forall preceding,
    match preceding with Some p => session_shape p | None => True end ->
    Forall session_shape ss ->
    Forall trigger_ok (blocks_after preceding ss).
Proof.
  induction ss as [|s ss IH]; intros preceding Hp Hss; [constructor|].
  inversion Hss; subst. simpl. apply Forall_app. split.
  - destruct (is_distraction s); [|constructor].
    constructor; [|constructor]. unfold trigger_ok. simpl.
    destruct preceding as [p|]; simpl; [|left; reflexivity].
    unfold session_shape in Hp. destruct (s_type p).
    + destruct Hp as (c & -> & Hc). simpl. rewrite (valid_truthy c Hc).
      right. exists c. auto.
    + destruct Hp as [-> _]. left. reflexivity.
  - apply IH; assumption.
Qed.

Lemma idle_periods_after (ss : list ActivitySession) :
  Forall session_shape ss ->
  Forall after_ok (idlePeriods ss).
Proof.
  intros Hss. unfold idlePeriods. apply Forall_take.
  apply List.Forall_forall. intros p Hp. apply in_map_iff in Hp as (s & <- & Hs).
  unfold idleSessions in Hs. apply filter_In in Hs as [Hin Hty].
  apply bool_decide_eq_true in Hty.
  rewrite List.Forall_forall in Hss. specialize (Hss s Hin).
  unfold session_shape in Hss. rewrite Hty in Hss. destruct Hss as [_ [Hnone | Hval]].
  - unfold after_ok. simpl. rewrite Hnone. left. reflexivity.
  - destruct Hval as (c & Hc & Hin'). unfold after_ok. simpl. rewrite Hc. simpl.
    rewrite (valid_truthy c Hin'). right. assumption.
Qed.

(** X21.  In the patterns computed from the output of [aggregateToSessions],
    the trigger of every distraction block is "start of tracking" or
    "after " followed by a valid category, and every idle period comes after
    "unknown activity" or a valid category.  An idle session carries no
    category, so a distraction that comes back from an idle period is
    reported as "start of tracking". *)
Theorem patterns_name_valid_categories (env : Env) (evs : list Event) (w : World) :
  exists ss w',
    aggregateToSessions env evs w = Some (ss, w') /\
    Forall trigger_ok (distractionBlocks ss) /\
    Forall after_ok (idlePeriods ss) /\
    (forall idle, s_type idle = Idle -> In idle ss ->
                  triggerOf (Some idle) = "start of tracking").
Proof.
  destruct (aggregate_session_shape env evs w) as (ss & w' & Hagg & Hss).
  exists ss, w'. split; [assumption|]. split; [|split].
  - rewrite distractionBlocks_blocks_after. apply Forall_take.
    apply blocks_after_triggers; [exact I|assumption].
  - apply idle_periods_after. assumption.
  - intros idle Hty Hin. rewrite List.Forall_forall in Hss.
    specialize (Hss idle Hin). unfold session_shape in Hss. rewrite Hty in Hss.
    destruct Hss as [Hnone _]. simpl. rewrite Hnone. reflexivity.
Qed.

(** ** Context extraction outside browsers *)

Lemma first_extracted_truthy (env : Env) (table : list (list string * Extractor))
    (app title extracted : string) :
  first_extracted env table app title = Some extracted -> truthy extracted = true.
Proof.
  induction table as [|[alts ex] table IH]; simpl; [discriminate|].
  destruct (test_alternatives_i alts app); [|exact IH].
  destruct (title_extractor env ex title) as [e|]; [|exact IH].
  destruct (truthy e) eqn:He; [|exact IH].
  intros [= <-]. exact He.
Qed.

Lemma truthy_non_empty (s : string) : truthy s = true -> s <> "".
Proof. unfold truthy. intros H. apply negb_true_iff in H. apply String.eqb_neq. exact H. Qed.

(** X22.  For an application that is not a browser, a context returned by
    [extractContext] has a non-empty value and no details, and the URL plays
    no part in it: the call answers the same for every URL. *)
Theorem contexts_outside_browsers (env : Env) (app title : string)
    (u docPath : option string) (c : ExtractedContext) :
  test_alternatives_i BROWSER_NAMES app = false ->
  extractContext env app title u docPath = Some c ->
  ctx_value c <> "" /\ ctx_details c = None /\
  forall u', extractContext env app title u' docPath = Some c.
Proof.
  intros Hbrowser. unfold extractContext. rewrite Hbrowser.
  destruct (negb (truthy title) || (String.length (trim title) =? 0)%nat) eqn:Hblank;
    [discriminate|].
  destruct (match docPath with
            | Some p => truthy p && truthy (trim p)
            | None => false
            end) eqn:Hdoc.
  { intros [= <-]. simpl. split; [|auto].
    destruct docPath as [p|]; [|discriminate].
    apply andb_true_iff in Hdoc as [Hp _]. simpl. apply truthy_non_empty. exact Hp. }
  destruct (first_extracted env IDE_PATTERNS app title) as [e|] eqn:He.
  { intros [= <-]. simpl. split; [|auto].
    apply truthy_non_empty. eapply first_extracted_truthy. exact He. }
  destruct (first_extracted env TERMINAL_PATTERNS app title) as [e|] eqn:He1.
  { intros [= <-]. simpl. split; [|auto].
    apply truthy_non_empty. eapply first_extracted_truthy. exact He1. }
  destruct (first_extracted env DESIGN_APP_PATTERNS app title) as [e|] eqn:He2.
  { intros [= <-]. simpl. split; [|auto].
    apply truthy_non_empty. eapply first_extracted_truthy. exact He2. }
  destruct (first_extracted env COMMUNICATION_PATTERNS app title) as [e|] eqn:He3.
  { intros [= <-]. simpl. split; [|auto].
    apply truthy_non_empty. eapply first_extracted_truthy. exact He3. }
  destruct (negb (in_list (trim (toLowerCase title)) genericTitles)
            && (String.length title <? 100)%nat); [|discriminate].
  intros [= <-]. simpl. split; [|auto].
  apply orb_false_iff in Hblank as [Ht _]. apply negb_false_iff in Ht.
  destruct title as [|a title]; [discriminate|]. discriminate.
Qed.

Lemma contexts_outside_browsers_witness :
  ctx_value (mkContext CtxFile "/home/ada/notes.md" None) <> "" /\
  ctx_details (mkContext CtxFile "/home/ada/notes.md" None) = None /\
  forall u', extractContext (Fixtures.plainEnv None) "Notes" "notes.md" u'
               (Some "/home/ada/notes.md")
             = Some (mkContext CtxFile "/home/ada/notes.md" None).
Proof.
  apply (contexts_outside_browsers (Fixtures.plainEnv None) "Notes" "notes.md" None
           (Some "/home/ada/notes.md")); reflexivity.
Defined.
